(** * python-grami: a shallow embedding of the mining core

    The development follows the Python sources file by file:
    [graph.py] (Edge, DataGraph), [canonical.py] (_CanonDFSHelper),
    [pattern.py] (Pattern), [embed.py] (EmbeddingEnumerator),
    [candidate.py] (CandidateGenerator) and [miner.py] (the two miners and
    SoGraMiHeuristics).

    Conventions.
    - Node ids are natural numbers (the sources index lists with them).
    - Vertex labels are [string]s holding the UTF-8 bytes of the Python
      [str]; byte-wise lexicographic order ([String.compare]) is then the
      code-point order Python uses.  An edge label is an [option string]:
      [None] is Python's [None], distinct from [Some ""].
    - A Python exception (IndexError, TypeError) is the [None] of an
      [option], or the [Raise] of an [outcome].
    - A [dict] or [set] whose iteration order the code depends on is a list
      in insertion order; a [Dict[int,int]] assignment is a [gmap nat nat]. *)

From Stdlib Require Import String Ascii NArith Lia.
From Stdlib Require OrderedTypeEx.
From stdpp Require Import base option list gmap strings sorting.

Open Scope string_scope.
Open Scope nat_scope.
Open Scope list_scope.

(** ** graph.py *)

(** [Edge(u, v, label=None)], a frozen dataclass. *)
Record Edge := mkEdge {
  edge_u : nat;
  edge_v : nat;
  edge_label : option string
}.

#[global] Instance Edge_eq_dec : EqDecision Edge.
Proof. solve_decision. Defined.

(** One adjacency entry [(neighbor, label)]. *)
Definition Nbr : Type := nat * option string.

(** The fields of [DataGraph] the mining core reads.  [adj_set] and
    [rev_set] are written by [__init__] and read nowhere; [lab2nodes] is
    the function [lab2nodes] below. *)
Record DataGraph := mkDataGraph {
  g_directed : bool;
  g_vlabels : list string;
  g_adj : list (list Nbr);
  g_rev : list (list Nbr)
}.

(** [rows[i].append(x)]; IndexError when [i] is not an index of [rows]. *)
Definition append_at {A} (i : nat) (x : A) (rows : list (list A))
  : option (list (list A)) :=
  if decide (i < length rows) then Some (alter (λ r, r ++ [x]) i rows)
  else None.

(** The body of the loop [for e in edges] of [DataGraph.__init__]. *)
Definition init_step (directed : bool) (st : list (list Nbr) * list (list Nbr))
    (e : Edge) : option (list (list Nbr) * list (list Nbr)) :=
  let '(adj, rev) := st in
  adj1 ← append_at (edge_u e) (edge_v e, edge_label e) adj;
  rev1 ← append_at (edge_v e) (edge_u e, edge_label e) rev;
  if directed then Some (adj1, rev1)
  else
    adj2 ← append_at (edge_v e) (edge_u e, edge_label e) adj1;
    rev2 ← append_at (edge_u e) (edge_v e, edge_label e) rev1;
    Some (adj2, rev2).

Fixpoint init_loop (directed : bool) (st : list (list Nbr) * list (list Nbr))
    (edges : list Edge) : option (list (list Nbr) * list (list Nbr)) :=
  match edges with
  | [] => Some st
  | e :: rest => st' ← init_step directed st e; init_loop directed st' rest
  end.

(** [DataGraph.__init__(directed, vlabels, edges)]. *)
Definition DataGraph_init (directed : bool) (vlabels : list string)
    (edges : list Edge) : option DataGraph :=
  let n := length vlabels in
  '(adj, rev) ← init_loop directed (replicate n [], replicate n []) edges;
  Some (mkDataGraph directed vlabels adj rev).

(** [G.vlabels[u]] and [G.adj[u]] at a node of the graph.  Every call site
    passes a node id below [len(vlabels)] (a loop index, a member of
    [lab2nodes], or a neighbour stored by [__init__]), where the Python
    lookup cannot raise. *)
Definition vlabel (G : DataGraph) (u : nat) : string :=
  default "" (g_vlabels G !! u).

Definition adj (G : DataGraph) (u : nat) : list Nbr :=
  default [] (g_adj G !! u).

Definition rev (G : DataGraph) (u : nat) : list Nbr :=
  default [] (g_rev G !! u).

(** [lab2nodes[lab]]: the set of nodes labelled [lab], listed in ascending
    order (empty for an unknown label, as [lab2nodes.get(lbl, set())]). *)
Definition lab2nodes (G : DataGraph) (lab : string) : list nat :=
  filter (λ i, vlabel G i = lab) (seq 0 (length (g_vlabels G))).

(** [label is None or lab == label]. *)
Definition label_matches (label lab : option string) : bool :=
  match label with
  | None => true
  | Some _ => bool_decide (lab = label)
  end.

(** [DataGraph.has_edge(u, v, label)]. *)
Definition has_edge (G : DataGraph) (u v : nat) (label : option string) : bool :=
  existsb (λ '(w, lab), bool_decide (w = v) && label_matches label lab) (adj G u).

(** An edge type [(lu, lv, elabel, dflag)]. *)
Definition EdgeType : Type := string * string * option string * nat.

(** [counts[k] += 1] on a [defaultdict(int)], kept in insertion order. *)
Fixpoint incr (k : EdgeType) (counts : list (EdgeType * nat))
  : list (EdgeType * nat) :=
  match counts with
  | [] => [(k, 1)]
  | (k', c) :: rest =>
      if decide (k' = k) then (k', S c) :: rest else (k', c) :: incr k rest
  end.

(** [counts[k]] read back, 0 for an absent key. *)
Fixpoint count_of (k : EdgeType) (counts : list (EdgeType * nat)) : nat :=
  match counts with
  | [] => 0
  | (k', c) :: rest => if decide (k' = k) then c else count_of k rest
  end.

(** [(lu, lv) if lu <= lv else (lv, lu)]. *)
Definition norm_labels (lu lv : string) : string * string :=
  if String.leb lu lv then (lu, lv) else (lv, lu).

(** The edge type one adjacency entry [(v, el)] of [adj[u]] is counted
    under, or [None] when the entry is skipped ([if u > v: continue]). *)
Definition entry_type (G : DataGraph) (u : nat) (nb : Nbr) : option EdgeType :=
  let '(v, el) := nb in
  let lu := vlabel G u in
  let lv := vlabel G v in
  if g_directed G then Some (lu, lv, el, 1)
  else if decide (v < u) then None
  else let '(a, b) := norm_labels lu lv in Some (a, b, el, 0).

(** [DataGraph.edge_type_counts()]. *)
Definition edge_type_counts (G : DataGraph) : list (EdgeType * nat) :=
  foldl (λ counts u,
           foldl (λ counts nb,
                    match entry_type G u nb with
                    | Some k => incr k counts
                    | None => counts
                    end) counts (adj G u))
        [] (seq 0 (length (g_vlabels G))).

(** ** canonical.py *)

(** An entry [(v, label, tag)] of the helper's adjacency [p_adj]. *)
Definition PNbr : Type := nat * option string * nat.

(** A member [(u, v, label, d)] of [edge_keys] and of [used_edges]. *)
Definition EdgeKey : Type := nat * nat * option string * nat.

(** A DFS-code tuple [(uidx, vidx, vlabels[u], el or "", vlabels[v], df)]. *)
Definition CodeTuple : Type := nat * nat * string * string * string * nat.

(** [s.add(k)] on a set kept as a duplicate-free list. *)
Definition set_add {A} `{EqDecision A} (k : A) (s : list A) : list A :=
  if decide (k ∈ s) then s else s ++ [k].

Record CanonDFSHelper := mkHelper {
  h_directed : bool;
  h_vlabels : list string;
  p_adj : list (list PNbr);
  edge_keys : list EdgeKey
}.

(** [(e.u, e.v) if e.u <= e.v else (e.v, e.u)]. *)
Definition norm_pair (u v : nat) : nat * nat :=
  if decide (u ≤ v) then (u, v) else (v, u).

(** The body of [for e in edges] in [_CanonDFSHelper.__init__]. *)
Definition helper_step (directed : bool) (st : list (list PNbr) * list EdgeKey)
    (e : Edge) : option (list (list PNbr) * list EdgeKey) :=
  let '(padj, keys) := st in
  let '(u, v, lab) := (edge_u e, edge_v e, edge_label e) in
  if directed then
    padj1 ← append_at u (v, lab, 1) padj;
    padj2 ← append_at v (u, lab, 2) padj1;
    Some (padj2, set_add (u, v, lab, 1) keys)
  else
    padj1 ← append_at u (v, lab, 0) padj;
    padj2 ← append_at v (u, lab, 0) padj1;
    let '(a, b) := norm_pair u v in
    Some (padj2, set_add (a, b, lab, 0) keys).

Fixpoint helper_loop (directed : bool) (st : list (list PNbr) * list EdgeKey)
    (edges : list Edge) : option (list (list PNbr) * list EdgeKey) :=
  match edges with
  | [] => Some st
  | e :: rest => st' ← helper_step directed st e; helper_loop directed st' rest
  end.

(** [_CanonDFSHelper.__init__(directed, vlabels, edges)]. *)
Definition helper_init (directed : bool) (vlabels : list string)
    (edges : list Edge) : option CanonDFSHelper :=
  '(padj, keys) ← helper_loop directed (replicate (length vlabels) [], []) edges;
  Some (mkHelper directed vlabels padj keys).

(** Python's [<] on two optional labels: a [str] against [None] raises
    TypeError. *)
Definition label_cmp (a b : option string) : option comparison :=
  match a, b with
  | None, None => Some Eq
  | Some x, Some y => Some (String.compare x y)
  | _, _ => None
  end.

(** Tuple comparison of two edge keys, element by element. *)
Definition key_cmp (k1 k2 : EdgeKey) : option comparison :=
  let '(u1, v1, l1, d1) := k1 in
  let '(u2, v2, l2, d2) := k2 in
  match Nat.compare u1 u2 with
  | Eq => match Nat.compare v1 v2 with
          | Eq => match label_cmp l1 l2 with
                  | Some Eq => Some (Nat.compare d1 d2)
                  | r => r
                  end
          | c => Some c
          end
  | c => Some c
  end.

Definition key_leb (k1 k2 : EdgeKey) : bool :=
  match key_cmp k1 k2 with Some Gt => false | _ => true end.

Fixpoint insert_key (k : EdgeKey) (l : list EdgeKey) : list EdgeKey :=
  match l with
  | [] => [k]
  | x :: r => if key_leb k x then k :: l else x :: insert_key k r
  end.

(** [sorted(self.edge_keys)].  The members of a set are pairwise distinct,
    so a comparison sort has to compare every two members that tie on
    [(u, v)]; when their labels are a [str] and [None] that comparison
    raises TypeError.  Otherwise the order is total and the result does not
    depend on the sorting algorithm. *)
Definition sorted_keys (ks : list EdgeKey) : option (list EdgeKey) :=
  if forallb (λ k1, forallb (λ k2, bool_decide (is_Some (key_cmp k1 k2))) ks) ks
  then Some (foldr insert_key [] ks)
  else None.

(** The state of [_dfs_enumerate]: [visited_idx] as the list of visited
    nodes in discovery order (the index of a node is its position, and
    [visited_idx.items()] iterates in this order), [used_edges], [code]. *)
Record DfsState := mkDfs {
  visited : list nat;
  used_edges : list EdgeKey;
  code : list CodeTuple
}.

(** [visited_idx.get(u)]. *)
Fixpoint index_of (u : nat) (vis : list nat) : option nat :=
  match vis with
  | [] => None
  | x :: r => if decide (x = u) then Some 0 else S <$> index_of u r
  end.

(** The local function [assign]. *)
Definition assign (u : nat) (vis : list nat) : nat * list nat :=
  match index_of u vis with
  | Some i => (i, vis)
  | None => (length vis, vis ++ [u])
  end.

(** The local function [norm_key]. *)
Definition norm_key (directed : bool) (u v : nat) (el : option string)
    (df : nat) : EdgeKey :=
  if directed then (u, v, el, 1)
  else let '(a, b) := norm_pair u v in (a, b, el, 0).

(** [self.vlabels[u]] for a pattern node [u]; every [u] reached here is an
    endpoint of an edge that [__init__] accepted, hence in range. *)
Definition hlabel (h : CanonDFSHelper) (u : nat) : string :=
  default "" (h_vlabels h !! u).

(** The local function [push_edge]. *)
Definition push_edge (h : CanonDFSHelper) (u v : nat) (el : option string)
    (df : nat) (st : DfsState) : DfsState :=
  let '(uidx, vis1) := assign u (visited st) in
  let '(vidx, vis2) := assign v vis1 in
  mkDfs vis2
        (set_add (norm_key (h_directed h) u v el df) (used_edges st))
        (code st ++ [(uidx, vidx, hlabel h u, default "" el, hlabel h v, df)]).

(** A frontier entry [(u, v, el, df, uidx, visited_idx.get(v, 10**9))]. *)
Definition FrontierEntry : Type := nat * nat * option string * nat * nat * N.

Definition sentinel : N := 1000000000%N.

(** The frontier of one iteration of the [while] loop. *)
Definition frontier (h : CanonDFSHelper) (st : DfsState) : list FrontierEntry :=
  flat_map (λ '(uidx, u),
    flat_map (λ '(v, el, df),
      if decide (norm_key (h_directed h) u v el df ∈ used_edges st) then []
      else [(u, v, el, df, uidx,
             match index_of v (visited st) with
             | Some i => N.of_nat i
             | None => sentinel
             end)])
      (default [] (p_adj h !! u)))
    (imap (λ i u, (i, u)) (visited st)).

(** The sort key of [frontier.sort(key=...)]. *)
Definition SortKey : Type := nat * string * string * nat * string * nat * N.

Definition sort_key (h : CanonDFSHelper) (t : FrontierEntry) : SortKey :=
  let '(u, v, el, df, uidx, vidx) := t in
  let seen := negb (N.eqb vidx sentinel) in
  (uidx, hlabel h u, default "" el, if seen then 0 else 1,
   if seen then hlabel h v else "~", df, vidx).

(** Lexicographic chaining of comparisons. *)
Definition lex (c : comparison) (k : comparison) : comparison :=
  match c with Eq => k | _ => c end.

Definition sort_key_cmp (a b : SortKey) : comparison :=
  let '(a1, a2, a3, a4, a5, a6, a7) := a in
  let '(b1, b2, b3, b4, b5, b6, b7) := b in
  lex (Nat.compare a1 b1) (lex (String.compare a2 b2) (lex (String.compare a3 b3)
    (lex (Nat.compare a4 b4) (lex (String.compare a5 b5)
      (lex (Nat.compare a6 b6) (N.compare a7 b7)))))).

(** [frontier[0]] after the stable [frontier.sort(key=...)]: the first
    entry, in frontier order, whose key is minimal. *)
Definition first_min (h : CanonDFSHelper) (fr : list FrontierEntry)
  : option FrontierEntry :=
  foldl (λ best t,
           match best with
           | None => Some t
           | Some b =>
               match sort_key_cmp (sort_key h t) (sort_key h b) with
               | Lt => Some t
               | _ => best
               end
           end) None fr.

(** [used_edges >= self.edge_keys]. *)
Definition superset {A} `{EqDecision A} (big small : list A) : bool :=
  forallb (λ k, bool_decide (k ∈ big)) small.

(** The [while True] loop of [_dfs_enumerate].  Every iteration that does
    not break adds to [used_edges] the key of an adjacency entry that was
    not in it, so the loop runs at most as often as [p_adj] has entries;
    [fuel] counts the iterations still allowed (see [dfs_loop_fuel]). *)
Fixpoint dfs_loop (fuel : nat) (h : CanonDFSHelper) (st : DfsState)
  : list CodeTuple :=
  match fuel with
  | 0 => code st
  | S fuel' =>
      if superset (used_edges st) (edge_keys h) then code st
      else match first_min h (frontier h st) with
           | None => code st
           | Some (u, v, el, df, _, _) =>
               dfs_loop fuel' h (push_edge h u v el df st)
           end
  end.

(** The number of adjacency entries of the helper. *)
Definition adj_size (h : CanonDFSHelper) : nat :=
  sum_list (length <$> p_adj h).

(** [_CanonDFSHelper._dfs_enumerate(su, sv, elab, dflag)]. *)
Definition dfs_enumerate (h : CanonDFSHelper) (su sv : nat)
    (elab : option string) (dflag : nat) : list CodeTuple :=
  dfs_loop (S (adj_size h)) h (push_edge h su sv elab dflag (mkDfs [] [] [])).

Definition code_tuple_cmp (a b : CodeTuple) : comparison :=
  let '(a1, a2, a3, a4, a5, a6) := a in
  let '(b1, b2, b3, b4, b5, b6) := b in
  lex (Nat.compare a1 b1) (lex (Nat.compare a2 b2) (lex (String.compare a3 b3)
    (lex (String.compare a4 b4) (lex (String.compare a5 b5)
      (Nat.compare a6 b6))))).

(** Python's [<] on two tuples of code tuples. *)
Fixpoint code_ltb (s t : list CodeTuple) : bool :=
  match s, t with
  | [], [] => false
  | [], _ :: _ => true
  | _ :: _, [] => false
  | a :: s', b :: t' =>
      match code_tuple_cmp a b with
      | Lt => true
      | Gt => false
      | Eq => code_ltb s' t'
      end
  end.

(** The seeds of [canonical_code], from the sorted edge keys. *)
Definition seeds_of (directed : bool) (ks : list EdgeKey) : list EdgeKey :=
  if directed then
    flat_map (λ '(u, v, el, d), if decide (d = 1) then [(u, v, el, 1)] else []) ks
  else (λ '(u, v, el, d), (u, v, el, 0)) <$> ks.

(** The body of the loop [for su, sv, el, df in seeds] of
    [canonical_code]. *)
Definition best_step (h : CanonDFSHelper) (best : option (list CodeTuple))
    (seed : EdgeKey) : option (list CodeTuple) :=
  let '(su, sv, el, df) := seed in
  let t := dfs_enumerate h su sv el df in
  match best with
  | None => Some t
  | Some b => if code_ltb t b then Some t else best
  end.

(** [_CanonDFSHelper.canonical_code()]; [best or tuple()] at the end. *)
Definition canonical_code (h : CanonDFSHelper) : option (list CodeTuple) :=
  ks ← sorted_keys (edge_keys h);
  let best := foldl (best_step h) None (seeds_of (h_directed h) ks) in
  Some (default [] best).

(** ** pattern.py *)

Definition CanonicalKey : Type := bool * list CodeTuple.

Record Pattern := mkPattern {
  p_directed : bool;
  p_vlabels : list string;
  p_edges : list Edge;
  p_key : CanonicalKey
}.

(** [Pattern._canonical_key()], on the constructor's arguments. *)
Definition canonical_key (vlabels : list string) (edges : list Edge)
    (directed : bool) : option CanonicalKey :=
  h ← helper_init directed vlabels edges;
  canon ← canonical_code h;
  Some (directed, canon).

(** [Pattern.__init__(vlabels, edges, directed)]; it raises what the
    canonicalizer raises. *)
Definition Pattern_init (vlabels : list string) (edges : list Edge)
    (directed : bool) : option Pattern :=
  k ← canonical_key vlabels edges directed;
  Some (mkPattern directed vlabels edges k).

(** [Pattern.num_nodes()]. *)
Definition num_nodes (p : Pattern) : nat := length (p_vlabels p).

(** [Pattern.edge_set()], a set read only through [in]. *)
Definition edge_set (p : Pattern) : list (nat * nat * option string) :=
  if p_directed p then (λ e, (edge_u e, edge_v e, edge_label e)) <$> p_edges p
  else (λ e, (edge_u e `min` edge_v e, edge_u e `max` edge_v e, edge_label e))
         <$> p_edges p.

(** ** embed.py *)

(** [u_g in assignment.values()]. *)
Definition in_values (u_g : nat) (assignment : gmap nat nat) : bool :=
  bool_decide (u_g ∈ (map_to_list assignment).*2).

(** [_initial_domains(p)[i]], the set as its ascending list of members. *)
Definition domain (G : DataGraph) (p : Pattern) (i : nat) : list nat :=
  lab2nodes G (default "" (p_vlabels p !! i)).

(** [deg[u]] of [_assignment_order]: a self-loop counts twice. *)
Definition pattern_degree (p : Pattern) (u : nat) : nat :=
  sum_list ((λ e, (if decide (edge_u e = u) then 1 else 0)
                  + (if decide (edge_v e = u) then 1 else 0)) <$> p_edges p).

(** The order of the sort keys [(len(domains[u]), -deg[u], u)]. *)
Definition order_cmp (G : DataGraph) (p : Pattern) (u v : nat) : comparison :=
  lex (Nat.compare (length (domain G p u)) (length (domain G p v)))
      (lex (Nat.compare (pattern_degree p v) (pattern_degree p u))
           (Nat.compare u v)).

Definition order_le (G : DataGraph) (p : Pattern) (u v : nat) : Prop :=
  order_cmp G p u v ≠ Gt.

#[global] Instance order_le_dec G p u v : Decision (order_le G p u v).
Proof. unfold order_le. apply _. Defined.

(** [_assignment_order(p, domains)]: the keys are pairwise distinct (their
    last component is the node), so the sorted list is unique. *)
Definition assignment_order (G : DataGraph) (p : Pattern) : list nat :=
  merge_sort (order_le G p) (seq 0 (num_nodes p)).

(** [nbrs[u]] as built by [for e in p.edges]. *)
Definition nbrs (p : Pattern) (u : nat) : list PNbr :=
  flat_map (λ e,
    (if decide (edge_u e = u) then [(edge_v e, edge_label e, 1)] else [])
    ++ (if decide (edge_v e = u)
        then [(edge_u e, edge_label e, if p_directed p then 2 else 1)]
        else [])) (p_edges p).

(** [consistent] of [full_mni_embeddings] ([if d == 1 ... elif d == 2]). *)
Definition consistent (G : DataGraph) (p : Pattern) (assignment : gmap nat nat)
    (u_p u_g : nat) : bool :=
  if decide (default "" (p_vlabels p !! u_p) ≠ vlabel G u_g) then false
  else forallb (λ '(v_p, elab, d),
         match assignment !! v_p with
         | None => true
         | Some v_g =>
             if decide (d = 1) then has_edge G u_g v_g elab
             else if decide (d = 2) then has_edge G v_g u_g elab
             else true
         end) (nbrs p u_p).

(** [consistent] of [full_support_count] ([if d == 1 ... else]). *)
Definition consistent_count (G : DataGraph) (p : Pattern)
    (assignment : gmap nat nat) (u_p u_g : nat) : bool :=
  if decide (default "" (p_vlabels p !! u_p) ≠ vlabel G u_g) then false
  else forallb (λ '(v_p, elab, d),
         match assignment !! v_p with
         | None => true
         | Some v_g =>
             if decide (d = 1) then has_edge G u_g v_g elab
             else has_edge G v_g u_g elab
         end) (nbrs p u_p).

(** [backtrack(i)] of [full_mni_embeddings], with [rest = order[i:]].  The
    recursive call runs on [assignment] with [u_p] bound; [del
    assignment[u_p]] afterwards restores the caller's [assignment] (see
    [backtrack_restores]).  The result is what the call appends to
    [solutions]. *)
Fixpoint backtrack (G : DataGraph) (p : Pattern) (rest : list nat)
    (assignment : gmap nat nat) : list (gmap nat nat) :=
  match rest with
  | [] => [assignment]
  | u_p :: rest' =>
      flat_map (λ u_g,
        if in_values u_g assignment then []
        else if consistent G p assignment u_p u_g
             then backtrack G p rest' (<[u_p := u_g]> assignment)
             else []) (domain G p u_p)
  end.

(** [EmbeddingEnumerator.full_mni_embeddings(p)]. *)
Definition full_mni_embeddings (G : DataGraph) (p : Pattern)
  : list (gmap nat nat) :=
  backtrack G p (assignment_order G p) ∅.

(** [cap is not None and count >= cap]. *)
Definition cap_reached (cap : option nat) (count : nat) : bool :=
  match cap with
  | None => false
  | Some c => bool_decide (c ≤ count)
  end.

Section FullSupportCount.
(** [for u_g in domains[u_p]] iterates a Python [set], in an order the
    language does not fix: [set_order] lists a set given by its
    ascending members in the order of iteration. *)
Variable set_order : list nat → list nat.

(** [backtrack(i)] of [full_support_count]; the result is [count] after
    the call. *)
Fixpoint backtrack_count (G : DataGraph) (p : Pattern) (cap : option nat)
    (rest : list nat) (assignment : gmap nat nat) (count : nat) : nat :=
  if cap_reached cap count then count
  else match rest with
       | [] => S count
       | u_p :: rest' =>
           foldl (λ count u_g,
             if in_values u_g assignment then count
             else if consistent_count G p assignment u_p u_g
                  then backtrack_count G p cap rest'
                         (<[u_p := u_g]> assignment) count
                  else count) count (set_order (domain G p u_p))
       end.

(** [EmbeddingEnumerator.full_support_count(p, cap)]. *)
Definition full_support_count (G : DataGraph) (p : Pattern)
    (cap : option nat) : nat :=
  backtrack_count G p cap (assignment_order G p) ∅ 0.
End FullSupportCount.

(** [imgs[pnode].add(gnode)]; IndexError when [pnode] is not below [k]. *)
Definition imgs_add (imgs : list (gset nat)) (pg : nat * nat)
  : option (list (gset nat)) :=
  let '(pnode, gnode) := pg in
  if decide (pnode < length imgs)
  then Some (alter (λ s, {[gnode]} ∪ s) pnode imgs)
  else None.

(** A loop whose body can raise. *)
Fixpoint foldM {A B} (f : B → A → option B) (b : B) (l : list A) : option B :=
  match l with
  | [] => Some b
  | a :: r => b' ← f b a; foldM f b' r
  end.

(** [EmbeddingEnumerator.mni_support(embeddings, k)]. *)
Definition mni_support (embeddings : list (gmap nat nat)) (k : nat) : option nat :=
  if decide (k = 0) then Some 0
  else
    imgs ← foldM (λ imgs emb, foldM imgs_add imgs (map_to_list emb))
                 (replicate k (∅ : gset nat)) embeddings;
    match size <$> imgs with
    | [] => None
    | x :: r => Some (foldl Nat.min x r)
    end.

(** ** miner.py: SoGraMiHeuristics (used by candidate.py) *)

(** A stable sort, as [list.sort] and [sorted] are: [leb x y] says that the
    key of [x] is at most the key of [y]; elements with equal keys keep
    their order. *)
Fixpoint insert_sorted {A} (leb : A → A → bool) (x : A) (l : list A) : list A :=
  match l with
  | [] => [x]
  | y :: r => if leb x y then x :: l else y :: insert_sorted leb x r
  end.

Definition stable_sort {A} (leb : A → A → bool) (l : list A) : list A :=
  foldr (insert_sorted leb) [] l.

(** [SoGraMiHeuristics(G)]; [lab_freq] and [deg] are functions of [G]. *)
Record SoGraMiHeuristics := mkHeur { heur_G : DataGraph }.

(** [label_rarity(lab) = lab_freq.get(lab, 0)]. *)
Definition label_rarity (heur : SoGraMiHeuristics) (lab : string) : nat :=
  length (lab2nodes (heur_G heur) lab).

(** [self.deg[i] = len(G.adj[i])]. *)
Definition deg (heur : SoGraMiHeuristics) (i : nat) : nat :=
  length (adj (heur_G heur) i).

(** Order of the keys [(rarity, -degree)]. *)
Definition rarity_leb (r1 d1 r2 d2 : nat) : bool :=
  match lex (Nat.compare r1 r2) (Nat.compare d2 d1) with
  | Gt => false
  | _ => true
  end.

(** [neighbor_order(u_g)]. *)
Definition neighbor_order (heur : SoGraMiHeuristics) (u_g : nat) : list Nbr :=
  let G := heur_G heur in
  stable_sort (λ t1 t2,
      rarity_leb (label_rarity heur (vlabel G t1.1)) (deg heur t1.1)
                 (label_rarity heur (vlabel G t2.1)) (deg heur t2.1))
    (adj G u_g).

(** [degree_prune(need_deg, cand_deg)]. *)
Definition degree_prune (need_deg cand_deg : nat) : bool :=
  bool_decide (need_deg ≤ cand_deg).

(** ** candidate.py *)

(** What a generator has yielded, and whether it then raised. *)
Record Gen (A : Type) := mkGen { yielded : list A; raised : bool }.
Arguments mkGen {A} _ _.
Arguments yielded {A} _.
Arguments raised {A} _.

Definition gen_cons {A} (x : A) (g : Gen A) : Gen A :=
  mkGen (x :: yielded g) (raised g).

(** Python's [min(a, b)] and [max(a, b)] on strings. *)
Definition str_min (a b : string) : string := if String.ltb b a then b else a.
Definition str_max (a b : string) : string := if String.ltb a b then b else a.

(** A member of [seen] in [seed_patterns]. *)
Definition SeedTuple : Type := string * string * option string * bool.

(** The label tuple of the entry [(v, elab)] of [adj[u]], or [None] where
    the entry is skipped ([if u >= v: continue], undirected only). *)
Definition seed_tuple (G : DataGraph) (u : nat) (nb : Nbr) : option SeedTuple :=
  let '(v, elab) := nb in
  let lu := vlabel G u in
  let lv := vlabel G v in
  if g_directed G then Some (lu, lv, elab, true)
  else if decide (v ≤ u) then None
  else Some (str_min lu lv, str_max lu lv, elab, false).

(** The body of the inner loop of [seed_patterns]: the state is [seen] and
    the patterns yielded so far. *)
Definition seed_step (G : DataGraph) (u : nat)
    (st : list SeedTuple * list Pattern) (nb : Nbr)
  : option (list SeedTuple * list Pattern) :=
  let '(seen, out) := st in
  match seed_tuple G u nb with
  | None => Some st
  | Some tpl =>
      if decide (tpl ∈ seen) then Some st
      else
        q ← Pattern_init [vlabel G u; vlabel G nb.1] [mkEdge 0 1 nb.2]
                         (g_directed G);
        Some (set_add tpl seen, out ++ [q])
  end.

(** [list(CandidateGenerator.seed_patterns())]. *)
Definition seed_patterns (G : DataGraph) : option (list Pattern) :=
  snd <$> foldM (λ st u, foldM (seed_step G u) st (adj G u))
                ([], []) (seq 0 (length (g_vlabels G))).

(** The loop of [_rmpath] that fills [seen] and [parent]. *)
Definition rm_step (st : list nat * gmap nat nat) (t : CodeTuple)
  : list nat * gmap nat nat :=
  let '(seen, parent) := st in
  let '(frm_idx, to_idx, _, _, _, _) := t in
  let seen1 := if decide (frm_idx ∈ seen) then seen else seen ++ [frm_idx] in
  if decide (to_idx ∈ seen1) then (seen1, parent)
  else (seen1 ++ [to_idx], <[to_idx := frm_idx]> parent).

(** [while path[-1] in parent: path.append(parent[path[-1]])], the path
    kept with its last element first.  A parent was added to [seen] before
    its child, so the chain has fewer links than [seen] has members;
    [fuel] counts the links still allowed (see [climb_fuel]). *)
Fixpoint climb (fuel : nat) (parent : gmap nat nat) (last : nat)
    (path : list nat) : list nat :=
  match fuel with
  | 0 => last :: path
  | S fuel' =>
      match parent !! last with
      | Some up => climb fuel' parent up (last :: path)
      | None => last :: path
      end
  end.

(** [CandidateGenerator._rmpath(p)]. *)
Definition rmpath (p : Pattern) : option (list nat) :=
  '(_, code) ← canonical_key (p_vlabels p) (p_edges p) (p_directed p);
  match code with
  | [] => Some (seq 0 (num_nodes p))
  | _ :: _ =>
      let '(_, parent) := foldl rm_step ([], ∅) code in
      let r := foldl Nat.max 0
                 (((λ t : CodeTuple, t.1.1.1.1.1) <$> code)
                  ++ ((λ t : CodeTuple, t.1.1.1.1.2) <$> code)) in
      Some (climb (2 * length code) parent r [])
  end.

(** The arguments of a call [Pattern(vlabels, edges, directed)]. *)
Definition Raw : Type := list string * list Edge * bool.

(** [pat_deg(u_p)] of [extensions]. *)
Definition pat_deg (p : Pattern) (u_p : nat) : nat :=
  length (filter (λ e, edge_u e = u_p ∨ edge_v e = u_p) (p_edges p)).

(** [p.vlabels[u_p]] for a node of the right-most path. *)
Definition plabel (p : Pattern) (u : nat) : string :=
  default "" (p_vlabels p !! u).

(** [allowed_edge_types is not None and t not in allowed_edge_types]. *)
Definition disallowed (allowed : option (list EdgeType)) (t : EdgeType) : bool :=
  match allowed with
  | None => false
  | Some ts => bool_decide (t ∉ ts)
  end.

(** [[lab for (v2, lab) in G.adj[a] if v2 == b]]. *)
Definition labels_between (G : DataGraph) (a b : nat) : list (option string) :=
  snd <$> filter (λ nb : Nbr, nb.1 = b) (adj G a).

(** The candidates of the back-edge part for one ancestor [w_p], in the
    order in which [extensions] constructs them. *)
Definition back_cands (G : DataGraph) (p : Pattern)
    (allowed : option (list EdgeType)) (u_p u_g w_p w_g : nat) : list Raw :=
  let existing := edge_set p in
  if negb (p_directed p) then
    if has_edge G u_g w_g None || has_edge G w_g u_g None then
      let labs := labels_between G u_g w_g in
      let labs := match labs with [] => labels_between G w_g u_g | _ => labs end in
      flat_map (λ elab,
        if decide ((u_p `min` w_p, u_p `max` w_p, elab) ∈ existing) then []
        else
          let '(a, b) := norm_labels (plabel p u_p) (plabel p w_p) in
          if disallowed allowed (a, b, elab, 0) then []
          else [(p_vlabels p, p_edges p ++ [mkEdge u_p w_p elab], false)]) labs
    else []
  else
    (if has_edge G u_g w_g None then
       flat_map (λ elab,
         if decide ((u_p, w_p, elab) ∈ existing) then []
         else if disallowed allowed (plabel p u_p, plabel p w_p, elab, 1) then []
         else [(p_vlabels p, p_edges p ++ [mkEdge u_p w_p elab], true)])
         (labels_between G u_g w_g)
     else [])
    ++
    (if has_edge G w_g u_g None then
       flat_map (λ elab,
         if decide ((w_p, u_p, elab) ∈ existing) then []
         else if disallowed allowed (plabel p w_p, plabel p u_p, elab, 1) then []
         else [(p_vlabels p, p_edges p ++ [mkEdge w_p u_p elab], true)])
         (labels_between G w_g u_g)
     else []).

(** [heur and not heur.degree_prune(pat_deg(u_p) + 1, len(G.adj[v_g]))]. *)
Definition pruned (G : DataGraph) (p : Pattern)
    (heur : option SoGraMiHeuristics) (u_p v_g : nat) : bool :=
  match heur with
  | None => false
  | Some _ => negb (degree_prune (pat_deg p u_p + 1) (length (adj G v_g)))
  end.

(** The candidates that grow a new vertex from [u_p], mapped to [u_g]:
    first along [adj], then (directed graphs) along [rev]. *)
Definition forward_cands (G : DataGraph) (p : Pattern) (emb : gmap nat nat)
    (heur : option SoGraMiHeuristics) (allowed : option (list EdgeType))
    (u_p u_g : nat) : list Raw :=
  let new_vid := num_nodes p in
  let out_neigh :=
    match heur with
    | Some hr => neighbor_order hr u_g
    | None => adj G u_g
    end in
  flat_map (λ '(v_g, elab),
    if in_values v_g emb then []
    else if pruned G p heur u_p v_g then []
    else
      let lv := vlabel G v_g in
      let lu := plabel p u_p in
      if (if p_directed p then disallowed allowed (lu, lv, elab, 1)
          else let '(a, b) := norm_labels lu lv in
               disallowed allowed (a, b, elab, 0))
      then []
      else [(p_vlabels p ++ [lv], p_edges p ++ [mkEdge u_p new_vid elab],
             p_directed p)]) out_neigh
  ++
  (if g_directed G then
     let in_neigh :=
       match heur with
       | Some hr =>
           stable_sort (λ t1 t2 : Nbr,
               rarity_leb (label_rarity hr (vlabel G t1.1)) (length (adj G t1.1))
                          (label_rarity hr (vlabel G t2.1)) (length (adj G t2.1)))
             (rev G u_g)
       | None => rev G u_g
       end in
     flat_map (λ '(v_g, elab),
       if in_values v_g emb then []
       else if pruned G p heur u_p v_g then []
       else
         let lv := vlabel G v_g in
         if disallowed allowed (lv, plabel p u_p, elab, 1) then []
         else [(p_vlabels p ++ [lv], p_edges p ++ [mkEdge new_vid u_p elab],
                true)]) in_neigh
   else []).

(** All candidates of one embedding [emb], in construction order. *)
Definition emb_cands (G : DataGraph) (p : Pattern)
    (heur : option SoGraMiHeuristics) (allowed : option (list EdgeType))
    (path : list nat) (rm : nat) (emb : gmap nat nat) : list Raw :=
  let ancestors := removelast path in
  (match emb !! rm with
   | Some u_g =>
       flat_map (λ w_p,
         match emb !! w_p with
         | Some w_g => back_cands G p allowed rm u_g w_p w_g
         | None => []
         end) (reverse ancestors)
   | None => []
   end)
  ++
  flat_map (λ u_p,
    match emb !! u_p with
    | Some u_g => forward_cands G p emb heur allowed u_p u_g
    | None => []
    end) (match heur with Some _ => rm :: ancestors | None => path end).

(** Construct the candidates in turn and yield those whose key is not in
    [produced]; a candidate whose construction raises ends the generator. *)
Fixpoint emit (raws : list Raw) (produced : list CanonicalKey) : Gen Pattern :=
  match raws with
  | [] => mkGen [] false
  | (vl, es, d) :: rest =>
      match Pattern_init vl es d with
      | None => mkGen [] true
      | Some q =>
          if decide (p_key q ∈ produced) then emit rest produced
          else gen_cons q (emit rest (produced ++ [p_key q]))
      end
  end.

(** [CandidateGenerator.extensions(p, embeddings, heur, allowed_edge_types)].
    The embeddings map pattern nodes to nodes of [G], as those of
    [full_mni_embeddings] do. *)
Definition extensions (G : DataGraph) (p : Pattern)
    (embeddings : list (gmap nat nat)) (heur : option SoGraMiHeuristics)
    (allowed : option (list EdgeType)) : Gen Pattern :=
  match rmpath p with
  | None => mkGen [] true
  | Some path0 =>
      let path := match path0 with [] => seq 0 (num_nodes p) | _ => path0 end in
      match last path with
      | None => mkGen [] true
      | Some rm => emit (flat_map (emb_cands G p heur allowed path rm) embeddings) []
      end
  end.

(** ** miner.py *)

(** The outcome of a run: a result, an exception, or [fuel] exhausted. *)
Inductive outcome (A : Type) :=
| Ret (a : A)
| Raise
| OutOfFuel.
Arguments Ret {A} _.
Arguments Raise {A}.
Arguments OutOfFuel {A}.

(** A value of the result map. *)
Record MineRec := mkRec {
  r_pattern : Pattern;
  r_support : nat;
  r_full_support : nat;
  r_embeddings : list (gmap nat nat)
}.

(** The result map, a [dict] in insertion order. *)
Definition Results : Type := list (CanonicalKey * MineRec).

(** [results[k] = r]. *)
Fixpoint dict_set (k : CanonicalKey) (r : MineRec) (results : Results) : Results :=
  match results with
  | [] => [(k, r)]
  | (k', r') :: rest =>
      if decide (k' = k) then (k, r) :: rest else (k', r') :: dict_set k r rest
  end.

(** The final loop of a pass: keep the first pattern of every key. *)
Fixpoint dedup (qs : list Pattern) (seen : list CanonicalKey) : list Pattern :=
  match qs with
  | [] => []
  | q :: rest =>
      if decide (p_key q ∈ seen) then dedup rest seen
      else q :: dedup rest (seen ++ [p_key q])
  end.

(** [max_size is None or p.num_nodes() < max_size]. *)
Definition may_grow (max_size : option nat) (p : Pattern) : bool :=
  match max_size with
  | None => true
  | Some m => bool_decide (num_nodes p < m)
  end.

Section Miner.
Variable set_order : list nat → list nat.
Variable G : DataGraph.
Variable min_support : nat.
Variable max_size : option nat.
(** The arguments [heur] and [allowed_edge_types] the miner passes to
    [extensions]: both [None] for [SuGraMiMiner]. *)
Variable heur : option SoGraMiHeuristics.
Variable allowed : option (list EdgeType).

(** [for q in extensions(...): if q.key not in results:
    next_frontier.append(q)]; [results] does not change meanwhile. *)
Definition keep_new (results : Results) (qs : list Pattern) : list Pattern :=
  filter (λ q, p_key q ∉ results.*1) qs.

(** The body of [for p, embeddings in eval_results], on the state
    [(results, next_frontier)]; [None] when it raises. *)
Definition eval_step (st : Results * list Pattern) (p : Pattern)
  : option (Results * list Pattern) :=
  let '(results, next_frontier) := st in
  let embeddings := full_mni_embeddings G p in
  supp ← mni_support embeddings (num_nodes p);
  if decide (min_support ≤ supp) then
    let full_supp := full_support_count set_order G p None in
    let results' := dict_set (p_key p) (mkRec p supp full_supp embeddings) results in
    if may_grow max_size p then
      let g := extensions G p embeddings heur allowed in
      if raised g then None
      else Some (results', next_frontier ++ keep_new results' (yielded g))
    else Some (results', next_frontier)
  else Some st.

(** The [while frontier] loop, evaluated sequentially
    ([_evaluate_patterns] with [parallel=False]). *)
Fixpoint mine_loop (fuel : nat) (results : Results) (frontier : list Pattern)
  : outcome Results :=
  match frontier with
  | [] => Ret results
  | _ :: _ =>
      match fuel with
      | 0 => OutOfFuel
      | S fuel' =>
          match foldM eval_step (results, []) frontier with
          | None => Raise
          | Some (results', next_frontier) =>
              mine_loop fuel' results' (dedup next_frontier [])
          end
      end
  end.
End Miner.

(** [SuGraMiMiner(G, min_support).mine(parallel=False, max_size)]. *)
Definition SuGraMi_mine (set_order : list nat → list nat) (fuel : nat)
    (G : DataGraph) (min_support : nat) (max_size : option nat)
  : outcome Results :=
  match seed_patterns G with
  | None => Raise
  | Some frontier =>
      mine_loop set_order G min_support max_size None None fuel [] frontier
  end.

(** The seed of [SoPaGraMiMiner.mine] for one entry of [counts]. *)
Definition sopa_seed (kc : EdgeType * nat) : option (Pattern * nat) :=
  let '((lu, lv, el, dflag), c) := kc in
  p ← Pattern_init [lu; lv] [mkEdge 0 1 el] (bool_decide (dflag = 1));
  Some (p, c).

(** [SoPaGraMiMiner(G, min_support, use_sorting).mine(parallel=False,
    max_size)]. *)
Definition SoPaGraMi_mine (set_order : list nat → list nat) (fuel : nat)
    (G : DataGraph) (min_support : nat) (use_sorting : bool)
    (max_size : option nat) : outcome Results :=
  let heur := if use_sorting then Some (mkHeur G) else None in
  let counts := edge_type_counts G in
  let allowed := fst <$> filter (λ kc, min_support ≤ kc.2) counts in
  match mapM sopa_seed (filter (λ kc, kc.1 ∈ allowed) counts) with
  | None => Raise
  | Some seeds =>
      let seeds := stable_sort (λ pc1 pc2, bool_decide (pc2.2 ≤ pc1.2)) seeds in
      mine_loop set_order G min_support max_size heur (Some allowed) fuel []
                (fst <$> seeds)
  end.

(** ** miner.py: evaluation and materialization helpers *)

(** [sorted(set(emb.values()))]: the distinct values in ascending order,
    whatever the iteration order of the set. *)
Definition emb_nodes (emb : gmap nat nat) : list nat :=
  merge_sort (≤) (remove_dups (map_to_list emb).*2).

(** The body of [for v, lab in G.adj[u]] of the induced case, on the state
    [(seen, edges)]. *)
Definition induced_step (G : DataGraph) (nodes : list nat) (u : nat)
    (st : list (nat * nat * option string) * list Edge) (nb : Nbr)
  : list (nat * nat * option string) * list Edge :=
  let '(seen, edges) := st in
  let '(v, lab) := nb in
  if decide (v ∈ nodes) then
    if g_directed G then (seen, edges ++ [mkEdge u v lab])
    else
      let '(a, b) := if decide (u < v) then (u, v) else (v, u) in
      if decide ((a, b, lab) ∈ seen) then st
      else (set_add (a, b, lab) seen, edges ++ [mkEdge a b lab])
  else st.

(** [subgraph_from_embedding(G, p, emb, induced)]: IndexError when a
    selected node is not a node of [G] (induced), KeyError when an endpoint
    of a pattern edge is not mapped (not induced). *)
Definition subgraph_from_embedding (G : DataGraph) (p : Pattern)
    (emb : gmap nat nat) (induced : bool) : option (list nat * list Edge) :=
  let nodes := emb_nodes emb in
  if induced then
    st ← foldM (λ st u, row ← g_adj G !! u;
                        Some (foldl (induced_step G nodes u) st row))
               ([], []) nodes;
    Some (nodes, st.2)
  else
    edges ← mapM (λ e, u ← emb !! edge_u e;
                       v ← emb !! edge_v e;
                       Some (mkEdge u v (edge_label e))) (p_edges p);
    Some (nodes, edges).

(** [materialize_all_embeddings(G, p, embeddings, induced)]. *)
Definition materialize_all_embeddings (G : DataGraph) (p : Pattern)
    (embeddings : list (gmap nat nat)) (induced : bool)
  : option (list (list nat * list Edge)) :=
  mapM (λ emb, subgraph_from_embedding G p emb induced) embeddings.

(** The payload [(G.directed, G.vlabels, G.adj, G.rev)] sent to a worker. *)
Definition Payload : Type :=
  bool * list string * list (list Nbr) * list (list Nbr).

Definition payload_of (G : DataGraph) : Payload :=
  (g_directed G, g_vlabels G, g_adj G, g_rev G).

(** [_worker_embeddings(payload, p_vlabels, p_edges)]: the graph is built
    without edges and given the adjacency of the payload; [lab2nodes] is
    computed from the vertex labels again; the pattern is constructed with
    the directed flag of the graph. *)
Definition worker_embeddings (payload : Payload) (p_vlabels : list string)
    (p_edges : list Edge) : option (list (gmap nat nat)) :=
  let '(directed, vlabels, adj, rev) := payload in
  G0 ← DataGraph_init directed vlabels [];
  let G := mkDataGraph (g_directed G0) (g_vlabels G0) adj rev in
  p ← Pattern_init p_vlabels p_edges directed;
  Some (full_mni_embeddings G p).

Section Evaluate.
(** [as_completed] yields the futures in the order in which the workers
    finish, which the language does not fix: [completion_order] lists the
    submitted patterns in that order. *)
Variable completion_order : list Pattern → list Pattern.

(** [SuGraMiMiner._evaluate_patterns(patterns, parallel)] of a miner with
    graph [G] and [max_workers]. *)
Definition evaluate_patterns (G : DataGraph) (max_workers : nat)
    (patterns : list Pattern) (parallel : bool)
  : option (list (Pattern * list (gmap nat nat))) :=
  if negb parallel || bool_decide (max_workers ≤ 1)
     || bool_decide (length patterns = 1)
  then Some ((λ p, (p, full_mni_embeddings G p)) <$> patterns)
  else mapM (λ p, embeddings ← worker_embeddings (payload_of G)
                                  (p_vlabels p) (p_edges p);
                  Some (p, embeddings))
            (completion_order patterns).
End Evaluate.

(** * Properties *)

(** ** Concrete graphs and patterns used below *)

(** An undirected star: centre 3, leaves 0, 1, 2, all labelled A. *)
Definition star_graph : option DataGraph :=
  DataGraph_init false ["A"; "A"; "A"; "A"]
    [mkEdge 3 0 None; mkEdge 3 1 None; mkEdge 3 2 None].

(** The star with three leaves as a pattern, centre 0. *)
Definition star_pattern : option Pattern :=
  Pattern_init ["A"; "A"; "A"; "A"]
    [mkEdge 0 1 None; mkEdge 0 2 None; mkEdge 0 3 None] false.

(** An undirected path A - B - C. *)
Definition path_graph : option DataGraph :=
  DataGraph_init false ["A"; "B"; "C"] [mkEdge 0 1 None; mkEdge 1 2 None].

(** One node with an undirected self-loop. *)
Definition loop_graph : option DataGraph :=
  DataGraph_init false ["A"] [mkEdge 0 0 None].

(** An undirected triangle X, Y, Z (the demo of [test.py]). *)
Definition triangle_graph : option DataGraph :=
  DataGraph_init false ["X"; "Y"; "Z"]
    [mkEdge 0 1 None; mkEdge 1 2 None; mkEdge 2 0 None].

(** The values of the constructor calls above that are used as inputs. *)
Definition no_graph : DataGraph := mkDataGraph false [] [] [].
Definition no_pattern : Pattern := mkPattern false [] [] (false, []).
Definition path_G : DataGraph := default no_graph path_graph.
Definition triangle_G : DataGraph := default no_graph triangle_graph.
Definition ab_pattern : Pattern :=
  default no_pattern (Pattern_init ["A"; "B"] [mkEdge 0 1 None] false).
Definition xy_pattern : Pattern :=
  default no_pattern (Pattern_init ["X"; "Y"] [mkEdge 0 1 None] false).

(** The transposition of the pattern nodes 0 and 1. *)
Definition swap01 (i : nat) : nat :=
  match i with 0 => 1 | 1 => 0 | _ => i end.

(** A presentation renumbered by [σ]: the edges, and the labels of a
    two-node pattern. *)
Definition rename_edges (σ : nat → nat) (es : list Edge) : list Edge :=
  (λ e, mkEdge (σ (edge_u e)) (σ (edge_v e)) (edge_label e)) <$> es.

Definition rename_vlabels2 (σ : nat → nat) (vl : list string) : list string :=
  [default "" (vl !! σ 0); default "" (vl !! σ 1)].

(** C1 (fails on the code). The undirected one-edge pattern X - Y and its
    renumbering by the transposition of its two nodes get different
    canonical keys: the only seed of an undirected edge is its normalised
    orientation (smaller node id first), so the code starts at the node
    numbered 0 whatever its label. *)
Theorem canonical_key_depends_on_numbering :
  canonical_key ["X"; "Y"] [mkEdge 0 1 None] false
    = Some (false, [(0, 1, "X", "", "Y", 0)])
  ∧ canonical_key (rename_vlabels2 swap01 ["X"; "Y"])
                  (rename_edges swap01 [mkEdge 0 1 None]) false
    = Some (false, [(0, 1, "Y", "", "X", 0)]).
Proof. split; vm_compute; reflexivity. Qed.

(** C9 (counterexample). Two patterns that differ only in the label of
    their edge, absent in one and the empty string in the other, have the
    same canonical key: the code tuple stores [el or ""]. Two patterns of
    one node and no edge have the same key, the empty code, whatever the
    label of the node. *)
Theorem canonical_key_not_injective :
  canonical_key ["A"; "B"] [mkEdge 0 1 None] false
    = Some (false, [(0, 1, "A", "", "B", 0)])
  ∧ canonical_key ["A"; "B"] [mkEdge 0 1 (Some "")] false
    = Some (false, [(0, 1, "A", "", "B", 0)])
  ∧ mkEdge 0 1 None ≠ mkEdge 0 1 (Some "")
  ∧ canonical_key ["A"] [] false = Some (false, [])
  ∧ canonical_key ["B"] [] false = Some (false, [])
  ∧ ¬ ["A"] ≡ₚ ["B"].
Proof.
  repeat split; try (vm_compute; reflexivity); [discriminate|].
  intros H%Permutation_singleton_r. discriminate.
Qed.

(** C7 (fails on the code). An undirected self-loop is stored twice in the
    adjacency of its node and passes the guard [u > v] both times: it
    counts 2. *)
Theorem edge_type_counts_self_loop :
  edge_type_counts <$> loop_graph = Some [(("A", "A", None, 0), 2)].
Proof. vm_compute. reflexivity. Qed.

(** C2 (fails on the code). On the star with centre 3 and [min_support = 1],
    no size bound, the miner returns two patterns, the edge and the path on
    three nodes; the star pattern on four nodes, whose MNI support is 1, is
    not in the result under its key, and no pattern on four nodes is. *)
Theorem mine_misses_star :
  ∃ G p results,
    star_graph = Some G
    ∧ star_pattern = Some p
    ∧ mni_support (full_mni_embeddings G p) (num_nodes p) = Some 1
    ∧ SuGraMi_mine (λ l, l) 10 G 1 None = Ret results
    ∧ (p_key p ∉ results.*1)
    ∧ Forall (λ kr, num_nodes (r_pattern kr.2) < 4) results.
Proof.
  eexists _, _, _.
  split; [vm_compute; reflexivity|].
  split; [vm_compute; reflexivity|].
  split; [vm_compute; reflexivity|].
  split; [vm_compute; reflexivity|].
  split; apply (bool_decide_unpack _); vm_compute; exact I.
Qed.

(** ** mni_support *)

(** C10. On an empty list of embeddings [mni_support] returns 0 for every
    [k >= 1]: the [k] image sets stay empty and the minimum of their sizes
    is 0; nothing raises. *)
Theorem mni_support_empty (k : nat) (Hk : 1 ≤ k) : mni_support [] k = Some 0.
Proof.
  unfold mni_support. rewrite decide_False by lia.
  cbn [foldM mbind option_bind].
  rewrite fmap_replicate, size_empty.
  destruct k as [|k']; [lia|]. cbn [replicate]. f_equal.
  clear Hk. induction k' as [|k' IH]; [reflexivity|exact IH].
Qed.

Lemma mni_support_empty_witness : 1 ≤ 3 ∧ mni_support [] 3 = Some 0.
Proof. split; [lia | apply (mni_support_empty 3); lia]. Defined.

(** ** full_support_count against full_mni_embeddings *)

(** Membership in a [flat_map]. *)
Lemma elem_of_flat_map {A B} (f : A → list B) (l : list A) (y : B) :
  y ∈ flat_map f l ↔ ∃ x, x ∈ l ∧ y ∈ f x.
Proof.
  rewrite list_elem_of_In, in_flat_map.
  split; intros (x & H1 & H2); exists x; by rewrite ?list_elem_of_In in *.
Qed.

Lemma length_flat_map_sum {A B} (f : A → list B) (l : list A) :
  length (flat_map f l) = sum_list_with (λ x, length (f x)) l.
Proof.
  induction l as [|x l IH]; [reflexivity|].
  cbn [flat_map sum_list_with]. rewrite length_app, IH. reflexivity.
Qed.

Lemma forallb_ext_elem {A} (f g : A → bool) (l : list A) :
  (∀ x, x ∈ l → f x = g x) → forallb f l = forallb g l.
Proof.
  induction l as [|x l IH]; intros H; [reflexivity|]. cbn [forallb].
  rewrite (H x) by apply list_elem_of_here.
  rewrite IH; [reflexivity|]. intros y Hy. apply H. by apply list_elem_of_further.
Qed.

Lemma nbrs_tag p u v l d : (v, l, d) ∈ nbrs p u → d = 1 ∨ d = 2.
Proof.
  unfold nbrs. rewrite elem_of_flat_map.
  intros (e & _ & [Hin|Hin]%elem_of_app).
  - destruct (decide (edge_u e = u)); [|by apply elem_of_nil in Hin].
    apply list_elem_of_singleton in Hin. left. congruence.
  - destruct (decide (edge_v e = u)); [|by apply elem_of_nil in Hin].
    apply list_elem_of_singleton in Hin.
    destruct (p_directed p); [right|left]; congruence.
Qed.

(** The two copies of [consistent] agree: a tag is 1 or 2. *)
Lemma consistent_count_eq G p a u_p u_g :
  consistent_count G p a u_p u_g = consistent G p a u_p u_g.
Proof.
  unfold consistent_count, consistent.
  destruct (decide _); [reflexivity|].
  apply forallb_ext_elem. intros [[v l] d] Hin%nbrs_tag.
  destruct (a !! v); [|reflexivity].
  destruct Hin as [-> | ->]; reflexivity.
Qed.

Section CountVersusList.
Variable set_order : list nat → list nat.
Hypothesis set_order_perm : ∀ l, set_order l ≡ₚ l.

(** Without a cap, a call of [backtrack] of [full_support_count] adds to
    [count] the number of solutions the same call of [backtrack] of
    [full_mni_embeddings] appends. *)
Lemma backtrack_count_length G p rest :
  ∀ assignment count,
    backtrack_count set_order G p None rest assignment count
    = count + length (backtrack G p rest assignment).
Proof.
  induction rest as [|u_p rest IH]; intros a c; cbn [backtrack_count backtrack cap_reached].
  - cbn. lia.
  - rewrite length_flat_map_sum.
    match goal with |- _ = _ + sum_list_with ?g _ =>
      assert (Hs : sum_list_with g (domain G p u_p)
                   = sum_list_with g (set_order (domain G p u_p)))
        by (by rewrite set_order_perm)
    end.
    rewrite Hs. clear Hs.
    generalize (set_order (domain G p u_p)). intros l. revert c.
    induction l as [|u_g l IHl]; intros c; cbn [foldl sum_list_with].
    + lia.
    + rewrite IHl, consistent_count_eq.
      destruct (in_values u_g a); [cbn; lia|].
      destruct (consistent G p a u_p u_g); [|cbn; lia].
      rewrite IH. lia.
Qed.
End CountVersusList.

(** C4. Whatever the order in which the domains (Python sets) are
    iterated, [full_support_count(p)] without a cap equals the number of
    embeddings [full_mni_embeddings(p)] returns. *)
Theorem full_support_count_is_length (set_order : list nat → list nat)
    (Hperm : ∀ l, set_order l ≡ₚ l) (G : DataGraph) (p : Pattern) :
  full_support_count set_order G p None = length (full_mni_embeddings G p).
Proof.
  unfold full_support_count, full_mni_embeddings.
  by rewrite backtrack_count_length.
Qed.

Lemma full_support_count_is_length_witness :
  (∀ l : list nat, (λ l, l) l ≡ₚ l)
  ∧ full_support_count (λ l, l) path_G ab_pattern None
    = length (full_mni_embeddings path_G ab_pattern).
Proof.
  split; [reflexivity|].
  apply (full_support_count_is_length (λ l, l)). reflexivity.
Defined.

(** ** The adjacency built by DataGraph.__init__ *)

Lemma append_at_Some {A} (i : nat) (x : A) rows rows' :
  append_at i x rows = Some rows' →
  i < length rows ∧ length rows' = length rows
  ∧ ∀ u, default [] (rows' !! u)
         = default [] (rows !! u) ++ (if decide (u = i) then [x] else []).
Proof.
  unfold append_at. destruct (decide (i < length rows)) as [Hi|]; [|discriminate].
  intros [= <-]. split; [exact Hi|]. split; [apply length_alter|].
  intros u. destruct (decide (u = i)) as [->|Hne].
  - rewrite list_lookup_alter_eq.
    destruct (lookup_lt_is_Some_2 rows i Hi) as [r ->]. reflexivity.
  - rewrite list_lookup_alter_ne by congruence. by rewrite app_nil_r.
Qed.

(** The entry an edge [e] contributes to [adj[u]], as a proposition. *)
Definition adj_entry (directed : bool) (e : Edge) (u : nat) (nb : Nbr) : Prop :=
  nb.2 = edge_label e
  ∧ ((edge_u e = u ∧ edge_v e = nb.1)
     ∨ (directed = false ∧ edge_v e = u ∧ edge_u e = nb.1)).

(** The entry an edge [e] contributes to [rev[u]]. *)
Definition rev_entry (directed : bool) (e : Edge) (u : nat) (nb : Nbr) : Prop :=
  nb.2 = edge_label e
  ∧ ((edge_v e = u ∧ edge_u e = nb.1)
     ∨ (directed = false ∧ edge_u e = u ∧ edge_v e = nb.1)).

Lemma elem_of_if_singleton {A} (P : Prop) `{Decision P} (x y : A) :
  y ∈ (if decide P then [x] else []) ↔ P ∧ y = x.
Proof.
  destruct (decide P).
  - rewrite list_elem_of_singleton. tauto.
  - rewrite elem_of_nil. tauto.
Qed.

Lemma init_step_Some d adj0 rev0 e adj1 rev1 :
  length rev0 = length adj0 →
  init_step d (adj0, rev0) e = Some (adj1, rev1) →
  length adj1 = length adj0 ∧ length rev1 = length adj0
  ∧ edge_u e < length adj0 ∧ edge_v e < length adj0
  ∧ (∀ u nb, nb ∈ default [] (adj1 !! u)
             ↔ nb ∈ default [] (adj0 !! u) ∨ adj_entry d e u nb)
  ∧ (∀ u nb, nb ∈ default [] (rev1 !! u)
             ↔ nb ∈ default [] (rev0 !! u) ∨ rev_entry d e u nb).
Proof.
  intros Hlen. unfold init_step, adj_entry, rev_entry, Nbr in *.
  destruct (append_at (edge_u e) (edge_v e, edge_label e) adj0) as [a1|] eqn:Ha1;
    [|discriminate].
  destruct (append_at (edge_v e) (edge_u e, edge_label e) rev0) as [r1|] eqn:Hr1;
    [|discriminate].
  apply append_at_Some in Ha1 as (Hu & Hla1 & Ha1).
  apply append_at_Some in Hr1 as (Hv & Hlr1 & Hr1).
  cbn [mbind option_bind].
  destruct d.
  - intros [= <- <-]. split; [lia|]. split; [lia|]. split; [lia|]. split; [lia|].
    split; intros u [w l]; [rewrite Ha1|rewrite Hr1];
      rewrite elem_of_app, elem_of_if_singleton; cbn;
      intuition (subst; cbn in *; auto; congruence).
  - destruct (append_at (edge_v e) (edge_u e, edge_label e) a1) as [a2|] eqn:Ha2;
      [|discriminate].
    destruct (append_at (edge_u e) (edge_v e, edge_label e) r1) as [r2|] eqn:Hr2;
      [|discriminate].
    apply append_at_Some in Ha2 as (_ & Hla2 & Ha2).
    apply append_at_Some in Hr2 as (_ & Hlr2 & Hr2).
    cbn [mbind option_bind]. intros [= <- <-].
    split; [lia|]. split; [lia|]. split; [lia|]. split; [lia|].
    split; intros u [w l]; [rewrite Ha2, Ha1|rewrite Hr2, Hr1];
      rewrite !elem_of_app, !elem_of_if_singleton; cbn;
      intuition (subst; cbn in *; auto; congruence).
Qed.

Lemma init_loop_Some d es : ∀ adj0 rev0 adj1 rev1,
  length rev0 = length adj0 →
  init_loop d (adj0, rev0) es = Some (adj1, rev1) →
  length adj1 = length adj0 ∧ length rev1 = length adj0
  ∧ (∀ e, e ∈ es → edge_u e < length adj0 ∧ edge_v e < length adj0)
  ∧ (∀ u nb, nb ∈ default [] (adj1 !! u)
             ↔ nb ∈ default [] (adj0 !! u) ∨ ∃ e, e ∈ es ∧ adj_entry d e u nb)
  ∧ (∀ u nb, nb ∈ default [] (rev1 !! u)
             ↔ nb ∈ default [] (rev0 !! u) ∨ ∃ e, e ∈ es ∧ rev_entry d e u nb).
Proof.
  induction es as [|e es IH]; intros adj0 rev0 adj1 rev1 Hlen; cbn [init_loop].
  - intros [= <- <-]. split; [done|]. split; [done|].
    split; [by intros e ?%elem_of_nil|].
    split; intros u nb; (split; [by left|]);
      (intros [?|(e & ?%elem_of_nil & _)]; done).
  - destruct (init_step d (adj0, rev0) e) as [[a r]|] eqn:Hstep; [|discriminate].
    cbn [mbind option_bind]. intros Hloop.
    apply init_step_Some in Hstep as (Hla & Hlr & Hu & Hv & Ha & Hr); [|exact Hlen].
    apply IH in Hloop as (Hla' & Hlr' & Hrange & Ha' & Hr'); [|congruence].
    rewrite Hla in *. split; [done|]. split; [done|]. split.
    { intros e' [->|H]%elem_of_cons; [done|]. by apply Hrange. }
    split; intros u nb; [rewrite Ha', Ha|rewrite Hr', Hr].
    + split.
      * intros [[?|?]|(e' & ? & ?)]; [by left|right..].
        -- exists e. split; [apply list_elem_of_here|done].
        -- exists e'. split; [by apply list_elem_of_further|done].
      * intros [?|(e' & [->|?]%elem_of_cons & ?)];
          [by left; left|by left; right|right; by exists e'].
    + split.
      * intros [[?|?]|(e' & ? & ?)]; [by left|right..].
        -- exists e. split; [apply list_elem_of_here|done].
        -- exists e'. split; [by apply list_elem_of_further|done].
      * intros [?|(e' & [->|?]%elem_of_cons & ?)];
          [by left; left|by left; right|right; by exists e'].
Qed.

Section DataGraphFacts.
Variables (directed : bool) (vlabels : list string) (edges : list Edge).
Variable G : DataGraph.
Hypothesis G_init : DataGraph_init directed vlabels edges = Some G.

Lemma init_fields : g_directed G = directed ∧ g_vlabels G = vlabels.
Proof.
  revert G_init. unfold DataGraph_init.
  destruct (init_loop _ _ _) as [[a r]|]; [|discriminate].
  cbn. by intros [= <-].
Qed.

(** Membership in [adj[u]] and in [rev[u]]. *)
Lemma elem_of_adj u nb :
  nb ∈ adj G u ↔ ∃ e, e ∈ edges ∧ adj_entry directed e u nb.
Proof.
  revert G_init. unfold DataGraph_init, adj.
  destruct (init_loop _ _ _) as [[a r]|] eqn:Hloop; [|discriminate].
  cbn. intros [= <-]. cbn.
  apply init_loop_Some in Hloop as (_ & _ & _ & Ha & _);
    [|by rewrite !length_replicate].
  rewrite Ha. split; [|by right].
  intros [H|H]; [|done]. exfalso.
  destruct (replicate _ _ !! u) as [l|] eqn:Hl; cbn in H.
  - apply lookup_replicate in Hl as [-> _]. by apply elem_of_nil in H.
  - by apply elem_of_nil in H.
Qed.

Lemma elem_of_rev u nb :
  nb ∈ rev G u ↔ ∃ e, e ∈ edges ∧ rev_entry directed e u nb.
Proof.
  revert G_init. unfold DataGraph_init, rev.
  destruct (init_loop _ _ _) as [[a r]|] eqn:Hloop; [|discriminate].
  cbn. intros [= <-]. cbn.
  apply init_loop_Some in Hloop as (_ & _ & _ & _ & Hr);
    [|by rewrite !length_replicate].
  rewrite Hr. split; [|by right].
  intros [H|H]; [|done]. exfalso.
  destruct (replicate _ _ !! u) as [l|] eqn:Hl; cbn in H.
  - apply lookup_replicate in Hl as [-> _]. by apply elem_of_nil in H.
  - by apply elem_of_nil in H.
Qed.

(** Every edge the constructor accepted joins two nodes of the graph. *)
Lemma edges_in_range e :
  e ∈ edges → edge_u e < length vlabels ∧ edge_v e < length vlabels.
Proof.
  revert G_init. unfold DataGraph_init.
  destruct (init_loop _ _ _) as [[a r]|] eqn:Hloop; [|discriminate].
  intros _.
  apply init_loop_Some in Hloop as (_ & _ & Hrange & _);
    [|by rewrite !length_replicate].
  rewrite length_replicate in Hrange. apply Hrange.
Qed.

(** [has_edge] in terms of the edges given to the constructor. *)
Lemma has_edge_spec u v label :
  has_edge G u v label = true
  ↔ ∃ e, e ∈ edges ∧ label_matches label (edge_label e) = true
         ∧ ((edge_u e = u ∧ edge_v e = v)
            ∨ (directed = false ∧ edge_v e = u ∧ edge_u e = v)).
Proof.
  unfold has_edge. rewrite existsb_exists. split.
  - intros ([w lab] & Hin & Hb). apply andb_prop in Hb as [Hw Hm].
    apply bool_decide_eq_true in Hw as ->.
    apply list_elem_of_In, elem_of_adj in Hin as (e & He & Hl & Hc).
    cbn in *. subst lab. exists e. split; [done|]. split; [done|].
    destruct Hc as [[? ?]|(? & ? & ?)]; [left|right]; done.
  - intros (e & He & Hm & Hc). exists (v, edge_label e). split.
    + apply list_elem_of_In, elem_of_adj. exists e. split; [done|].
      split; [done|]. cbn. destruct Hc as [[? ?]|(? & ? & ?)]; [left|right]; done.
    + apply andb_true_intro. split; [by apply bool_decide_eq_true|done].
Qed.

(** Invariant G1 for [has_edge]: an undirected graph is symmetric. *)
Lemma has_edge_sym u v label :
  directed = false → has_edge G u v label = has_edge G v u label.
Proof.
  intros Hd. apply eq_true_iff_eq. rewrite !has_edge_spec.
  split; intros (e & He & Hm & Hc); exists e; (split; [done|]); (split; [done|]);
    destruct Hc as [[? ?]|(? & ? & ?)]; [right|left|right|left]; done.
Qed.
End DataGraphFacts.

(** ** What full_mni_embeddings enumerates *)

Lemma in_values_spec (x : nat) (a : gmap nat nat) :
  in_values x a = true ↔ ∃ k, a !! k = Some x.
Proof.
  unfold in_values. rewrite bool_decide_eq_true, list_elem_of_fmap. split.
  - intros ([k y] & -> & Hin%elem_of_map_to_list). by exists k.
  - intros (k & Hk). exists (k, x). split; [done|]. by apply elem_of_map_to_list.
Qed.

Lemma elem_of_domain G p i x :
  x ∈ domain G p i
  ↔ x < length (g_vlabels G) ∧ vlabel G x = default "" (p_vlabels p !! i).
Proof.
  unfold domain, lab2nodes. rewrite list_elem_of_filter, elem_of_seq.
  split; intros [? ?]; split; (done || lia).
Qed.

(** The constraint a pattern edge puts on a (partial) assignment: once both
    endpoints, two different pattern nodes, are mapped, the graph has the
    edge between their images, in the direction of the pattern edge. *)
Definition edge_holds (G : DataGraph) (a : gmap nat nat) (e : Edge) : Prop :=
  ∀ x y, a !! edge_u e = Some x → a !! edge_v e = Some y →
         edge_u e ≠ edge_v e → has_edge G x y (edge_label e) = true.

(** A partial embedding: labels agree, no graph node is used twice, the
    constraints of all pattern edges hold. *)
Definition partial_emb (G : DataGraph) (p : Pattern) (a : gmap nat nat) : Prop :=
  (∀ i x, a !! i = Some x → x ∈ domain G p i)
  ∧ (∀ i j x, a !! i = Some x → a !! j = Some x → i = j)
  ∧ (∀ e, e ∈ p_edges p → edge_holds G a e).

(** An embedding of [p]: a partial embedding defined exactly on the nodes
    of [p]. *)
Definition is_embedding (G : DataGraph) (p : Pattern) (emb : gmap nat nat) : Prop :=
  partial_emb G p emb ∧ ∀ i, is_Some (emb !! i) ↔ i < num_nodes p.

(** The check of an undirected pattern edge is made from the endpoint that
    is assigned last; it means the same in both directions when the
    pattern is directed or the graph is symmetric. *)
Definition sym_ok (G : DataGraph) (p : Pattern) : Prop :=
  p_directed p = true ∨ ∀ u v l, has_edge G u v l = has_edge G v u l.

Lemma elem_of_nbrs p u v l d :
  (v, l, d) ∈ nbrs p u
  ↔ ∃ e, e ∈ p_edges p ∧ l = edge_label e
         ∧ ((edge_u e = u ∧ v = edge_v e ∧ d = 1)
            ∨ (edge_v e = u ∧ v = edge_u e
               ∧ d = if p_directed p then 2 else 1)).
Proof.
  unfold nbrs. rewrite elem_of_flat_map. split.
  - intros (e & He & Hin). exists e. split; [done|].
    rewrite elem_of_app, !elem_of_if_singleton in Hin.
    destruct Hin as [[? [= -> -> ->]]|[? [= -> -> ->]]]; split; auto.
  - intros (e & He & -> & Hc). exists e. split; [done|].
    rewrite elem_of_app, !elem_of_if_singleton.
    destruct Hc as [(? & -> & ->)|(? & -> & ->)]; [left|right]; done.
Qed.

(** What [consistent] decides, for a pattern node not yet assigned. *)
Lemma consistent_spec G p a u_p u_g :
  sym_ok G p → a !! u_p = None →
  consistent G p a u_p u_g = true
  ↔ vlabel G u_g = default "" (p_vlabels p !! u_p)
    ∧ ∀ e, e ∈ p_edges p → edge_holds G (<[u_p := u_g]> a) e
                           ∨ ¬ (edge_u e = u_p ∨ edge_v e = u_p).
Proof.
  intros Hsym Hnone. unfold consistent.
  destruct (decide _) as [Hne|Heq%dec_stable].
  { split; [discriminate|]. intros [Hl _]. congruence. }
  rewrite forallb_forall. split.
  - intros Hall. split; [done|]. intros e He.
    destruct (decide (edge_u e = u_p ∨ edge_v e = u_p)) as [Hinc|]; [left|by right].
    intros x y Hx Hy Hloop.
    destruct (decide (edge_u e = u_p)) as [Hu|Hu].
    + rewrite Hu, lookup_insert_eq in Hx. injection Hx as <-.
      rewrite lookup_insert_ne in Hy by congruence.
      specialize (Hall (edge_v e, edge_label e, 1)).
      cbn in Hall. rewrite Hy in Hall. apply Hall.
      apply list_elem_of_In, elem_of_nbrs. exists e. split; [done|]. split; [done|].
      by left.
    + destruct Hinc as [?|Hv]; [done|].
      rewrite Hv, lookup_insert_eq in Hy. injection Hy as <-.
      rewrite lookup_insert_ne in Hx by congruence.
      specialize (Hall (edge_u e, edge_label e, if p_directed p then 2 else 1)).
      cbn in Hall. rewrite Hx in Hall.
      assert (Hin : In (edge_u e, edge_label e, if p_directed p then 2 else 1)
                       (nbrs p u_p)).
      { apply list_elem_of_In, elem_of_nbrs. exists e. split; [done|].
        split; [done|]. by right. }
      specialize (Hall Hin). destruct Hsym as [Hd|Hs].
      * rewrite Hd in Hall. exact Hall.
      * destruct (p_directed p); cbn in Hall; [exact Hall|]. by rewrite Hs.
  - intros [_ Hall] [[v l] d] Hin%list_elem_of_In%elem_of_nbrs.
    destruct Hin as (e & He & -> & Hc).
    destruct (a !! v) as [v_g|] eqn:Hv; [|done].
    assert (v ≠ u_p) as Hvne by congruence.
    destruct (Hall e He) as [Hh|Hn]; [|destruct Hc as [(? & _)|(? & _)]; tauto].
    destruct Hc as [(Hu & -> & ->)|(Hu & -> & ->)].
    + cbn. apply Hh; [by rewrite Hu, lookup_insert_eq| |congruence].
      by rewrite lookup_insert_ne by congruence.
    + assert (Hh' : has_edge G v_g u_g (edge_label e) = true).
      { apply Hh; [by rewrite lookup_insert_ne by congruence| |congruence].
        by rewrite Hu, lookup_insert_eq. }
      destruct Hsym as [Hd|Hs].
      * rewrite Hd. exact Hh'.
      * destruct (p_directed p); cbn; [exact Hh'|]. by rewrite Hs.
Qed.

Lemma partial_emb_insert G p a u_p u_g :
  sym_ok G p → partial_emb G p a → a !! u_p = None →
  u_g ∈ domain G p u_p → in_values u_g a = false →
  consistent G p a u_p u_g = true →
  partial_emb G p (<[u_p := u_g]> a).
Proof.
  intros Hsym (Hlab & Hinj & Hedges) Hnone Hdom Hfresh Hcons.
  assert (Hnot : ∀ k, a !! k ≠ Some u_g).
  { intros k Hk. assert (in_values u_g a = true) by (apply in_values_spec; eauto).
    congruence. }
  apply consistent_spec in Hcons as [_ Hcons]; [|done..].
  split; [|split].
  - intros i x [[<- <-]|[? ?]]%lookup_insert_Some; [done|by apply Hlab].
  - intros i j x [[<- <-]|[? Hi]]%lookup_insert_Some
                 [[<- Hx]|[? Hj]]%lookup_insert_Some; subst; try done.
    + by destruct (Hnot j).
    + by destruct (Hnot i).
    + by eapply Hinj.
  - intros e He. destruct (Hcons e He) as [?|Hn]; [done|].
    intros x y Hx Hy. rewrite lookup_insert_ne in Hx by (intros ->; tauto).
    rewrite lookup_insert_ne in Hy by (intros ->; tauto). by apply Hedges.
Qed.

Section Backtrack.
Variables (G : DataGraph) (p : Pattern).
Hypothesis Hsym : sym_ok G p.

(** Soundness: a solution extends the assignment it was started from to
    the remaining nodes and is a partial embedding. *)
Lemma backtrack_sound rest : ∀ a emb,
  NoDup rest → (∀ i, i ∈ rest → a !! i = None) → partial_emb G p a →
  emb ∈ backtrack G p rest a →
  partial_emb G p emb
  ∧ ∀ i, is_Some (emb !! i) ↔ is_Some (a !! i) ∨ i ∈ rest.
Proof.
  induction rest as [|u_p rest IH]; intros a emb Hnd Hfree Hpe; cbn [backtrack].
  - intros ->%list_elem_of_singleton. split; [done|].
    intros i. rewrite elem_of_nil. tauto.
  - rewrite elem_of_flat_map. intros (u_g & Hdom & Hin).
    destruct (in_values u_g a) eqn:Hval; [by apply elem_of_nil in Hin|].
    destruct (consistent G p a u_p u_g) eqn:Hcons; [|by apply elem_of_nil in Hin].
    apply NoDup_cons in Hnd as [Hnotin Hnd].
    assert (a !! u_p = None) as Hnone by (apply Hfree; apply list_elem_of_here).
    apply IH in Hin as [Hpe' Hdom']; [|done| |by apply partial_emb_insert].
    + split; [done|]. intros i. rewrite Hdom', elem_of_cons.
      destruct (decide (i = u_p)) as [->|Hne].
      * rewrite lookup_insert_eq. split; [by right; left|]. intros _. left; eauto.
      * rewrite lookup_insert_ne by done. tauto.
    + intros i Hi. rewrite lookup_insert_ne by (intros ->; done).
      apply Hfree. by apply list_elem_of_further.
Qed.

(** Completeness: every partial embedding that extends the current
    assignment exactly to the remaining nodes is found. *)
Lemma backtrack_complete emb : partial_emb G p emb →
  ∀ rest a,
    NoDup rest → a ⊆ emb →
    (∀ i, i ∈ rest → a !! i = None) →
    (∀ i, is_Some (emb !! i) ↔ is_Some (a !! i) ∨ i ∈ rest) →
    emb ∈ backtrack G p rest a.
Proof.
  intros (Hlab & Hinj & Hedges).
  induction rest as [|u_p rest IH]; intros a Hnd Hsub Hfree Hdom; cbn [backtrack].
  - apply list_elem_of_singleton. apply map_eq. intros i.
    destruct (a !! i) as [x|] eqn:Hi.
    + by apply (lookup_weaken _ _ _ _ Hi).
    + destruct (emb !! i) as [y|] eqn:Hy; [|done].
      assert (is_Some (a !! i) ∨ i ∈ []) as [[? ?]|?%elem_of_nil]; try done.
      * apply Hdom. eauto.
      * congruence.
  - apply NoDup_cons in Hnd as [Hnotin Hnd].
    assert (a !! u_p = None) as Hnone by (apply Hfree; apply list_elem_of_here).
    destruct (proj2 (Hdom u_p)) as [u_g Hu]; [right; apply list_elem_of_here|].
    apply elem_of_flat_map. exists u_g. split; [by apply Hlab|].
    assert (Hval : in_values u_g a = false).
    { apply not_true_is_false. intros [k Hk]%in_values_spec.
      assert (emb !! k = Some u_g) by by apply (lookup_weaken _ _ _ _ Hk).
      assert (k = u_p) by by eapply Hinj. congruence. }
    rewrite Hval.
    assert (Hsub' : <[u_p := u_g]> a ⊆ emb).
    { apply insert_subseteq_l; done. }
    assert (Hcons : consistent G p a u_p u_g = true).
    { apply consistent_spec; [done..|]. split.
      - by apply elem_of_domain, Hlab.
      - intros e He. left. intros x y Hx Hy.
        apply Hedges; [done|..]; by eapply lookup_weaken. }
    rewrite Hcons. apply IH; [done..| |].
    + intros i Hi. rewrite lookup_insert_ne by (intros ->; done).
      apply Hfree. by apply list_elem_of_further.
    + intros i. rewrite Hdom, elem_of_cons.
      destruct (decide (i = u_p)) as [->|Hne].
      * rewrite lookup_insert_eq. split; [intros _; left; eauto|]. by right; left.
      * rewrite lookup_insert_ne by done. tauto.
Qed.

Lemma assignment_order_perm : assignment_order G p ≡ₚ seq 0 (num_nodes p).
Proof. apply merge_sort_Permutation. Qed.

Lemma partial_emb_empty : partial_emb G p ∅.
Proof.
  split; [|split].
  - intros i x. by rewrite lookup_empty.
  - intros i j x. by rewrite lookup_empty.
  - intros e _ x y. by rewrite lookup_empty.
Qed.

(** [full_mni_embeddings(p)] lists exactly the embeddings of [p]. *)
Lemma full_mni_embeddings_spec emb :
  emb ∈ full_mni_embeddings G p ↔ is_embedding G p emb.
Proof.
  unfold full_mni_embeddings, is_embedding.
  assert (Hnd : NoDup (assignment_order G p)).
  { rewrite assignment_order_perm. apply NoDup_seq. }
  assert (Hmem : ∀ i, i ∈ assignment_order G p ↔ i < num_nodes p).
  { intros i. rewrite assignment_order_perm, elem_of_seq. lia. }
  split.
  - intros Hin. apply backtrack_sound in Hin as [Hpe Hdom];
      [|done|intros; apply lookup_empty|apply partial_emb_empty].
    split; [done|]. intros i. rewrite Hdom, Hmem, lookup_empty.
    split; [intros [[? ?]|?]; done|by right].
  - intros [Hpe Hdom]. apply backtrack_complete; [done..| | |].
    + apply map_empty_subseteq.
    + intros; apply lookup_empty.
    + intros i. rewrite Hdom, Hmem, lookup_empty.
      split; [by right|intros [[? ?]|?]; done].
Qed.
End Backtrack.

(** ** What Pattern.__init__ accepts *)

Lemma helper_loop_in_range d es : ∀ padj0 keys0 padj1 keys1,
  helper_loop d (padj0, keys0) es = Some (padj1, keys1) →
  length padj1 = length padj0
  ∧ ∀ e, e ∈ es → edge_u e < length padj0 ∧ edge_v e < length padj0.
Proof.
  induction es as [|e es IH]; intros padj0 keys0 padj1 keys1; cbn [helper_loop].
  - intros [= <- <-]. split; [done|]. by intros e ?%elem_of_nil.
  - destruct (helper_step d (padj0, keys0) e) as [[pa ks]|] eqn:Hstep;
      [|discriminate].
    cbn [mbind option_bind]. intros (Hlen & Hrange)%IH.
    assert (length pa = length padj0
            ∧ edge_u e < length padj0 ∧ edge_v e < length padj0) as (Hl & Hu & Hv).
    { revert Hstep. unfold helper_step. destruct d.
      - destruct (append_at (edge_u e) (edge_v e, edge_label e, 1) padj0)
          as [p1|] eqn:H1; [|discriminate]. cbn [mbind option_bind].
        destruct (append_at (edge_v e) (edge_u e, edge_label e, 2) p1)
          as [p2|] eqn:H2; [|discriminate]. cbn [mbind option_bind].
        apply append_at_Some in H1 as (? & ? & _).
        apply append_at_Some in H2 as (? & ? & _).
        intros [= <- _]. unfold PNbr in *. lia.
      - destruct (append_at (edge_u e) (edge_v e, edge_label e, 0) padj0)
          as [p1|] eqn:H1; [|discriminate]. cbn [mbind option_bind].
        destruct (append_at (edge_v e) (edge_u e, edge_label e, 0) p1)
          as [p2|] eqn:H2; [|discriminate]. cbn [mbind option_bind].
        apply append_at_Some in H1 as (? & ? & _).
        apply append_at_Some in H2 as (? & ? & _).
        destruct (norm_pair _ _). intros [= <- _]. unfold PNbr in *. lia. }
    rewrite Hl in *. split; [done|].
    intros e' [->|?]%elem_of_cons; [done|by apply Hrange].
Qed.

(** The canonicalizer raises IndexError on an edge that leaves the
    pattern. *)
Lemma canonical_key_in_range vlabels edges directed k :
  canonical_key vlabels edges directed = Some k →
  ∀ e, e ∈ edges → edge_u e < length vlabels ∧ edge_v e < length vlabels.
Proof.
  unfold canonical_key, helper_init.
  destruct (helper_loop _ _ _) as [[pa ks]|] eqn:Hloop; [|discriminate].
  intros _. apply helper_loop_in_range in Hloop as [_ Hrange].
  by rewrite length_replicate in Hrange.
Qed.

(** A constructed pattern has the fields it was given, and its edges join
    nodes of the pattern (invariant P1). *)
Lemma Pattern_init_Some vlabels edges directed p :
  Pattern_init vlabels edges directed = Some p →
  p_vlabels p = vlabels ∧ p_edges p = edges ∧ p_directed p = directed
  ∧ ∀ e, e ∈ edges → edge_u e < length vlabels ∧ edge_v e < length vlabels.
Proof.
  unfold Pattern_init.
  destruct (canonical_key _ _ _) as [k|] eqn:Hk; [|discriminate].
  cbn [mbind option_bind]. intros [= <-]. cbn.
  split; [done|]. split; [done|]. split; [done|].
  by eapply canonical_key_in_range.
Qed.

(** ** Validity of the reported embeddings *)

(** A directed graph with the single edge B -> A (node 1 to node 0). *)
Definition ba_graph : option DataGraph :=
  DataGraph_init true ["A"; "B"] [mkEdge 1 0 None].

(** A graph with one node and no edge. *)
Definition point_graph : option DataGraph := DataGraph_init false ["A"] [].

(** C3 as stated fails in two situations.  An undirected pattern edge
    A - B is embedded into a directed graph whose only edge is B -> A, with
    [has_edge] false from the image of A to the image of B; and a pattern
    with a self-loop is embedded into a graph without any edge (the loop is
    looked up in [assignment] before its node is assigned). *)
Lemma embedding_not_edge_preserving :
  (∃ G p emb,
     ba_graph = Some G
     ∧ Pattern_init ["A"; "B"] [mkEdge 0 1 None] false = Some p
     ∧ emb ∈ full_mni_embeddings G p
     ∧ emb !! 0 = Some 0 ∧ emb !! 1 = Some 1
     ∧ has_edge G 0 1 None = false)
  ∧ (∃ G p emb,
       point_graph = Some G
       ∧ Pattern_init ["A"] [mkEdge 0 0 None] false = Some p
       ∧ emb ∈ full_mni_embeddings G p
       ∧ emb !! 0 = Some 0
       ∧ has_edge G 0 0 None = false).
Proof.
  split.
  - eexists _, _, {[0 := 0; 1 := 1]}.
    split; [vm_compute; reflexivity|]. split; [vm_compute; reflexivity|].
    split; [|by vm_compute].
    apply (bool_decide_unpack _). vm_compute. exact I.
  - eexists _, _, {[0 := 0]}.
    split; [vm_compute; reflexivity|]. split; [vm_compute; reflexivity|].
    split; [|by vm_compute].
    apply (bool_decide_unpack _). vm_compute. exact I.
Qed.

(** C3, amended. For a constructed graph [G] and a constructed pattern [p]
    without self-loops that is directed or is matched against an undirected
    graph, every mapping returned by [full_mni_embeddings(p)] is injective
    and edge-preserving: both endpoints of every pattern edge are mapped and
    [has_edge] holds between their images with the label of the edge, from
    the image of its source to the image of its target. *)
Theorem full_mni_embeddings_valid
    (gd : bool) (gvl : list string) (ges : list Edge) (G : DataGraph)
    (pvl : list string) (pes : list Edge) (pd : bool) (p : Pattern)
    (emb : gmap nat nat) :
  DataGraph_init gd gvl ges = Some G →
  Pattern_init pvl pes pd = Some p →
  pd = true ∨ gd = false →
  Forall (λ e, edge_u e ≠ edge_v e) pes →
  emb ∈ full_mni_embeddings G p →
  (∀ i j x, emb !! i = Some x → emb !! j = Some x → i = j)
  ∧ (∀ e, e ∈ p_edges p →
       ∃ x y, emb !! edge_u e = Some x ∧ emb !! edge_v e = Some y
              ∧ has_edge G x y (edge_label e) = true).
Proof.
  intros HG Hp Hdir Hloops Hin.
  apply Pattern_init_Some in Hp as (Hvl & Hes & Hpd & Hrange).
  assert (Hsym : sym_ok G p).
  { destruct Hdir as [->| ->]; [by left|right].
    intros u v l. by eapply has_edge_sym. }
  apply full_mni_embeddings_spec in Hin as [(_ & Hinj & Hedges) Hdom]; [|done].
  split; [exact Hinj|].
  intros e He. rewrite Hes in He.
  destruct (Hrange e He) as [Hu Hv].
  destruct (proj2 (Hdom (edge_u e))) as [x Hx]; [unfold num_nodes; by rewrite Hvl|].
  destruct (proj2 (Hdom (edge_v e))) as [y Hy]; [unfold num_nodes; by rewrite Hvl|].
  exists x, y. split; [done|]. split; [done|].
  apply (Hedges e); [by rewrite Hes|done..|].
  by apply (proj1 (Forall_forall _ _) Hloops).
Qed.

Lemma full_mni_embeddings_valid_witness :
  path_graph = Some path_G
  ∧ Pattern_init ["A"; "B"] [mkEdge 0 1 None] false = Some ab_pattern
  ∧ ({[0 := 0; 1 := 1]} : gmap nat nat) ∈ full_mni_embeddings path_G ab_pattern
  ∧ (∀ i j x, ({[0 := 0; 1 := 1]} : gmap nat nat) !! i = Some x →
              ({[0 := 0; 1 := 1]} : gmap nat nat) !! j = Some x → i = j)
  ∧ (∀ e, e ∈ p_edges ab_pattern →
       ∃ x y, ({[0 := 0; 1 := 1]} : gmap nat nat) !! edge_u e = Some x
              ∧ ({[0 := 0; 1 := 1]} : gmap nat nat) !! edge_v e = Some y
              ∧ has_edge path_G x y (edge_label e) = true).
Proof.
  split; [vm_compute; reflexivity|]. split; [vm_compute; reflexivity|].
  split; [apply (bool_decide_unpack _); vm_compute; exact I|].
  apply (full_mni_embeddings_valid false ["A"; "B"; "C"]
           [mkEdge 0 1 None; mkEdge 1 2 None] path_G
           ["A"; "B"] [mkEdge 0 1 None] false ab_pattern).
  - vm_compute; reflexivity.
  - vm_compute; reflexivity.
  - right; reflexivity.
  - constructor; [simpl; lia|constructor].
  - apply (bool_decide_unpack _); vm_compute; exact I.
Defined.

(** ** What mni_support computes *)

(** The minimum [min(len(s) for s in imgs)] of a non-empty list. *)
Lemma foldl_min_spec (r : list nat) : ∀ x,
  foldl Nat.min x r ∈ x :: r ∧ ∀ y, y ∈ x :: r → foldl Nat.min x r ≤ y.
Proof.
  induction r as [|z r IH]; intros x; cbn [foldl].
  - split; [apply list_elem_of_here|]. intros y ->%list_elem_of_singleton. lia.
  - destruct (IH (x `min` z)) as [Hin Hle]. split.
    + apply elem_of_cons in Hin as [Hin|Hin].
      * rewrite Hin. destruct (Nat.min_spec x z) as [[_ ->]|[_ ->]].
        -- apply list_elem_of_here.
        -- apply list_elem_of_further, list_elem_of_here.
      * by do 2 apply list_elem_of_further.
    + intros y Hy.
      assert (foldl Nat.min (x `min` z) r ≤ x `min` z)
        by (apply Hle, list_elem_of_here).
      apply elem_of_cons in Hy as [->|[->|Hy]%elem_of_cons]; [lia..|].
      by apply Hle, list_elem_of_further.
Qed.

(** The inner loop [for pnode, gnode in emb.items()], on a list of items. *)
Lemma foldM_imgs_add (l : list (nat * nat)) : ∀ imgs,
  (∀ kx, kx ∈ l → kx.1 < length imgs) →
  ∃ imgs', foldM imgs_add imgs l = Some imgs'
    ∧ length imgs' = length imgs
    ∧ ∀ i s', imgs' !! i = Some s' →
        ∃ s, imgs !! i = Some s ∧ ∀ x, x ∈ s' ↔ x ∈ s ∨ (i, x) ∈ l.
Proof.
  induction l as [|[k g] l IH]; intros imgs Hk; cbn [foldM].
  - exists imgs. split; [done|]. split; [done|].
    intros i s' Hi. exists s'. split; [done|]. intros x. rewrite elem_of_nil. tauto.
  - assert (k < length imgs) as Hlt by (apply (Hk (k, g)), list_elem_of_here).
    assert (imgs_add imgs (k, g) = Some (alter (λ s, {[g]} ∪ s) k imgs)) as ->
      by (unfold imgs_add; by rewrite decide_True).
    cbn [mbind option_bind].
    destruct (IH (alter (λ s, {[g]} ∪ s) k imgs)) as (imgs' & -> & Hlen & Hmem).
    { intros kx Hin. rewrite length_alter. by apply Hk, list_elem_of_further. }
    exists imgs'. split; [done|]. rewrite length_alter in Hlen. split; [done|].
    intros i s' Hi. destruct (Hmem i s' Hi) as (s & Hs & Hx).
    destruct (decide (i = k)) as [->|Hne].
    + rewrite list_lookup_alter_eq in Hs.
      destruct (imgs !! k) as [s0|] eqn:Hs0; [|discriminate].
      injection Hs as <-. exists s0. split; [done|].
      intros x. rewrite Hx, elem_of_cons, elem_of_union, elem_of_singleton.
      split; [intros [[->|?]|?]|intros [?|[[= ->]|?]]]; auto.
    + rewrite list_lookup_alter_ne in Hs by done. exists s. split; [done|].
      intros x. rewrite Hx, elem_of_cons.
      split; [intros [?|?]|intros [?|[[= ? ?]|?]]]; auto. done.
Qed.

(** The outer loop [for emb in embeddings]. *)
Lemma foldM_embeddings (embs : list (gmap nat nat)) : ∀ imgs,
  (∀ emb i x, emb ∈ embs → emb !! i = Some x → i < length imgs) →
  ∃ imgs', foldM (λ imgs emb, foldM imgs_add imgs (map_to_list emb)) imgs embs
           = Some imgs'
    ∧ length imgs' = length imgs
    ∧ ∀ i s', imgs' !! i = Some s' →
        ∃ s, imgs !! i = Some s
             ∧ ∀ x, x ∈ s' ↔ x ∈ s ∨ ∃ emb, emb ∈ embs ∧ emb !! i = Some x.
Proof.
  induction embs as [|emb embs IH]; intros imgs Hk; cbn [foldM].
  - exists imgs. split; [done|]. split; [done|].
    intros i s' Hi. exists s'. split; [done|]. intros x.
    split; [by left|]. intros [?|(emb & ?%elem_of_nil & _)]; done.
  - destruct (foldM_imgs_add (map_to_list emb) imgs) as (imgs1 & -> & Hlen1 & Hmem1).
    { intros [i x] Hin%elem_of_map_to_list. eapply Hk; [apply list_elem_of_here|done]. }
    cbn [mbind option_bind].
    destruct (IH imgs1) as (imgs' & -> & Hlen & Hmem).
    { intros emb' i x Hin Hl. rewrite Hlen1. eapply Hk; [|done].
      by apply list_elem_of_further. }
    exists imgs'. split; [done|]. split; [congruence|].
    intros i s' Hi. destruct (Hmem i s' Hi) as (s1 & Hs1 & Hx1).
    destruct (Hmem1 i s1 Hs1) as (s & Hs & Hx). exists s. split; [done|].
    intros x. rewrite Hx1, Hx, elem_of_map_to_list. split.
    + intros [[?|?]|(emb' & ? & ?)]; [by left|right..].
      * exists emb. split; [apply list_elem_of_here|done].
      * exists emb'. split; [by apply list_elem_of_further|done].
    + intros [?|(emb' & [->|?]%elem_of_cons & ?)];
        [by left; left|by left; right|right; by exists emb'].
Qed.

(** [mni_support] on embeddings defined on pattern nodes below [k >= 1]:
    it does not raise, and returns the least size among the image sets of
    the [k] pattern nodes. *)
Lemma mni_support_spec (embs : list (gmap nat nat)) (k : nat) :
  k ≠ 0 →
  (∀ emb i x, emb ∈ embs → emb !! i = Some x → i < k) →
  ∃ (imgs : list (gset nat)) (m : nat),
    mni_support embs k = Some m
    ∧ length imgs = k
    ∧ (∀ i s, imgs !! i = Some s →
         ∀ x, x ∈ s ↔ ∃ emb, emb ∈ embs ∧ emb !! i = Some x)
    ∧ m ∈ size <$> imgs
    ∧ ∀ y, y ∈ size <$> imgs → m ≤ y.
Proof.
  intros Hk Hdom. unfold mni_support. rewrite decide_False by done.
  destruct (foldM_embeddings embs (replicate k ∅)) as (imgs & -> & Hlen & Hmem).
  { intros emb i x ? ?. rewrite length_replicate. by eapply Hdom. }
  cbn [mbind option_bind]. rewrite length_replicate in Hlen.
  destruct (size <$> imgs) as [|z r] eqn:Hsz.
  { apply (f_equal length) in Hsz. rewrite length_fmap in Hsz. cbn in Hsz. lia. }
  exists imgs, (foldl Nat.min z r). split; [done|]. split; [done|].
  split; [|rewrite Hsz; apply foldl_min_spec].
  intros i s Hi x. destruct (Hmem i s Hi) as (s0 & Hs0 & Hx).
  apply lookup_replicate in Hs0 as [-> _]. rewrite Hx, elem_of_empty. tauto.
Qed.

(** ** MNI support under pattern growth *)

(** [p] is a sub-pattern of [q]: [q] has the nodes of [p] with the same
    labels, possibly more, and all the edges of [p]. *)
Definition sub_pattern (p q : Pattern) : Prop :=
  (∃ tail, p_vlabels q = p_vlabels p ++ tail)
  ∧ ∀ e, e ∈ p_edges p → e ∈ p_edges q.

(** An embedding of [q] restricted to the nodes of a sub-pattern [p] is an
    embedding of [p]. *)
Lemma restrict_embedding G p q emb :
  sub_pattern p q → is_embedding G q emb →
  is_embedding G p (filter (λ kv, kv.1 < num_nodes p) emb).
Proof.
  intros [[tail Hvl] Hes] [(Hlab & Hinj & Hedges) Hdom].
  assert (Hle : num_nodes p ≤ num_nodes q).
  { unfold num_nodes. rewrite Hvl, length_app. lia. }
  split; [split; [|split]|].
  - intros i x [Hi Hlt]%map_lookup_filter_Some. cbn in Hlt.
    apply elem_of_domain. apply Hlab, elem_of_domain in Hi as [? Hi].
    split; [done|]. rewrite Hi, Hvl. by rewrite lookup_app_l.
  - intros i j x [Hi _]%map_lookup_filter_Some [Hj _]%map_lookup_filter_Some.
    by eapply Hinj.
  - intros e He x y [Hx _]%map_lookup_filter_Some [Hy _]%map_lookup_filter_Some.
    by apply (Hedges e (Hes e He)).
  - intros i. split.
    + intros [x [_ Hlt]%map_lookup_filter_Some]. done.
    + intros Hlt. destruct (proj2 (Hdom i)) as [x Hx]; [lia|].
      exists x. by apply map_lookup_filter_Some.
Qed.

(** MNI support is anti-monotone from a pattern to a pattern that contains
    it, when [full_mni_embeddings] enumerates the embeddings of both. *)
Lemma mni_support_sub_pattern G p q :
  sym_ok G p → sym_ok G q → sub_pattern p q → num_nodes p ≠ 0 →
  ∃ sq sp,
    mni_support (full_mni_embeddings G q) (num_nodes q) = Some sq
    ∧ mni_support (full_mni_embeddings G p) (num_nodes p) = Some sp
    ∧ sq ≤ sp.
Proof.
  intros Hsp Hsq Hsub Hn.
  assert (Hle : num_nodes p ≤ num_nodes q).
  { destruct Hsub as [[tail Hvl] _]. unfold num_nodes. rewrite Hvl, length_app. lia. }
  destruct (mni_support_spec (full_mni_embeddings G q) (num_nodes q))
    as (imgs_q & sq & Hq & Hlq & Hmq & _ & Hminq); [lia| |].
  { intros emb i x [_ Hdom]%full_mni_embeddings_spec Hi; [|done]. apply Hdom. eauto. }
  destruct (mni_support_spec (full_mni_embeddings G p) (num_nodes p))
    as (imgs_p & sp & Hp & Hlp & Hmp & Hinp & _); [lia| |].
  { intros emb i x [_ Hdom]%full_mni_embeddings_spec Hi; [|done]. apply Hdom. eauto. }
  exists sq, sp. split; [done|]. split; [done|].
  apply list_elem_of_fmap in Hinp as (s_p & -> & Hs_p).
  apply list_elem_of_lookup in Hs_p as [i Hi].
  assert (i < num_nodes p) as Hlt by (rewrite <- Hlp; by eapply lookup_lt_Some).
  destruct (lookup_lt_is_Some_2 imgs_q i) as [s_q Hs_q]; [lia|].
  transitivity (size s_q).
  - apply Hminq, list_elem_of_fmap. exists s_q. split; [done|].
    by eapply list_elem_of_lookup_2.
  - apply subseteq_size. intros x Hx.
    apply (Hmq i s_q Hs_q) in Hx as (emb & Hemb & Hx).
    apply (Hmp i s_p Hi).
    exists (filter (λ kv, kv.1 < num_nodes p) emb). split.
    + apply full_mni_embeddings_spec; [done|].
      apply (restrict_embedding G p q); [done|].
      by apply full_mni_embeddings_spec.
    + by apply map_lookup_filter_Some.
Qed.

(** ** The candidates of extensions *)

(** The arguments [raw] of a constructor call add one edge to [p], and at
    most one node. *)
Definition one_edge_more (p : Pattern) (raw : Raw) : Prop :=
  (raw.1.1 = p_vlabels p ∨ ∃ lv, raw.1.1 = p_vlabels p ++ [lv])
  ∧ ∃ e, raw.1.2 = p_edges p ++ [e].

Lemma back_cands_shape G p allowed u_p u_g w_p w_g raw :
  raw ∈ back_cands G p allowed u_p u_g w_p w_g →
  one_edge_more p raw ∧ raw.2 = p_directed p.
Proof.
  unfold back_cands. destruct (p_directed p); cbn [negb].
  - rewrite elem_of_app. intros [Hin|Hin].
    + destruct (has_edge G u_g w_g None); [|by apply elem_of_nil in Hin].
      apply elem_of_flat_map in Hin as (elab & _ & Hin).
      destruct (decide _); [by apply elem_of_nil in Hin|].
      destruct (disallowed _ _); [by apply elem_of_nil in Hin|].
      apply list_elem_of_singleton in Hin as ->.
      split; [|done]. split; [by left|by eexists].
    + destruct (has_edge G w_g u_g None); [|by apply elem_of_nil in Hin].
      apply elem_of_flat_map in Hin as (elab & _ & Hin).
      destruct (decide _); [by apply elem_of_nil in Hin|].
      destruct (disallowed _ _); [by apply elem_of_nil in Hin|].
      apply list_elem_of_singleton in Hin as ->.
      split; [|done]. split; [by left|by eexists].
  - destruct (_ || _); [|by intros ?%elem_of_nil].
    intros (elab & _ & Hin)%elem_of_flat_map.
    destruct (decide _); [by apply elem_of_nil in Hin|].
    destruct (norm_labels _ _).
    destruct (disallowed _ _); [by apply elem_of_nil in Hin|].
    apply list_elem_of_singleton in Hin as ->.
    split; [|done]. split; [by left|by eexists].
Qed.

Lemma forward_cands_shape G p emb heur allowed u_p u_g raw :
  raw ∈ forward_cands G p emb heur allowed u_p u_g →
  one_edge_more p raw
  ∧ (raw.2 = p_directed p ∨ (g_directed G = true ∧ raw.2 = true)).
Proof.
  unfold forward_cands. rewrite elem_of_app. intros [Hin|Hin].
  - apply elem_of_flat_map in Hin as ([v_g elab] & _ & Hin).
    destruct (in_values _ _); [by apply elem_of_nil in Hin|].
    destruct (pruned _ _ _ _ _); [by apply elem_of_nil in Hin|].
    match type of Hin with _ ∈ (if ?c then _ else _) =>
      destruct c; [by apply elem_of_nil in Hin|] end.
    apply list_elem_of_singleton in Hin as ->.
    split; [|by left]. split; [right; by eexists|by eexists].
  - destruct (g_directed G); [|by apply elem_of_nil in Hin].
    apply elem_of_flat_map in Hin as ([v_g elab] & _ & Hin).
    destruct (in_values _ _); [by apply elem_of_nil in Hin|].
    destruct (pruned _ _ _ _ _); [by apply elem_of_nil in Hin|].
    destruct (disallowed _ _); [by apply elem_of_nil in Hin|].
    apply list_elem_of_singleton in Hin as ->.
    split; [|by right]. split; [right; by eexists|by eexists].
Qed.

Lemma emb_cands_shape G p heur allowed path rm emb raw :
  raw ∈ emb_cands G p heur allowed path rm emb →
  one_edge_more p raw
  ∧ (raw.2 = p_directed p ∨ (g_directed G = true ∧ raw.2 = true)).
Proof.
  unfold emb_cands. rewrite elem_of_app. intros [Hin|Hin].
  - destruct (emb !! rm); [|by apply elem_of_nil in Hin].
    apply elem_of_flat_map in Hin as (w_p & _ & Hin).
    destruct (emb !! w_p); [|by apply elem_of_nil in Hin].
    apply back_cands_shape in Hin as [? ?]. split; [done|by left].
  - apply elem_of_flat_map in Hin as (u_p & _ & Hin).
    destruct (emb !! u_p); [|by apply elem_of_nil in Hin].
    by eapply forward_cands_shape.
Qed.

(** A yielded pattern was constructed from one of the candidates. *)
Lemma emit_yielded (raws : list Raw) : ∀ produced q,
  q ∈ yielded (emit raws produced) →
  ∃ raw, raw ∈ raws ∧ Pattern_init raw.1.1 raw.1.2 raw.2 = Some q
         ∧ p_key q ∉ produced.
Proof.
  induction raws as [|[[vl es] d] raws IH]; intros produced q; cbn [emit].
  - by intros ?%elem_of_nil.
  - destruct (Pattern_init vl es d) as [q0|] eqn:Hq0; [|by intros ?%elem_of_nil].
    destruct (decide (p_key q0 ∈ produced)) as [Hk|Hk].
    + intros (raw & ? & ? & ?)%IH. exists raw.
      split; [by apply list_elem_of_further|done].
    + cbn [gen_cons yielded]. intros [->|Hin]%elem_of_cons.
      * exists (vl, es, d). split; [apply list_elem_of_here|done].
      * apply IH in Hin as (raw & ? & ? & Hnot). exists raw.
        split; [by apply list_elem_of_further|]. split; [done|].
        intros ?. apply Hnot, elem_of_app. by left.
Qed.

(** The patterns [extensions] yields: one edge more than [p], at most one
    node more, and the directed flag of [p] or of a directed graph. *)
Lemma extensions_shape G p embeddings heur allowed q :
  q ∈ yielded (extensions G p embeddings heur allowed) →
  sub_pattern p q
  ∧ (p_directed q = p_directed p ∨ (g_directed G = true ∧ p_directed q = true)).
Proof.
  unfold extensions. destruct (rmpath p) as [path0|]; [|by intros ?%elem_of_nil].
  destruct (last _) as [rm|]; [|by intros ?%elem_of_nil].
  intros (raw & Hraw & Hq & _)%emit_yielded.
  apply elem_of_flat_map in Hraw as (emb & _ & Hraw).
  apply emb_cands_shape in Hraw as [[Hvl [e He]] Hd].
  apply Pattern_init_Some in Hq as (Hqv & Hqe & Hqd & _).
  rewrite Hqd. split; [split|done].
  - rewrite Hqv.
    destruct Hvl as [->|[lv ->]]; [exists []; by rewrite app_nil_r|by eexists].
  - intros e' He'. rewrite Hqe, He. apply elem_of_app. by left.
Qed.

(** A pattern without nodes has no extension: [rmpath[-1]] raises. *)
Lemma extensions_no_nodes G p embeddings heur allowed :
  num_nodes p = 0 → yielded (extensions G p embeddings heur allowed) = [].
Proof.
  intros Hn. unfold extensions, rmpath.
  destruct (canonical_key _ _ _) as [[d c]|] eqn:Hk; [|done].
  cbn [mbind option_bind].
  assert (Hvl : p_vlabels p = []) by by apply nil_length_inv.
  assert (Hes : p_edges p = []).
  { destruct (p_edges p) as [|e es] eqn:He; [done|].
    apply canonical_key_in_range with (e := e) in Hk as [Hu _];
      [|apply list_elem_of_here].
    rewrite Hvl in Hu. cbn in Hu. lia. }
  rewrite Hvl, Hes in Hk. unfold num_nodes. rewrite Hvl.
  destruct (p_directed p); injection Hk as <- <-; done.
Qed.

(** A directed graph with labels A B C A B C in which the undirected
    pattern A - B, checked from B to A, embeds once, and its extension
    A - B - C, checked in another order, embeds twice. *)
Definition mismatch_graph : option DataGraph :=
  DataGraph_init true ["A"; "B"; "C"; "A"; "B"; "C"]
    [mkEdge 1 0 None; mkEdge 0 1 None; mkEdge 3 4 None;
     mkEdge 1 2 None; mkEdge 2 1 None; mkEdge 5 4 None].

(** C5 as stated fails when an undirected pattern is matched against a
    directed graph: the first extension of A - B yielded from its own
    embeddings has MNI support 2, the pattern itself 1. *)
Lemma mni_grows_on_mismatch :
  ∃ G p q,
    mismatch_graph = Some G
    ∧ Pattern_init ["A"; "B"] [mkEdge 0 1 None] false = Some p
    ∧ yielded (extensions G p (full_mni_embeddings G p) None None) !! 0 = Some q
    ∧ mni_support (full_mni_embeddings G q) (num_nodes q) = Some 2
    ∧ mni_support (full_mni_embeddings G p) (num_nodes p) = Some 1.
Proof.
  eexists _, _, _.
  split; [vm_compute; reflexivity|]. split; [vm_compute; reflexivity|].
  split; [vm_compute; reflexivity|]. split; vm_compute; reflexivity.
Qed.

(** C5, amended. For a constructed graph [G], a pattern [p] that is
    directed or is matched against an undirected graph, and every pattern
    [q] yielded by [extensions(p, embeddings, heur, allowed_edge_types)],
    whatever the last three arguments: both MNI supports are computed
    without raising, and that of [q] is at most that of [p]. *)
Theorem mni_anti_monotone
    (gd : bool) (gvl : list string) (ges : list Edge) (G : DataGraph)
    (p : Pattern) (embeddings : list (gmap nat nat))
    (heur : option SoGraMiHeuristics) (allowed : option (list EdgeType))
    (q : Pattern) :
  DataGraph_init gd gvl ges = Some G →
  p_directed p = true ∨ gd = false →
  q ∈ yielded (extensions G p embeddings heur allowed) →
  ∃ sq sp,
    mni_support (full_mni_embeddings G q) (num_nodes q) = Some sq
    ∧ mni_support (full_mni_embeddings G p) (num_nodes p) = Some sp
    ∧ sq ≤ sp.
Proof.
  intros HG Hdir Hq.
  assert (Hn : num_nodes p ≠ 0).
  { intros Hn. rewrite extensions_no_nodes in Hq by done. by apply elem_of_nil in Hq. }
  apply extensions_shape in Hq as [Hsub Hd].
  destruct (init_fields _ _ _ _ HG) as [HGd _].
  apply mni_support_sub_pattern; [| |done..].
  - destruct Hdir as [?| ->]; [by left|right].
    intros u v l. by eapply has_edge_sym.
  - destruct Hdir as [Hp| ->].
    + left. destruct Hd as [->|[_ ?]]; done.
    + right. intros u v l. by eapply has_edge_sym.
Qed.

(** The first extension of A - B on the path A - B - C. *)
Definition abc_pattern : Pattern :=
  default no_pattern
    (yielded (extensions path_G ab_pattern
                (full_mni_embeddings path_G ab_pattern) None None) !! 0).

Lemma mni_anti_monotone_witness :
  path_graph = Some path_G
  ∧ abc_pattern ∈ yielded (extensions path_G ab_pattern
                             (full_mni_embeddings path_G ab_pattern) None None)
  ∧ ∃ sq sp,
      mni_support (full_mni_embeddings path_G abc_pattern) (num_nodes abc_pattern)
        = Some sq
      ∧ mni_support (full_mni_embeddings path_G ab_pattern) (num_nodes ab_pattern)
        = Some sp
      ∧ sq ≤ sp.
Proof.
  split; [vm_compute; reflexivity|].
  split; [apply (list_elem_of_lookup_2 _ 0); vm_compute; reflexivity|].
  apply (mni_anti_monotone false ["A"; "B"; "C"]
           [mkEdge 0 1 None; mkEdge 1 2 None] path_G ab_pattern
           (full_mni_embeddings path_G ab_pattern) None None abc_pattern).
  - vm_compute; reflexivity.
  - right; reflexivity.
  - apply (list_elem_of_lookup_2 _ 0); vm_compute; reflexivity.
Defined.

(** ** Seeds *)

Lemma superset_refl {A} `{EqDecision A} (l : list A) : superset l l = true.
Proof.
  unfold superset. apply forallb_forall. intros x Hx%list_elem_of_In.
  by apply bool_decide_eq_true.
Qed.

Lemma dfs_loop_done fuel h st :
  superset (used_edges st) (edge_keys h) = true →
  dfs_loop (S fuel) h st = code st.
Proof. intros H. cbn [dfs_loop]. by rewrite H. Qed.

(** The constructor call of a seed never raises; its key has one tuple. *)
Lemma seed_key lu lv elab d :
  canonical_key [lu; lv] [mkEdge 0 1 elab] d
  = Some (d, [(0, 1, lu, default "" elab, lv, if d then 1 else 0)]).
Proof.
  set (df := if d then 1 else 0).
  set (k := (0, 1, elab, df) : EdgeKey).
  set (h := mkHelper d [lu; lv]
              [[(1, elab, df)]; [(0, elab, if d then 2 else 0)]] [k]).
  assert (Hh : helper_init d [lu; lv] [mkEdge 0 1 elab] = Some h)
    by (destruct d; reflexivity).
  assert (Hs : sorted_keys [k] = Some [k]).
  { unfold sorted_keys. cbn [forallb].
    assert (is_Some (key_cmp k k)) as Hc.
    { subst k. cbn. destruct elab as [x|]; cbn; [destruct (x ?= x)%string|]; eauto. }
    rewrite (bool_decide_eq_true_2 _ Hc). reflexivity. }
  assert (He : dfs_enumerate h 0 1 elab df
               = [(0, 1, lu, default "" elab, lv, df)]).
  { unfold dfs_enumerate. rewrite dfs_loop_done; [reflexivity|].
    assert (used_edges (push_edge h 0 1 elab df (mkDfs [] [] [])) = [k]) as ->
      by (subst k df h; destruct d; reflexivity).
    apply superset_refl. }
  unfold canonical_key. rewrite Hh. cbn [mbind option_bind].
  unfold canonical_code. change (edge_keys h) with [k]. rewrite Hs.
  cbn [mbind option_bind].
  assert (seeds_of (h_directed h) [k] = [k]) as ->
    by (subst k df h; destruct d; reflexivity).
  cbn [foldl]. subst k. unfold best_step. cbn beta iota. rewrite He. reflexivity.
Qed.

Lemma str_min_comm a b : str_min a b = str_min b a.
Proof.
  unfold str_min, String.ltb. rewrite (String.compare_antisym a b).
  destruct (b ?= a)%string eqn:Hc; cbn; try reflexivity.
  apply String.compare_eq_iff in Hc. by subst.
Qed.

Lemma str_max_comm a b : str_max a b = str_max b a.
Proof.
  unfold str_max, String.ltb. rewrite (String.compare_antisym a b).
  destruct (b ?= a)%string eqn:Hc; cbn; try reflexivity.
  apply String.compare_eq_iff in Hc. by subst.
Qed.

Lemma foldM_app {A B} (f : B → A → option B) (l1 l2 : list A) : ∀ b,
  foldM f b (l1 ++ l2) = foldM f b l1 ≫= λ b', foldM f b' l2.
Proof.
  induction l1 as [|a l1 IH]; intros b; cbn [foldM app]; [done|].
  destruct (f b a) as [b'|]; cbn [mbind option_bind]; [apply IH|done].
Qed.

(** A nested loop is a loop over the pairs of indices. *)
Lemma foldM_nested {A B C} (f : A → C → B → option C) (g : A → list B)
    (l : list A) : ∀ st,
  foldM (λ st a, foldM (f a) st (g a)) st l
  = foldM (λ st ab, f ab.1 st ab.2) st (flat_map (λ a, pair a <$> g a) l).
Proof.
  induction l as [|a l IH]; intros st; cbn [foldM flat_map]; [done|].
  rewrite foldM_app.
  assert (Hin : ∀ st', foldM (f a) st' (g a)
                       = foldM (λ st ab, f ab.1 st ab.2) st' (pair a <$> g a)).
  { generalize (g a). intros bs. induction bs as [|b bs IHb]; intros st'; [done|].
    cbn [foldM fmap list_fmap]. cbn [fst snd].
    destruct (f a st' b); cbn [mbind option_bind]; [apply IHb|done]. }
  rewrite Hin. destruct (foldM _ st _); cbn [mbind option_bind]; [apply IH|done].
Qed.

(** The label tuple of a two-node one-edge pattern, as [seed_patterns]
    forms it. *)
Definition pattern_tuple (q : Pattern) : SeedTuple :=
  let lu := plabel q 0 in
  let lv := plabel q 1 in
  let elab := match p_edges q with e :: _ => edge_label e | [] => None end in
  if p_directed q then (lu, lv, elab, true)
  else (str_min lu lv, str_max lu lv, elab, false).

(** The edge type of an edge of the graph, as a label tuple. *)
Definition edge_tuple (directed : bool) (vlabels : list string) (e : Edge)
  : SeedTuple :=
  let lu := default "" (vlabels !! edge_u e) in
  let lv := default "" (vlabels !! edge_v e) in
  if directed then (lu, lv, edge_label e, true)
  else (str_min lu lv, str_max lu lv, edge_label e, false).

(** A two-node one-edge pattern with the edge [Edge(0, 1, elab)]. *)
Definition is_seed (directed : bool) (q : Pattern) : Prop :=
  ∃ lu lv elab,
    p_vlabels q = [lu; lv] ∧ p_edges q = [mkEdge 0 1 elab]
    ∧ p_directed q = directed.

(** The pattern [seed_patterns] yields for the entry [(v, elab)] of
    [adj[u]]. *)
Definition seed_of (G : DataGraph) (u v : nat) (elab : option string) : Pattern :=
  mkPattern (g_directed G) [vlabel G u; vlabel G v] [mkEdge 0 1 elab]
    (g_directed G,
     [(0, 1, vlabel G u, default "" elab, vlabel G v,
       if g_directed G then 1 else 0)]).

Lemma seed_step_eq G u seen out v elab :
  seed_step G u (seen, out) (v, elab)
  = match seed_tuple G u (v, elab) with
    | None => Some (seen, out)
    | Some tpl =>
        if decide (tpl ∈ seen) then Some (seen, out)
        else Some (set_add tpl seen, out ++ [seed_of G u v elab])
    end.
Proof.
  unfold seed_step. destruct (seed_tuple _ _ _) as [tpl|]; [|done].
  destruct (decide _); [done|]. cbn [fst snd].
  unfold Pattern_init. by rewrite seed_key.
Qed.

(** The loop of [seed_patterns] over a list of adjacency entries. *)
Lemma seed_loop G (ents : list (nat * Nbr)) : ∀ seen out,
  pattern_tuple <$> out = seen → NoDup seen → Forall (is_seed (g_directed G)) out →
  ∃ seen' out',
    foldM (λ st un, seed_step G un.1 st un.2) (seen, out) ents = Some (seen', out')
    ∧ pattern_tuple <$> out' = seen' ∧ NoDup seen'
    ∧ Forall (is_seed (g_directed G)) out'
    ∧ ∀ t, t ∈ seen' ↔ t ∈ seen ∨ ∃ un, un ∈ ents ∧ seed_tuple G un.1 un.2 = Some t.
Proof.
  induction ents as [|[u [v elab]] ents IH]; intros seen out Hout Hnd Hshape;
    cbn [foldM].
  - exists seen, out. repeat (split; [done|]). intros t.
    split; [by left|]. intros [?|(un & ?%elem_of_nil & _)]; done.
  - cbn [fst snd]. rewrite seed_step_eq.
    destruct (seed_tuple G u (v, elab)) as [tpl|] eqn:Htpl.
    + destruct (decide (tpl ∈ seen)) as [Hin|Hnin]; cbn [mbind option_bind].
      * destruct (IH seen out) as (seen' & out' & -> & ? & ? & ? & Hmem); [done..|].
        exists seen', out'. repeat (split; [done|]). intros t. rewrite Hmem. split.
        -- intros [?|(un & ? & ?)]; [by left|right].
           exists un. split; [by apply list_elem_of_further|done].
        -- intros [?|(un & [->|?]%elem_of_cons & Hun)]; [by left| |right; by exists un].
           left. cbn [fst snd] in Hun. rewrite Htpl in Hun. by injection Hun as <-.
      * set (q := seed_of G u v elab).
        assert (Hq : pattern_tuple q = tpl).
        { revert Htpl. unfold seed_tuple, pattern_tuple, q, seed_of, plabel. cbn.
          destruct (g_directed G); [congruence|].
          destruct (decide (v ≤ u)); congruence. }
        destruct (IH (set_add tpl seen) (out ++ [q]))
          as (seen' & out' & -> & ? & ? & ? & Hmem).
        { unfold set_add. rewrite decide_False by done.
          rewrite fmap_app, Hout. cbn [fmap list_fmap]. by rewrite Hq. }
        { unfold set_add. rewrite decide_False by done.
          apply NoDup_app. split; [done|]. split; [|apply NoDup_singleton].
          intros t Ht ->%list_elem_of_singleton. done. }
        { apply Forall_app. split; [done|]. apply Forall_singleton.
          by eexists _, _, _. }
        exists seen', out'. repeat (split; [done|]). intros t. rewrite Hmem.
        unfold set_add. rewrite decide_False by done.
        rewrite elem_of_app, list_elem_of_singleton. split.
        -- intros [[?|Ht]|(un & ? & ?)]; [by left|right..].
           ++ subst t. exists (u, (v, elab)). split; [apply list_elem_of_here|done].
           ++ exists un. split; [by apply list_elem_of_further|done].
        -- intros [?|(un & [->|?]%elem_of_cons & Hun)];
             [by left; left| |right; by exists un].
           left; right. cbn [fst snd] in Hun. rewrite Htpl in Hun.
           by injection Hun as <-.
    + cbn [mbind option_bind].
      destruct (IH seen out) as (seen' & out' & -> & ? & ? & ? & Hmem); [done..|].
      exists seen', out'. repeat (split; [done|]). intros t. rewrite Hmem. split.
      * intros [?|(un & ? & ?)]; [by left|right].
        exists un. split; [by apply list_elem_of_further|done].
      * intros [?|(un & [->|?]%elem_of_cons & Hun)]; [by left| |right; by exists un].
        cbn [fst snd] in Hun. rewrite Htpl in Hun. discriminate.
Qed.

(** C8 as stated fails on an undirected graph whose only edge is a
    self-loop: its edge type is present (and counted by
    [edge_type_counts]), and [seed_patterns] yields nothing, the entries
    with [u >= v] being skipped. *)
Lemma seed_patterns_skip_self_loops :
  ∃ G, loop_graph = Some G
       ∧ seed_patterns G = Some []
       ∧ edge_type_counts G = [(("A", "A", None, 0), 2)].
Proof.
  eexists. split; [vm_compute; reflexivity|]. split; vm_compute; reflexivity.
Qed.

(** C8, amended. On a constructed graph [seed_patterns] never raises, and
    it yields two-node patterns with the single edge [Edge(0, 1, elab)] and
    the directed flag of the graph, no two with the same label tuple, one
    for every edge type of the graph: of any edge when the graph is
    directed, of the edges that join two different nodes when it is
    undirected. *)
Theorem seed_patterns_cover
    (gd : bool) (gvl : list string) (ges : list Edge) (G : DataGraph) :
  DataGraph_init gd gvl ges = Some G →
  ∃ seeds,
    seed_patterns G = Some seeds
    ∧ Forall (is_seed gd) seeds
    ∧ NoDup (pattern_tuple <$> seeds)
    ∧ ∀ t, t ∈ pattern_tuple <$> seeds
           ↔ ∃ e, e ∈ ges ∧ (gd = true ∨ edge_u e ≠ edge_v e)
                  ∧ edge_tuple gd gvl e = t.
Proof.
  intros HG. destruct (init_fields _ _ _ _ HG) as [Hd Hvl].
  unfold seed_patterns. rewrite foldM_nested.
  destruct (seed_loop G
              (flat_map (λ u, pair u <$> adj G u) (seq 0 (length (g_vlabels G))))
              [] [])
    as (seen & seeds & -> & Hseen & Hnd & Hshape & Hmem);
    [done|apply NoDup_nil_2|apply Forall_nil_2|].
  exists seeds. split; [done|]. rewrite Hseen, <- Hd. split; [done|]. split; [done|].
  intros t. rewrite Hmem, elem_of_nil.
  assert (Hlab : ∀ u, vlabel G u = default "" (gvl !! u))
    by (intros u; unfold vlabel; by rewrite Hvl).
  split.
  - intros [[]|([u [v l]] & Hin & Ht)].
    apply elem_of_flat_map in Hin as (u' & _ & Hin).
    apply list_elem_of_fmap in Hin as (nb & [= <- <-] & Hnb).
    apply (elem_of_adj _ _ _ _ HG) in Hnb as (e & He & Hl & Hc).
    cbn [fst snd] in *. subst l. exists e. split; [done|].
    revert Ht. unfold seed_tuple, edge_tuple. rewrite !Hlab, Hd.
    destruct gd.
    + intros [= <-]. split; [by left|].
      destruct Hc as [[<- <-]|[? _]]; [done|discriminate].
    + destruct (decide (v ≤ u)) as [|Hlt]; [discriminate|]. intros [= <-].
      destruct Hc as [[<- <-]|(_ & <- & <-)].
      * split; [right; lia|done].
      * split; [right; lia|]. by rewrite str_min_comm, str_max_comm.
  - intros (e & He & Hne & <-). right.
    destruct (edges_in_range _ _ _ _ HG e He) as [Hu Hv].
    assert (Hent : ∀ u nb, u < length gvl → nb ∈ adj G u →
              (u, nb) ∈ flat_map (λ u, pair u <$> adj G u)
                                 (seq 0 (length (g_vlabels G)))).
    { intros u nb Hlt Hnb. apply elem_of_flat_map. exists u.
      split; [rewrite Hvl; apply elem_of_seq; lia|].
      by apply list_elem_of_fmap_2. }
    destruct (decide (gd = true ∨ edge_u e < edge_v e)) as [Hfwd|Hbwd].
    + exists (edge_u e, (edge_v e, edge_label e)). split.
      * apply Hent; [done|]. apply (elem_of_adj _ _ _ _ HG).
        exists e. split; [done|]. split; [done|]. by left.
      * unfold seed_tuple, edge_tuple. cbn [fst snd]. rewrite !Hlab, Hd.
        destruct gd; [done|]. destruct Hfwd as [?|?]; [done|].
        by rewrite decide_False by lia.
    + assert (gd = false) as -> by (destruct gd; tauto).
      assert (edge_v e < edge_u e) by (destruct Hne; [congruence|]; lia).
      exists (edge_v e, (edge_u e, edge_label e)). split.
      * apply Hent; [done|]. apply (elem_of_adj _ _ _ _ HG).
        exists e. split; [done|]. split; [done|]. by right.
      * unfold seed_tuple, edge_tuple. cbn [fst snd]. rewrite !Hlab, Hd.
        rewrite decide_False by lia. by rewrite str_min_comm, str_max_comm.
Qed.

Lemma seed_patterns_cover_witness :
  path_graph = Some path_G
  ∧ ∃ seeds,
      seed_patterns path_G = Some seeds
      ∧ Forall (is_seed false) seeds
      ∧ NoDup (pattern_tuple <$> seeds)
      ∧ ∀ t, t ∈ pattern_tuple <$> seeds
             ↔ ∃ e, e ∈ [mkEdge 0 1 None; mkEdge 1 2 None]
                    ∧ (false = true ∨ edge_u e ≠ edge_v e)
                    ∧ edge_tuple false ["A"; "B"; "C"] e = t.
Proof.
  split; [vm_compute; reflexivity|].
  apply (seed_patterns_cover false ["A"; "B"; "C"]
           [mkEdge 0 1 None; mkEdge 1 2 None] path_G).
  vm_compute; reflexivity.
Defined.

(** ** Heuristics *)

Lemma insert_sorted_perm {A} (leb : A → A → bool) x l :
  insert_sorted leb x l ≡ₚ x :: l.
Proof.
  induction l as [|y l IH]; cbn [insert_sorted]; [done|].
  destruct (leb x y); [done|]. rewrite IH. apply Permutation_swap.
Qed.

(** Sorting permutes. *)
Lemma stable_sort_perm {A} (leb : A → A → bool) l : stable_sort leb l ≡ₚ l.
Proof.
  induction l as [|x l IH]; [done|].
  unfold stable_sort in *. cbn [foldr]. by rewrite insert_sorted_perm, IH.
Qed.

Lemma last_removelast {A} (l : list A) (x : A) :
  last l = Some x → l = removelast l ++ [x].
Proof.
  induction l as [|y l IH]; [done|]. destruct l as [|z l].
  - cbn. by intros [= ->].
  - intros Hl. cbn [removelast]. rewrite <- app_comm_cons. f_equal. by apply IH.
Qed.

(** With heuristics [forward_cands] constructs some of the candidates it
    constructs without, in another order. *)
Lemma forward_cands_heur G p emb allowed u_p u_g raw :
  raw ∈ forward_cands G p emb (Some (mkHeur G)) allowed u_p u_g →
  raw ∈ forward_cands G p emb None allowed u_p u_g.
Proof.
  unfold forward_cands. rewrite !elem_of_app. intros [Hin|Hin]; [left|right].
  - apply elem_of_flat_map in Hin as ([v_g elab] & Hnb & Hin).
    apply elem_of_flat_map. exists (v_g, elab). split.
    { revert Hnb. unfold neighbor_order. by rewrite stable_sort_perm. }
    destruct (in_values _ _); [done|].
    destruct (pruned _ _ (Some _) _ _); [by apply elem_of_nil in Hin|done].
  - destruct (g_directed G); [|done].
    apply elem_of_flat_map in Hin as ([v_g elab] & Hnb & Hin).
    apply elem_of_flat_map. exists (v_g, elab). split.
    { revert Hnb. by rewrite stable_sort_perm. }
    destruct (in_values _ _); [done|].
    destruct (pruned _ _ (Some _) _ _); [by apply elem_of_nil in Hin|done].
Qed.

Lemma emb_cands_heur G p allowed path rm emb raw :
  last path = Some rm →
  raw ∈ emb_cands G p (Some (mkHeur G)) allowed path rm emb →
  raw ∈ emb_cands G p None allowed path rm emb.
Proof.
  intros Hlast. unfold emb_cands. rewrite !elem_of_app.
  intros [Hin|Hin]; [by left|right].
  apply elem_of_flat_map in Hin as (u_p & Hu & Hin).
  apply elem_of_flat_map. exists u_p. split.
  - rewrite (last_removelast path rm Hlast), elem_of_app, list_elem_of_singleton.
    apply elem_of_cons in Hu as [->|?]; [by right|by left].
  - destruct (emb !! u_p); [|done]. by apply forward_cands_heur.
Qed.

(** When the generator does not raise, every candidate is constructed, and
    its key was produced before or is the key of a yielded pattern. *)
Lemma emit_complete (raws : list Raw) : ∀ produced,
  raised (emit raws produced) = false →
  ∀ raw, raw ∈ raws →
    ∃ q, Pattern_init raw.1.1 raw.1.2 raw.2 = Some q
         ∧ (p_key q ∈ produced
            ∨ p_key q ∈ p_key <$> yielded (emit raws produced)).
Proof.
  induction raws as [|[[vl es] d] raws IH]; intros produced; cbn [emit].
  - by intros _ raw ?%elem_of_nil.
  - destruct (Pattern_init vl es d) as [q0|] eqn:Hq0; [|discriminate].
    destruct (decide (p_key q0 ∈ produced)) as [Hk|Hk].
    + intros Hr raw [->|Hin]%elem_of_cons.
      * exists q0. split; [done|by left].
      * by apply IH.
    + cbn [gen_cons raised yielded]. intros Hr raw [->|Hin]%elem_of_cons.
      * exists q0. split; [done|]. right. cbn [fmap list_fmap].
        apply list_elem_of_here.
      * destruct (IH _ Hr raw Hin) as (q & Hq & Hor). exists q. split; [done|].
        destruct Hor as [[?|Heq%list_elem_of_singleton]%elem_of_app|?].
        -- by left.
        -- right. cbn [fmap list_fmap]. rewrite Heq. apply list_elem_of_here.
        -- right. cbn [fmap list_fmap]. by apply list_elem_of_further.
Qed.

(** C6 as stated fails: on the path A - B - C with [min_support = 1] the
    miner with heuristics returns the two edges only, the degree test
    rejecting both end nodes as new vertices; without heuristics it also
    returns the path on three nodes. *)
Lemma heuristics_change_mined_keys :
  ∃ G r1 r2 k,
    path_graph = Some G
    ∧ SoPaGraMi_mine (λ l, l) 10 G 1 true None = Ret r1
    ∧ SoPaGraMi_mine (λ l, l) 10 G 1 false None = Ret r2
    ∧ k ∈ r2.*1 ∧ k ∉ r1.*1.
Proof.
  eexists _, _, _, (false, [(0, 1, "A", "", "B", 0); (1, 2, "B", "", "C", 0)]).
  split; [vm_compute; reflexivity|]. split; [vm_compute; reflexivity|].
  split; [vm_compute; reflexivity|].
  split; apply (bool_decide_unpack _); vm_compute; exact I.
Qed.

(** C6, amended. Heuristics only reorder and prune the candidates of an
    extension step: when [extensions] without heuristics does not raise,
    the key of every pattern it yields with heuristics (those of the same
    graph) is the key of a pattern it yields without.  Nothing is claimed
    about the sets of mined patterns. *)
Theorem heuristics_only_prune
    (G : DataGraph) (p : Pattern) (embeddings : list (gmap nat nat))
    (allowed : option (list EdgeType)) (q : Pattern) :
  raised (extensions G p embeddings None allowed) = false →
  q ∈ yielded (extensions G p embeddings (Some (mkHeur G)) allowed) →
  p_key q ∈ p_key <$> yielded (extensions G p embeddings None allowed).
Proof.
  unfold extensions. destruct (rmpath p) as [path0|]; [|discriminate].
  destruct (last _) as [rm|] eqn:Hlast; [|discriminate].
  intros Hr (raw & Hraw & Hq & _)%emit_yielded.
  destruct (emit_complete _ _ Hr raw) as (q' & Hq' & [[]%elem_of_nil|Hk]).
  - apply elem_of_flat_map in Hraw as (emb & Hemb & Hraw).
    apply elem_of_flat_map. exists emb. split; [done|].
    by apply emb_cands_heur.
  - rewrite Hq in Hq'. by injection Hq' as <-.
Qed.

(** The first extension of X - Y on the triangle, with heuristics. *)
Definition xyz_pattern : Pattern :=
  default no_pattern
    (yielded (extensions triangle_G xy_pattern
                (full_mni_embeddings triangle_G xy_pattern)
                (Some (mkHeur triangle_G)) None) !! 0).

Lemma heuristics_only_prune_witness :
  raised (extensions triangle_G xy_pattern
            (full_mni_embeddings triangle_G xy_pattern) None None) = false
  ∧ xyz_pattern ∈ yielded (extensions triangle_G xy_pattern
                             (full_mni_embeddings triangle_G xy_pattern)
                             (Some (mkHeur triangle_G)) None)
  ∧ p_key xyz_pattern
    ∈ p_key <$> yielded (extensions triangle_G xy_pattern
                           (full_mni_embeddings triangle_G xy_pattern) None None).
Proof.
  split; [vm_compute; reflexivity|].
  split; [apply (list_elem_of_lookup_2 _ 0); vm_compute; reflexivity|].
  apply (heuristics_only_prune triangle_G xy_pattern
           (full_mni_embeddings triangle_G xy_pattern) None xyz_pattern).
  - vm_compute; reflexivity.
  - apply (list_elem_of_lookup_2 _ 0); vm_compute; reflexivity.
Defined.

(** ** The loops run to their end within their fuel *)

(** [del assignment[u_p]] after the recursive call of [backtrack] gives
    back the assignment of before [assignment[u_p] = u_g]: [u_p] was not
    assigned, the assignment order having no node twice. *)
Lemma backtrack_restores (assignment : gmap nat nat) (u_p u_g : nat) :
  assignment !! u_p = None →
  delete u_p (<[u_p := u_g]> assignment) = assignment.
Proof. intros H. by rewrite delete_insert_eq, delete_id. Qed.

(** The adjacency entries of the helper, each with its node. *)
Fixpoint entries_from (j : nat) (rows : list (list PNbr)) : list (nat * PNbr) :=
  match rows with
  | [] => []
  | r :: rs => (pair j <$> r) ++ entries_from (S j) rs
  end.

(** The number of adjacency entries whose key is not in [used]: it bounds
    the iterations the [while] loop of [_dfs_enumerate] still makes. *)
Definition unused (h : CanonDFSHelper) (used : list EdgeKey) : nat :=
  length (filter (λ ue : nat * PNbr,
                    norm_key (h_directed h) ue.1 ue.2.1.1 ue.2.1.2 ue.2.2 ∉ used)
                 (entries_from 0 (p_adj h))).

Lemma length_entries_from rows : ∀ j,
  length (entries_from j rows) = sum_list (length <$> rows).
Proof.
  induction rows as [|r rs IH]; intros j; [done|].
  cbn [entries_from fmap list_fmap sum_list_with].
  by rewrite length_app, length_fmap, IH.
Qed.

Lemma elem_of_entries_from rows u x : ∀ j i,
  rows !! i = Some x.1 → x.2 ∈ x.1 → u = j + i →
  (u, x.2) ∈ entries_from j rows.
Proof.
  induction rows as [|r rs IH]; intros j i Hi Hx ->; [done|].
  cbn [entries_from]. apply elem_of_app. destruct i as [|i].
  - left. cbn in Hi. injection Hi as ->. rewrite Nat.add_0_r.
    by apply list_elem_of_fmap_2.
  - right. apply (IH (S j) i); [done..|lia].
Qed.

Lemma unused_le h used : unused h used ≤ adj_size h.
Proof.
  unfold unused, adj_size. rewrite <- (length_entries_from _ 0).
  apply length_filter.
Qed.

Lemma length_filter_lt {A} (P Q : A → Prop) `{∀ x, Decision (P x)}
    `{∀ x, Decision (Q x)} (l : list A) (x : A) :
  (∀ y, Q y → P y) → x ∈ l → P x → ¬ Q x →
  length (filter Q l) < length (filter P l).
Proof.
  intros HQP. induction l as [|y l IH]; intros Hin HP HQ;
    [by apply elem_of_nil in Hin|].
  assert (Hle : length (filter Q l) ≤ length (filter P l)).
  { clear -HQP. induction l as [|z l IHl]; [done|].
    rewrite !filter_cons. destruct (decide (Q z)) as [Hq|].
    - rewrite decide_True by auto. cbn. lia.
    - destruct (decide (P z)); cbn; lia. }
  rewrite !filter_cons. apply elem_of_cons in Hin as [<-|Hin].
  - rewrite decide_False, decide_True by done. cbn. lia.
  - specialize (IH Hin HP HQ). destruct (decide (Q y)) as [Hq|].
    + rewrite decide_True by auto. cbn. lia.
    + destruct (decide (P y)); cbn; lia.
Qed.

Lemma first_min_elem h (fr : list FrontierEntry) : ∀ best t,
  foldl (λ best t,
           match best with
           | None => Some t
           | Some b =>
               match sort_key_cmp (sort_key h t) (sort_key h b) with
               | Lt => Some t
               | _ => best
               end
           end) best fr = Some t →
  best = Some t ∨ t ∈ fr.
Proof.
  induction fr as [|x fr IH]; intros best t; cbn [foldl]; [by left|].
  intros [Hb|Hin]%IH; [|right; by apply list_elem_of_further].
  destruct best as [b|].
  - destruct (sort_key_cmp _ _); [by left| |by left].
    injection Hb as <-. right. apply list_elem_of_here.
  - injection Hb as <-. right. apply list_elem_of_here.
Qed.

Lemma used_edges_push h u v el df st :
  used_edges (push_edge h u v el df st)
  = set_add (norm_key (h_directed h) u v el df) (used_edges st).
Proof.
  unfold push_edge. destruct (assign u _) as [uidx vis1].
  by destruct (assign v _) as [vidx vis2].
Qed.

(** One more unit of fuel does not change the result once the fuel
    exceeds the number of unused adjacency entries: the loop has left
    through one of its [break]s. *)
Lemma dfs_loop_stable h : ∀ fuel st,
  unused h (used_edges st) < fuel →
  dfs_loop fuel h st = dfs_loop (S fuel) h st.
Proof.
  induction fuel as [|fuel IH]; intros st Hlt; [lia|].
  cbn [dfs_loop]. destruct (superset _ _); [done|].
  destruct (first_min h (frontier h st)) as [[[[[[u v] el] df] uidx] vidx]|] eqn:Hmin;
    [|done].
  apply IH. rewrite used_edges_push.
  apply first_min_elem in Hmin as [?|Hin]; [done|].
  unfold frontier in Hin. apply elem_of_flat_map in Hin as ([i u'] & Hu & Hin).
  apply elem_of_flat_map in Hin as ([[v' el'] df'] & Hadj & Hin).
  destruct (decide (_ ∈ used_edges st)) as [|Hnew]; [by apply elem_of_nil in Hin|].
  apply list_elem_of_singleton in Hin. injection Hin as -> -> -> -> -> _.
  destruct (p_adj h !! u') as [row|] eqn:Hrow; [|by apply elem_of_nil in Hadj].
  cbn in Hadj.
  assert (unused h (set_add (norm_key (h_directed h) u' v' el' df') (used_edges st))
          < unused h (used_edges st)); [|lia].
  unfold unused.
  apply (length_filter_lt _ _ _ (u', (v', el', df'))).
  - intros ue Hue Hin. apply Hue. unfold set_add.
    destruct (decide _); [done|]. apply elem_of_app. by left.
  - by apply (elem_of_entries_from _ u' (row, (v', el', df')) 0 u').
  - done.
  - intros Hue. apply Hue. unfold set_add. cbn [fst snd].
    rewrite decide_False by done. apply elem_of_app. right. apply list_elem_of_here.
Qed.

(** The fuel of [dfs_enumerate] is enough: any larger amount gives the
    same code. *)
Lemma dfs_loop_fuel h st (extra : nat) :
  dfs_loop (S (adj_size h) + extra) h st = dfs_loop (S (adj_size h)) h st.
Proof.
  induction extra as [|extra IH]; [by rewrite Nat.add_0_r|].
  rewrite Nat.add_succ_r, <- IH. symmetry. apply dfs_loop_stable.
  pose proof (unused_le h (used_edges st)). lia.
Qed.

Lemma index_of_lt u vis : ∀ i, index_of u vis = Some i → i < length vis.
Proof.
  induction vis as [|x vis IH]; intros i; cbn [index_of]; [done|].
  destruct (decide (x = u)); [intros [= <-]; cbn; lia|].
  destruct (index_of u vis) as [k|]; [|done]. intros [= <-].
  specialize (IH k eq_refl). cbn. lia.
Qed.

Lemma index_of_app_l u vis vis' : ∀ i,
  index_of u vis = Some i → index_of u (vis ++ vis') = Some i.
Proof.
  induction vis as [|x vis IH]; intros i; cbn [index_of app]; [done|].
  destruct (decide (x = u)); [done|].
  destruct (index_of u vis) as [k|]; [|done]. by rewrite (IH k eq_refl).
Qed.

Lemma index_of_fresh u vis :
  u ∉ vis → index_of u (vis ++ [u]) = Some (length vis).
Proof.
  induction vis as [|x vis IH]; intros Hnin; cbn [index_of app].
  - by rewrite decide_True.
  - rewrite decide_False by (intros ->; apply Hnin, list_elem_of_here).
    rewrite IH; [done|]. intros ?. by apply Hnin, list_elem_of_further.
Qed.

Lemma index_of_elem u vis : u ∈ vis → is_Some (index_of u vis).
Proof.
  induction vis as [|x vis IH]; [by intros ?%elem_of_nil|].
  cbn [index_of]. destruct (decide (x = u)); [eauto|].
  intros [->|Hin]%elem_of_cons; [done|].
  destruct (IH Hin) as [k ->]. eauto.
Qed.

(** Every parent recorded by [_rmpath] was added to [seen] before its
    child. *)
Definition older (seen : list nat) (parent : gmap nat nat) : Prop :=
  ∀ to frm, parent !! to = Some frm →
    ∃ i j, index_of frm seen = Some i ∧ index_of to seen = Some j ∧ i < j.

Lemma older_app seen seen' parent : older seen parent → older (seen ++ seen') parent.
Proof.
  intros Hold to frm (i & j & Hi & Hj & Hlt)%Hold.
  exists i, j. split; [by apply index_of_app_l|]. split; [by apply index_of_app_l|done].
Qed.

Lemma rm_step_older seen parent t :
  older seen parent →
  older (rm_step (seen, parent) t).1 (rm_step (seen, parent) t).2
  ∧ length (rm_step (seen, parent) t).1 ≤ 2 + length seen.
Proof.
  intros Hold. destruct t as [[[[[frm to] ?] ?] ?] ?]. unfold rm_step.
  set (seen1 := if decide (frm ∈ seen) then seen else seen ++ [frm]).
  assert (Hold1 : older seen1 parent)
    by (subst seen1; destruct (decide _); [done|by apply older_app]).
  assert (Hfrm : frm ∈ seen1).
  { subst seen1. destruct (decide _); [done|].
    apply elem_of_app. right. apply list_elem_of_here. }
  assert (Hlen : length seen1 ≤ 1 + length seen).
  { subst seen1. destruct (decide _); [lia|]. rewrite length_app. cbn. lia. }
  destruct (decide (to ∈ seen1)) as [|Hto]; cbn [fst snd]; [split; [done|lia]|].
  split; [|rewrite length_app; cbn; lia].
  intros to' frm' [[<- <-]|[_ Hp]]%lookup_insert_Some.
  - destruct (index_of_elem frm seen1 Hfrm) as [i Hi].
    exists i, (length seen1). split; [by apply index_of_app_l|].
    split; [by apply index_of_fresh|by apply index_of_lt in Hi].
  - by apply (older_app seen1 [to] parent Hold1).
Qed.

Lemma rm_fold_older code : ∀ seen parent,
  older seen parent →
  older (foldl rm_step (seen, parent) code).1 (foldl rm_step (seen, parent) code).2
  ∧ length (foldl rm_step (seen, parent) code).1 ≤ 2 * length code + length seen.
Proof.
  induction code as [|t code IH]; intros seen parent Hold; cbn [foldl].
  - split; [done|cbn; lia].
  - destruct (rm_step_older seen parent t Hold) as [Hold' Hlen].
    destruct (rm_step (seen, parent) t) as [seen' parent'].
    destruct (IH seen' parent' Hold') as [? ?]. split; [done|].
    cbn [fst snd length] in *. lia.
Qed.

(** One more unit of fuel does not change the path once the fuel is at
    least the position of the last node in [seen]. *)
Lemma climb_stable seen parent : older seen parent →
  ∀ fuel last path,
    (∀ j, index_of last seen = Some j → j ≤ fuel) →
    climb fuel parent last path = climb (S fuel) parent last path.
Proof.
  intros Hold. induction fuel as [|fuel IH]; intros last path Hj.
  - cbn [climb]. destruct (parent !! last) as [up|] eqn:Hp; [|done].
    apply Hold in Hp as (i & j & _ & Hl & Hlt). specialize (Hj j Hl). lia.
  - cbn [climb]. destruct (parent !! last) as [up|] eqn:Hp; [|done].
    apply IH. intros i Hi.
    apply Hold in Hp as (i' & j & Hi' & Hl & Hlt). specialize (Hj j Hl).
    assert (i = i') by congruence. lia.
Qed.

(** The fuel of [rmpath] is enough: any larger amount gives the same
    path. *)
Lemma climb_fuel code last path (extra : nat) :
  let parent := (foldl rm_step ([], ∅) code).2 in
  climb (2 * length code + extra) parent last path
  = climb (2 * length code) parent last path.
Proof.
  intros parent.
  destruct (rm_fold_older code [] ∅) as [Hold Hlen].
  { intros to frm. by rewrite lookup_empty. }
  induction extra as [|extra IH]; [by rewrite Nat.add_0_r|].
  rewrite Nat.add_succ_r, <- IH. symmetry.
  apply (climb_stable _ _ Hold). intros j Hj%index_of_lt.
  cbn [length] in Hlen. lia.
Qed.

(** ** What the canonical key records *)

(** The key of a pattern edge in [edge_keys]. *)
Definition ekey (directed : bool) (e : Edge) : EdgeKey :=
  norm_key directed (edge_u e) (edge_v e) (edge_label e) 0.

(** The entries an edge [e] contributes to [p_adj[u]]. *)
Definition pentry (directed : bool) (e : Edge) (u : nat) (x : PNbr) : Prop :=
  x.1.2 = edge_label e
  ∧ ((edge_u e = u ∧ x.1.1 = edge_v e ∧ x.2 = (if directed then 1 else 0))
     ∨ (edge_v e = u ∧ x.1.1 = edge_u e ∧ x.2 = (if directed then 2 else 0))).

Lemma norm_key_tag d u v el t t' : norm_key d u v el t = norm_key d u v el t'.
Proof. reflexivity. Qed.

Lemma helper_step_Some d padj0 keys0 e padj1 keys1 :
  helper_step d (padj0, keys0) e = Some (padj1, keys1) →
  length padj1 = length padj0
  ∧ keys1 = set_add (ekey d e) keys0
  ∧ ∀ u x, x ∈ default [] (padj1 !! u)
           ↔ x ∈ default [] (padj0 !! u) ∨ pentry d e u x.
Proof.
  unfold helper_step, pentry, ekey, norm_key, PNbr in *. destruct d.
  - destruct (append_at (edge_u e) (edge_v e, edge_label e, 1) padj0)
      as [p1|] eqn:H1; [|discriminate]. cbn [mbind option_bind].
    destruct (append_at (edge_v e) (edge_u e, edge_label e, 2) p1)
      as [p2|] eqn:H2; [|discriminate]. cbn [mbind option_bind].
    apply append_at_Some in H1 as (? & ? & Hp1).
    apply append_at_Some in H2 as (? & ? & Hp2).
    intros [= <- <-]. split; [lia|]. split; [done|].
    intros u [[v l] t]. rewrite Hp2, Hp1, !elem_of_app, !elem_of_if_singleton.
    cbn. intuition (subst; cbn in *; auto; congruence).
  - destruct (append_at (edge_u e) (edge_v e, edge_label e, 0) padj0)
      as [p1|] eqn:H1; [|discriminate]. cbn [mbind option_bind].
    destruct (append_at (edge_v e) (edge_u e, edge_label e, 0) p1)
      as [p2|] eqn:H2; [|discriminate]. cbn [mbind option_bind].
    apply append_at_Some in H1 as (? & ? & Hp1).
    apply append_at_Some in H2 as (? & ? & Hp2).
    destruct (norm_pair _ _). intros [= <- <-]. split; [lia|]. split; [done|].
    intros u [[v l] t]. rewrite Hp2, Hp1, !elem_of_app, !elem_of_if_singleton.
    cbn. intuition (subst; cbn in *; auto; congruence).
Qed.

Lemma set_add_elem {A} `{EqDecision A} (k x : A) (s : list A) :
  x ∈ set_add k s ↔ x = k ∨ x ∈ s.
Proof.
  unfold set_add. destruct (decide (k ∈ s)).
  - split; [by right|]. intros [->|?]; done.
  - rewrite elem_of_app, list_elem_of_singleton. tauto.
Qed.

Lemma set_add_NoDup {A} `{EqDecision A} (k : A) (s : list A) :
  NoDup s → NoDup (set_add k s).
Proof.
  intros Hnd. unfold set_add. destruct (decide (k ∈ s)); [done|].
  apply NoDup_app. split; [done|]. split; [|apply NoDup_singleton].
  intros x Hx ->%list_elem_of_singleton. done.
Qed.

Lemma helper_loop_Some d es : ∀ padj0 keys0 padj1 keys1,
  helper_loop d (padj0, keys0) es = Some (padj1, keys1) →
  NoDup keys0 →
  NoDup keys1
  ∧ (∀ k, k ∈ keys1 ↔ k ∈ keys0 ∨ ∃ e, e ∈ es ∧ k = ekey d e)
  ∧ ∀ u x, x ∈ default [] (padj1 !! u)
           ↔ x ∈ default [] (padj0 !! u) ∨ ∃ e, e ∈ es ∧ pentry d e u x.
Proof.
  induction es as [|e es IH]; intros padj0 keys0 padj1 keys1; cbn [helper_loop].
  - intros [= <- <-] Hnd. split; [done|].
    split; [intros k|intros u x]; (split; [by left|]);
      (intros [?|(e & ?%elem_of_nil & _)]; done).
  - destruct (helper_step d (padj0, keys0) e) as [[pa ks]|] eqn:Hstep;
      [|discriminate].
    cbn [mbind option_bind]. intros Hloop Hnd.
    apply helper_step_Some in Hstep as (_ & -> & Hpa).
    apply IH in Hloop as (Hnd' & Hks & Hp); [|by apply set_add_NoDup].
    split; [done|]. split.
    + intros k. rewrite Hks, set_add_elem. split.
      * intros [[->|?]|(e' & ? & ?)]; [right|by left|right].
        -- exists e. split; [apply list_elem_of_here|done].
        -- exists e'. split; [by apply list_elem_of_further|done].
      * intros [?|(e' & [->|?]%elem_of_cons & ?)];
          [by left; right|by left; left|right; by exists e'].
    + intros u x. rewrite Hp, Hpa. split.
      * intros [[?|?]|(e' & ? & ?)]; [by left|right..].
        -- exists e. split; [apply list_elem_of_here|done].
        -- exists e'. split; [by apply list_elem_of_further|done].
      * intros [?|(e' & [->|?]%elem_of_cons & ?)];
          [by left; left|by left; right|right; by exists e'].
Qed.

(** *** Orders *)


(** A three-way comparison that decides equality and is a strict total
    order. *)
Record cmp_ok {A} (c : A → A → comparison) : Prop := {
  cmp_refl : ∀ x, c x x = Eq;
  cmp_eq : ∀ x y, c x y = Eq → x = y;
  cmp_anti : ∀ x y, c y x = CompOpp (c x y);
  cmp_trans : ∀ x y z, c x y = Lt → c y z = Lt → c x z = Lt
}.

Lemma nat_cmp_ok : cmp_ok Nat.compare.
Proof.
  split.
  - apply Nat.compare_refl.
  - apply Nat.compare_eq.
  - intros x y. apply Nat.compare_antisym.
  - intros x y z. rewrite !Nat.compare_lt_iff. lia.
Qed.

Lemma N_cmp_ok : cmp_ok N.compare.
Proof.
  split.
  - apply N.compare_refl.
  - apply N.compare_eq.
  - intros x y. apply N.compare_antisym.
  - intros x y z. rewrite !N.compare_lt_iff. lia.
Qed.

Lemma string_cmp_ok : cmp_ok String.compare.
Proof.
  split.
  - intros x. by apply OrderedTypeEx.String_as_OT.cmp_eq.
  - apply String.compare_eq_iff.
  - intros x y. apply OrderedTypeEx.String_as_OT.cmp_antisym.
  - intros x y z Hxy Hyz. apply OrderedTypeEx.String_as_OT.cmp_lt.
    eapply OrderedTypeEx.String_as_OT.lt_trans;
      by apply OrderedTypeEx.String_as_OT.cmp_lt.
Qed.

(** The lexicographic product of two such comparisons is one. *)
Lemma lex_cmp_ok {A B} (c1 : A → A → comparison) (c2 : B → B → comparison) :
  cmp_ok c1 → cmp_ok c2 →
  cmp_ok (λ x y : A * B, lex (c1 x.1 y.1) (c2 x.2 y.2)).
Proof.
  intros [r1 e1 a1 t1] [r2 e2 a2 t2]. split.
  - intros [a b]. cbn. by rewrite r1, r2.
  - intros [a b] [a' b']. cbn. destruct (c1 a a') eqn:H1; cbn; try done.
    intros H2. by rewrite (e1 _ _ H1), (e2 _ _ H2).
  - intros [a b] [a' b']. cbn. rewrite (a1 a a'), (a2 b b').
    by destruct (c1 a a').
  - intros [a b] [a' b'] [a'' b'']. cbn.
    destruct (c1 a a') eqn:H1, (c1 a' a'') eqn:H2; cbn; try done.
    + apply e1 in H1 as ->. apply e1 in H2 as ->. rewrite r1. apply t2.
    + apply e1 in H1 as ->. by rewrite H2.
    + apply e1 in H2 as <-. by rewrite H1.
    + by rewrite (t1 _ _ _ H1 H2).
Qed.

(** What the minimum of a list is, for such a comparison of keys. *)
Lemma cmp_le_trans {A} (c : A → A → comparison) : cmp_ok c →
  ∀ x y z, c x y ≠ Gt → c y z ≠ Gt → c x z ≠ Gt.
Proof.
  intros [r e a t] x y z Hxy Hyz.
  destruct (c x y) eqn:H1; [|clear Hxy|done].
  - by apply e in H1 as ->.
  - destruct (c y z) eqn:H2; [| |done].
    + apply e in H2 as <-. by rewrite H1.
    + by rewrite (t _ _ _ H1 H2).
Qed.

Lemma sort_key_cmp_ok : cmp_ok sort_key_cmp.
Proof.
  assert (H : cmp_ok (λ x y : SortKey,
    lex (lex (lex (lex (lex (lex (Nat.compare x.1.1.1.1.1.1 y.1.1.1.1.1.1)
      (String.compare x.1.1.1.1.1.2 y.1.1.1.1.1.2))
      (String.compare x.1.1.1.1.2 y.1.1.1.1.2))
      (Nat.compare x.1.1.1.2 y.1.1.1.2))
      (String.compare x.1.1.2 y.1.1.2))
      (Nat.compare x.1.2 y.1.2))
      (N.compare x.2 y.2))).
  { pose proof (lex_cmp_ok _ _ nat_cmp_ok string_cmp_ok) as H2.
    pose proof (lex_cmp_ok _ _ H2 string_cmp_ok) as H3.
    pose proof (lex_cmp_ok _ _ H3 nat_cmp_ok) as H4.
    pose proof (lex_cmp_ok _ _ H4 string_cmp_ok) as H5.
    pose proof (lex_cmp_ok _ _ H5 nat_cmp_ok) as H6.
    exact (lex_cmp_ok _ _ H6 N_cmp_ok). }
  assert (Heq : ∀ x y : SortKey, sort_key_cmp x y
    = lex (lex (lex (lex (lex (lex (Nat.compare x.1.1.1.1.1.1 y.1.1.1.1.1.1)
      (String.compare x.1.1.1.1.1.2 y.1.1.1.1.1.2))
      (String.compare x.1.1.1.1.2 y.1.1.1.1.2))
      (Nat.compare x.1.1.1.2 y.1.1.1.2))
      (String.compare x.1.1.2 y.1.1.2))
      (Nat.compare x.1.2 y.1.2))
      (N.compare x.2 y.2)).
  { intros [[[[[[a1 a2] a3] a4] a5] a6] a7] [[[[[[b1 b2] b3] b4] b5] b6] b7].
    unfold sort_key_cmp. cbn [fst snd].
    destruct (a1 ?= b1), (a2 ?= b2)%string, (a3 ?= b3)%string, (a4 ?= b4),
      (a5 ?= b5)%string, (a6 ?= b6); reflexivity. }
  destruct H as [r e a t]. split.
  - intros x. rewrite Heq. apply r.
  - intros x y. rewrite Heq. apply e.
  - intros x y. rewrite !Heq. apply a.
  - intros x y z. rewrite !Heq. apply t.
Qed.

(** [first_min] returns an entry of the frontier with a least key. *)
Lemma first_min_least h (fr : list FrontierEntry) m :
  first_min h fr = Some m →
  m ∈ fr ∧ ∀ x, x ∈ fr → sort_key_cmp (sort_key h x) (sort_key h m) ≠ Lt.
Proof.
  unfold first_min.
  set (step := λ (best : option FrontierEntry) t,
         match best with
         | None => Some t
         | Some b => match sort_key_cmp (sort_key h t) (sort_key h b) with
                     | Lt => Some t
                     | _ => best
                     end
         end).
  set (le := λ x y : FrontierEntry,
         sort_key_cmp (sort_key h x) (sort_key h y) ≠ Gt).
  assert (Hle_trans : ∀ x y z, le x y → le y z → le x z).
  { intros x y z. apply (cmp_le_trans _ sort_key_cmp_ok). }
  assert (Hnlt : ∀ x y, sort_key_cmp (sort_key h x) (sort_key h y) ≠ Lt ↔ le y x).
  { intros x y. unfold le. rewrite (cmp_anti _ sort_key_cmp_ok (sort_key h x)).
    destruct (sort_key_cmp (sort_key h x) (sort_key h y)); cbn; split; done. }
  assert (Hgen : ∀ fr best m, foldl step best fr = Some m →
            (from_option (λ b, m = b) False best ∨ m ∈ fr)
            ∧ from_option (λ b, le m b) True best
            ∧ ∀ x, x ∈ fr → le m x).
  { clear fr m. induction fr as [|t fr IH]; intros best m; cbn [foldl].
    - intros ->. split; [by left|]. split; [|by intros x ?%elem_of_nil].
      cbn. unfold le. by rewrite (cmp_refl _ sort_key_cmp_ok).
    - intros (Hin & Hb & Hall)%IH. destruct best as [b|]; cbn in *.
      + destruct (sort_key_cmp (sort_key h t) (sort_key h b)) eqn:Hc; cbn in *.
        * split; [destruct Hin as [?|?]; [by left|right; by apply list_elem_of_further]|].
          split; [done|]. intros x [->|?]%elem_of_cons; [|by apply Hall].
          apply (Hle_trans _ b); [done|]. apply Hnlt. by rewrite Hc.
        * split; [destruct Hin as [->|?]; right;
                  [apply list_elem_of_here|by apply list_elem_of_further]|].
          split; [|intros x [->|?]%elem_of_cons; [done|by apply Hall]].
          apply (Hle_trans _ t); [done|]. unfold le. by rewrite Hc.
        * split; [destruct Hin as [?|?]; [by left|right; by apply list_elem_of_further]|].
          split; [done|]. intros x [->|?]%elem_of_cons; [|by apply Hall].
          apply (Hle_trans _ b); [done|]. apply Hnlt. by rewrite Hc.
      + split; [|split; [done|]].
        * destruct Hin as [->|?]; right;
            [apply list_elem_of_here|by apply list_elem_of_further].
        * intros x [->|?]%elem_of_cons; [done|by apply Hall]. }
  intros (Hin & _ & Hall)%Hgen. split.
  - destruct Hin as [[]|?]; done.
  - intros x Hx. apply Hnlt. by apply Hall.
Qed.

(** *** The helper built from a pattern *)

Lemma index_of_lookup u vis : ∀ i, index_of u vis = Some i → vis !! i = Some u.
Proof.
  induction vis as [|x vis IH]; intros i; cbn [index_of]; [done|].
  destruct (decide (x = u)) as [->|]; [by intros [= <-]|].
  destruct (index_of u vis) as [k|]; [|done]. intros [= <-]. by apply IH.
Qed.

Lemma index_of_NoDup u vis i :
  NoDup vis → vis !! i = Some u → index_of u vis = Some i.
Proof.
  intros Hnd Hi.
  destruct (index_of_elem u vis (list_elem_of_lookup_2 _ _ _ Hi)) as [j Hj].
  rewrite Hj. f_equal. apply index_of_lookup in Hj.
  by eapply NoDup_lookup.
Qed.

Lemma index_of_Some_elem u vis i : index_of u vis = Some i → u ∈ vis.
Proof. intros H%index_of_lookup. by eapply list_elem_of_lookup_2. Qed.

(** [assign] extends [visited] by the node when it is new. *)
Lemma assign_spec u vis i vis' :
  assign u vis = (i, vis') → NoDup vis →
  NoDup vis' ∧ index_of u vis' = Some i
  ∧ ∃ tail, vis' = vis ++ tail ∧ ∀ w, w ∈ tail → w = u.
Proof.
  unfold assign. destruct (index_of u vis) as [k|] eqn:Hk.
  - intros [= <- <-] Hnd. split; [done|]. split; [done|].
    exists []. split; [by rewrite app_nil_r|]. by intros w ?%elem_of_nil.
  - intros [= <- <-] Hnd.
    assert (u ∉ vis).
    { intros [k' Hk']%index_of_elem. congruence. }
    split; [|split].
    + apply NoDup_app. split; [done|]. split; [|apply NoDup_singleton].
      intros w Hw ->%list_elem_of_singleton. done.
    + by apply index_of_fresh.
    + exists [u]. split; [done|]. by intros w ->%list_elem_of_singleton.
Qed.

(** Two pattern nodes joined by an edge, in either direction. *)
Definition adjacent (es : list Edge) (a b : nat) : Prop :=
  ∃ e, e ∈ es ∧ ((edge_u e = a ∧ edge_v e = b) ∨ (edge_u e = b ∧ edge_v e = a)).

(** Invariant P2: the underlying undirected graph is connected. *)
Definition connected (vl : list string) (es : list Edge) : Prop :=
  ∀ a b, a < length vl → b < length vl → rtc (adjacent es) a b.

Lemma norm_key_inj d u v el t u' v' el' t' :
  norm_key d u v el t = norm_key d u' v' el' t' →
  el = el' ∧ ((u = u' ∧ v = v') ∨ (d = false ∧ u = v' ∧ v = u')).
Proof.
  unfold norm_key, norm_pair. destruct d.
  - intros [= -> -> ->]. split; [done|by left].
  - destruct (decide (u ≤ v)), (decide (u' ≤ v')); intros [= -> -> ->];
      (split; [done|]); auto.
Qed.

Lemma norm_key_swap u v el t t' : norm_key false u v el t = norm_key false v u el t'.
Proof.
  unfold norm_key, norm_pair.
  destruct (decide (u ≤ v)), (decide (v ≤ u)); try done; [|lia].
  by assert (u = v) as -> by lia.
Qed.

Lemma first_min_None h (fr : list FrontierEntry) :
  first_min h fr = None → fr = [].
Proof.
  destruct fr as [|x fr]; [done|]. unfold first_min. cbn [foldl].
  intros H. exfalso. revert x H.
  induction fr as [|y fr IH]; intros b; cbn [foldl]; [done|].
  destruct (sort_key_cmp _ _); apply IH.
Qed.

(** The components of a code tuple. *)
Definition t_i (t : CodeTuple) : nat := t.1.1.1.1.1.
Definition t_j (t : CodeTuple) : nat := t.1.1.1.1.2.
Definition t_lu (t : CodeTuple) : string := t.1.1.1.2.
Definition t_el (t : CodeTuple) : string := t.1.1.2.
Definition t_lv (t : CodeTuple) : string := t.1.2.
Definition t_df (t : CodeTuple) : nat := t.2.

(** The vertex labels a code records: the number of discovery indices it
    mentions, and the label it gives to each. *)
Definition code_nodes (C : list CodeTuple) : nat :=
  length (remove_dups (flat_map (λ t, [t_i t; t_j t]) C)).

Fixpoint code_label (C : list CodeTuple) (i : nat) : string :=
  match C with
  | [] => ""
  | t :: C' =>
      if decide (t_i t = i) then t_lu t
      else if decide (t_j t = i) then t_lv t
      else code_label C' i
  end.

Definition code_vlabels (C : list CodeTuple) : list string :=
  code_label C <$> seq 0 (code_nodes C).

(** An edge type at the level of labels: the labels of the two ends and
    the edge label, an absent edge label read as the empty string; the ends
    are ordered for an undirected edge. *)
Definition norm_type (d : bool) (lu el lv : string) : string * string * string :=
  if d then (lu, el, lv)
  else let '(a, b) := norm_labels lu lv in (a, el, b).

(** The edge types a code records: those of its tuples that are not
    incoming edges read backwards. *)
Definition code_types (d : bool) (C : list CodeTuple)
  : list (string * string * string) :=
  (λ t, norm_type d (t_lu t) (t_el t) (t_lv t)) <$> filter (λ t, t_df t ≠ 2) C.

(** The edge types of a pattern, one for each distinct edge. *)
Definition key_type (d : bool) (vl : list string) (k : EdgeKey)
  : string * string * string :=
  norm_type d (default "" (vl !! k.1.1.1)) (default "" k.1.2)
            (default "" (vl !! k.1.1.2)).

Definition edge_types (d : bool) (vl : list string) (es : list Edge)
  : list (string * string * string) :=
  key_type d vl <$> remove_dups (ekey d <$> es).

Lemma norm_labels_comm a b : norm_labels a b = norm_labels b a.
Proof.
  unfold norm_labels.
  destruct (a <=? b)%string eqn:Hab, (b <=? a)%string eqn:Hba; try done.
  - by rewrite (String.leb_antisym _ _ Hab Hba).
  - destruct (String.leb_total a b); congruence.
Qed.

Lemma key_type_norm_key d vl u v el tag :
  key_type d vl (norm_key d u v el tag)
  = norm_type d (default "" (vl !! u)) (default "" el) (default "" (vl !! v)).
Proof.
  unfold key_type, norm_key, norm_pair, norm_type. destruct d; [done|].
  destruct (decide (u ≤ v)); cbn [fst snd]; [done|].
  by rewrite norm_labels_comm.
Qed.

Lemma code_label_spec (C : list CodeTuple) (i : nat) (lab : string) :
  (∀ t, t ∈ C → (t_i t = i → t_lu t = lab) ∧ (t_j t = i → t_lv t = lab)) →
  (∃ t, t ∈ C ∧ (t_i t = i ∨ t_j t = i)) →
  code_label C i = lab.
Proof.
  induction C as [|t C IH]; intros Hall (t' & Hin & Hm);
    [by apply elem_of_nil in Hin|].
  cbn [code_label].
  destruct (Hall t (list_elem_of_here _ _)) as [Hi Hj].
  destruct (decide (t_i t = i)); [auto|].
  destruct (decide (t_j t = i)); [auto|].
  apply IH.
  - intros t'' ?. by apply Hall, list_elem_of_further.
  - apply elem_of_cons in Hin as [->|?]; [tauto|by exists t'].
Qed.

(** Two lists in lockstep, filtered alike and mapped alike. *)
Lemma filter_fmap_lockstep {A B C} (P : A → Prop) (Q : B → Prop)
    `{∀ x, Decision (P x)} `{∀ y, Decision (Q y)} (f : A → C) (g : B → C)
    (l : list A) (k : list B) :
  Forall2 (λ x y, (P x ↔ Q y) ∧ (P x → f x = g y)) l k →
  f <$> filter P l = g <$> filter Q k.
Proof.
  induction 1 as [|x y l k [Hpq Hfg] _ IH]; [done|].
  rewrite !filter_cons. destruct (decide (P x)) as [Hp|Hp].
  - rewrite decide_True by tauto. cbn [fmap list_fmap]. rewrite (Hfg Hp).
    f_equal. exact IH.
  - rewrite decide_False by tauto. exact IH.
Qed.

Lemma fmap_lookup_seq {A} (f : nat → A) (l : list A) :
  (∀ i, i < length l → l !! i = Some (f i)) → l = f <$> seq 0 (length l).
Proof.
  intros Hl. apply list_eq. intros i. rewrite list_lookup_fmap.
  destruct (decide (i < length l)).
  - rewrite lookup_seq_lt by done. cbn. by apply Hl.
  - rewrite lookup_seq_ge by lia. cbn. apply lookup_ge_None. lia.
Qed.

Lemma insert_key_perm k l : insert_key k l ≡ₚ k :: l.
Proof.
  induction l as [|x l IH]; cbn [insert_key]; [done|].
  destruct (key_leb k x); [done|]. rewrite IH. apply Permutation_swap.
Qed.

Lemma sorted_keys_perm ks l : sorted_keys ks = Some l → l ≡ₚ ks.
Proof.
  unfold sorted_keys. destruct (forallb _ _); [|discriminate]. intros [= <-].
  induction ks as [|k ks IH]; [done|]. cbn [foldr].
  by rewrite insert_key_perm, IH.
Qed.

(** The best code is the code of one of the seeds. *)
Lemma best_code h (seeds : list EdgeKey) : ∀ best C,
  foldl (best_step h) best seeds = Some C →
  best = Some C
  ∨ ∃ su sv el df, (su, sv, el, df) ∈ seeds ∧ C = dfs_enumerate h su sv el df.
Proof.
  induction seeds as [|[[[su sv] el] df] seeds IH]; intros best C; cbn [foldl].
  - by left.
  - intros [Hb|(su' & sv' & el' & df' & Hin & ->)]%IH.
    + unfold best_step in Hb. destruct best as [b|].
      * destruct (code_ltb _ b); [|by left].
        injection Hb as <-. right. exists su, sv, el, df.
        split; [apply list_elem_of_here|done].
      * injection Hb as <-. right. exists su, sv, el, df.
        split; [apply list_elem_of_here|done].
    + right. exists su', sv', el', df'. split; [by apply list_elem_of_further|done].
Qed.

Lemma best_code_Some h (seeds : list EdgeKey) best :
  seeds ≠ [] ∨ is_Some best → is_Some (foldl (best_step h) best seeds).
Proof.
  revert best. induction seeds as [|[[[su sv] el] df] seeds IH]; intros best.
  - intros [?|?]; done.
  - intros _. cbn [foldl]. apply IH. right. unfold best_step.
    destruct best as [b|]; [destruct (code_ltb _ b)|]; eauto.
Qed.

Section CanonicalCode.
Variables (d : bool) (vl : list string) (es : list Edge) (h : CanonDFSHelper).
Hypothesis Hh : helper_init d vl es = Some h.

Lemma helper_fields : h_directed h = d ∧ h_vlabels h = vl.
Proof.
  revert Hh. unfold helper_init.
  destruct (helper_loop _ _ _) as [[pa ks]|]; [|discriminate].
  cbn. by intros [= <-].
Qed.

Lemma padj_elem u x :
  x ∈ default [] (p_adj h !! u) ↔ ∃ e, e ∈ es ∧ pentry d e u x.
Proof.
  revert Hh. unfold helper_init.
  destruct (helper_loop _ _ _) as [[pa ks]|] eqn:Hloop; [|discriminate].
  cbn. intros [= <-]. cbn.
  apply helper_loop_Some in Hloop as (_ & _ & Hp); [|apply NoDup_nil_2].
  rewrite Hp. split; [|by right]. intros [H|H]; [|done]. exfalso.
  destruct (replicate _ _ !! u) as [l|] eqn:Hl; cbn in H.
  - apply lookup_replicate in Hl as [-> _]. by apply elem_of_nil in H.
  - by apply elem_of_nil in H.
Qed.

Lemma keys_elem k : k ∈ edge_keys h ↔ ∃ e, e ∈ es ∧ k = ekey d e.
Proof.
  revert Hh. unfold helper_init.
  destruct (helper_loop _ _ _) as [[pa ks]|] eqn:Hloop; [|discriminate].
  cbn. intros [= <-]. cbn.
  apply helper_loop_Some in Hloop as (_ & Hk & _); [|apply NoDup_nil_2].
  rewrite Hk, elem_of_nil. tauto.
Qed.

Lemma keys_NoDup : NoDup (edge_keys h).
Proof.
  revert Hh. unfold helper_init.
  destruct (helper_loop _ _ _) as [[pa ks]|] eqn:Hloop; [|discriminate].
  cbn. intros [= <-]. cbn.
  by apply helper_loop_Some in Hloop as (? & _ & _); [|apply NoDup_nil_2].
Qed.

Lemma es_range e :
  e ∈ es → edge_u e < length vl ∧ edge_v e < length vl.
Proof.
  revert Hh. unfold helper_init.
  destruct (helper_loop _ _ _) as [[pa ks]|] eqn:Hloop; [|discriminate].
  intros _. apply helper_loop_in_range in Hloop as [_ Hrange].
  rewrite length_replicate in Hrange. apply Hrange.
Qed.

(** An adjacency entry joins two nodes of the pattern. *)
Lemma padj_range u v el tag :
  (v, el, tag) ∈ default [] (p_adj h !! u) → u < length vl ∧ v < length vl.
Proof.
  intros (e & He & _ & Hc)%padj_elem. destruct (es_range e He).
  cbn in Hc. destruct Hc as [(<- & -> & _)|(<- & -> & _)]; done.
Qed.

(** The tuple [t] and the key [k] that one [push_edge] appends to [code]
    and adds to [used_edges], for an adjacency entry of a node; an entry
    tagged 2 (an incoming edge read backwards) is pushed only under a key
    that is not the key of an edge. *)
Definition emitted (vis : list nat) (t : CodeTuple) (k : EdgeKey) : Prop :=
  ∃ u v el tag i j,
    (v, el, tag) ∈ default [] (p_adj h !! u)
    ∧ k = norm_key d u v el tag
    ∧ index_of u vis = Some i ∧ index_of v vis = Some j
    ∧ t = (i, j, hlabel h u, default "" el, hlabel h v, tag)
    ∧ (tag = 2 → k ∉ edge_keys h).

(** The tuple [t] gives the label [lab] to the discovery index [i]. *)
Definition mentions (t : CodeTuple) (i : nat) (lab : string) : Prop :=
  (t.1.1.1.1.1 = i ∧ t.1.1.1.2 = lab) ∨ (t.1.1.1.1.2 = i ∧ t.1.2 = lab).

(** The invariant of the loop of [_dfs_enumerate]. *)
Definition dfs_inv (st : DfsState) : Prop :=
  NoDup (visited st)
  ∧ NoDup (used_edges st)
  ∧ Forall2 (emitted (visited st)) (code st) (used_edges st)
  ∧ (∀ w, w ∈ visited st → w < length vl)
  ∧ (∀ w, w ∈ visited st →
       ∃ t i, t ∈ code st ∧ index_of w (visited st) = Some i
              ∧ mentions t i (hlabel h w)).

Lemma emitted_app vis tail t k : emitted vis t k → emitted (vis ++ tail) t k.
Proof.
  intros (u & v & el & tag & i & j & ? & ? & ? & ? & ? & ?).
  exists u, v, el, tag, i, j. repeat (split; [done|]).
  split; [by apply index_of_app_l|]. split; [by apply index_of_app_l|done].
Qed.

(** [push_edge] for an entry with a new key keeps the invariant. *)
Lemma push_inv st u v el tag :
  dfs_inv st →
  (v, el, tag) ∈ default [] (p_adj h !! u) →
  norm_key d u v el tag ∉ used_edges st →
  (tag = 2 → norm_key d u v el tag ∉ edge_keys h) →
  dfs_inv (push_edge h u v el tag st)
  ∧ (∀ w, w ∈ visited st → w ∈ visited (push_edge h u v el tag st))
  ∧ u ∈ visited (push_edge h u v el tag st).
Proof.
  intros (Hnd & Hndu & Hf2 & Hr & Hm) Hent Hnew Htag.
  destruct helper_fields as [Hd _].
  unfold push_edge. rewrite Hd.
  destruct (assign u (visited st)) as [i vis1] eqn:Hau.
  destruct (assign v vis1) as [j vis2] eqn:Hav.
  apply assign_spec in Hau as (Hnd1 & Hi & tail1 & -> & Ht1); [|done].
  apply assign_spec in Hav as (Hnd2 & Hj & tail2 & -> & Ht2); [|done].
  destruct (padj_range _ _ _ _ Hent) as [Hur Hvr].
  unfold set_add. rewrite decide_False by done.
  split; [|split].
  - split; [done|]. split; [|split; [|split]]; cbn [visited used_edges code].
    + apply NoDup_app. split; [done|]. split; [|apply NoDup_singleton].
      intros k Hk ->%list_elem_of_singleton. done.
    + apply Forall2_app.
      * eapply Forall2_impl; [exact Hf2|]. intros t k Hem.
        rewrite <- app_assoc. by apply emitted_app.
      * constructor; [|constructor].
        exists u, v, el, tag, i, j. repeat (split; [done|]).
        split; [by apply index_of_app_l|done].
    + intros w [[?|?%Ht1]%elem_of_app|?%Ht2]%elem_of_app; [by apply Hr|by subst..].
    + intros w [[Hw|Hw%Ht1]%elem_of_app|Hw%Ht2]%elem_of_app.
      * destruct (Hm w Hw) as (t & i' & ? & ? & ?). exists t, i'.
        split; [apply elem_of_app; by left|]. split; [|done].
        rewrite <- app_assoc. by apply index_of_app_l.
      * subst w. eexists _, i. split; [apply elem_of_app; right; apply list_elem_of_here|].
        split; [by apply index_of_app_l|]. by left.
      * subst w. eexists _, j. split; [apply elem_of_app; right; apply list_elem_of_here|].
        split; [done|]. by right.
  - cbn [visited]. intros w Hw. apply elem_of_app. left. apply elem_of_app. by left.
  - cbn [visited]. apply elem_of_app. left. by eapply index_of_Some_elem.
Qed.

(** The entries of the frontier. *)
Lemma frontier_elem st u v el tag uidx vidx :
  (u, v, el, tag, uidx, vidx) ∈ frontier h st
  ↔ visited st !! uidx = Some u
    ∧ (v, el, tag) ∈ default [] (p_adj h !! u)
    ∧ (norm_key d u v el tag ∉ used_edges st)
    ∧ vidx = match index_of v (visited st) with
             | Some i => N.of_nat i
             | None => sentinel
             end.
Proof.
  destruct helper_fields as [Hd _].
  unfold frontier. rewrite Hd, elem_of_flat_map. split.
  - intros ([i u'] & Hiu & Hin).
    apply list_elem_of_lookup in Hiu as [k Hk].
    rewrite list_lookup_imap in Hk.
    destruct (visited st !! k) as [w|] eqn:Hw; [|done]. injection Hk as <- <-.
    apply elem_of_flat_map in Hin as ([[v' el'] tag'] & Hent & Hin).
    destruct (decide _) as [|Hnew]; [by apply elem_of_nil in Hin|].
    apply list_elem_of_singleton in Hin. injection Hin as -> -> -> -> -> ->.
    done.
  - intros (Hu & Hent & Hnew & ->). exists (uidx, u). split.
    + apply list_elem_of_lookup. exists uidx. by rewrite list_lookup_imap, Hu.
    + apply elem_of_flat_map. exists (v, el, tag). split; [done|].
      rewrite decide_False by done. apply list_elem_of_here.
Qed.

(** The entry the loop picks keeps the invariant: an entry tagged 2 whose
    key is the key of an edge has the entry of that edge, tagged 1, beside
    it in the frontier, with a smaller sort key. *)
Lemma step_inv st u v el tag uidx vidx :
  dfs_inv st →
  first_min h (frontier h st) = Some (u, v, el, tag, uidx, vidx) →
  dfs_inv (push_edge h u v el tag st)
  ∧ (∀ w, w ∈ visited st → w ∈ visited (push_edge h u v el tag st)).
Proof.
  intros Hinv [Hin Hleast]%first_min_least.
  apply frontier_elem in Hin as (Hu & Hent & Hnew & Hvidx).
  destruct (push_inv st u v el tag) as (? & ? & _); [done..| |done].
  intros -> Hkey.
  apply padj_elem in Hent as (e & He & _ & Hc). cbn in Hc.
  assert (d = true) as Hd.
  { clear -Hc. destruct d, Hc as [(_ & _ & ?)|(_ & _ & ?)]; done. }
  apply keys_elem in Hkey as (e' & He' & Hk).
  unfold ekey, norm_key in Hk. rewrite Hd in Hk. injection Hk as Hu' Hv' Hl'.
  assert (Hent' : (v, el, 1) ∈ default [] (p_adj h !! u)).
  { apply padj_elem. exists e'. split; [done|]. split; [done|]. left.
    rewrite Hd. done. }
  assert (Hin' : (u, v, el, 1, uidx, vidx) ∈ frontier h st).
  { apply frontier_elem. done. }
  apply Hleast in Hin'. apply Hin'.
  unfold sort_key, sort_key_cmp.
  rewrite !Nat.compare_refl, !(cmp_refl _ string_cmp_ok). reflexivity.
Qed.

(** With fuel above the number of unused entries the loop returns the code
    of a state that satisfies the invariant and one of the two [break]
    conditions. *)
Lemma dfs_loop_exit : ∀ fuel st,
  unused h (used_edges st) < fuel → dfs_inv st →
  ∃ st', dfs_inv st'
    ∧ dfs_loop fuel h st = code st'
    ∧ (∀ w, w ∈ visited st → w ∈ visited st')
    ∧ (superset (used_edges st') (edge_keys h) = true ∨ frontier h st' = []).
Proof.
  induction fuel as [|fuel IH]; intros st Hlt Hinv; [lia|].
  cbn [dfs_loop]. destruct (superset _ _) eqn:Hsup.
  { exists st. repeat (split; [done|]). by left. }
  destruct (first_min h (frontier h st))
    as [[[[[[u v] el] tag] uidx] vidx]|] eqn:Hmin.
  - destruct (step_inv _ _ _ _ _ _ _ Hinv Hmin) as [Hinv' Hsub].
    destruct (IH (push_edge h u v el tag st)) as (st' & ? & ? & Hsub' & ?);
      [|done|].
    + rewrite used_edges_push.
      apply first_min_least in Hmin as [Hin _].
      apply frontier_elem in Hin as (Hu & Hent & Hnew & _).
      destruct helper_fields as [Hd _]. rewrite Hd.
      assert (unused h (set_add (norm_key d u v el tag) (used_edges st))
              < unused h (used_edges st)); [|lia].
      unfold unused. rewrite Hd.
      destruct (p_adj h !! u) as [row|] eqn:Hrow; [|by apply elem_of_nil in Hent].
      apply (length_filter_lt _ _ _ (u, (v, el, tag))).
      * intros ue Hue Hin. apply Hue, set_add_elem. by right.
      * by apply (elem_of_entries_from _ u (row, (v, el, tag)) 0 u).
      * done.
      * intros Hue. apply Hue, set_add_elem. by left.
    + exists st'. repeat (split; [done|]). split; [|done].
      intros w Hw. by apply Hsub', Hsub.
  - exists st. repeat (split; [done|]). right.
    by apply (first_min_None h).
Qed.

(** Every used key was pushed for an entry between two visited nodes. *)
Lemma used_endpoints st u v el t :
  dfs_inv st → norm_key d u v el t ∈ used_edges st →
  u ∈ visited st ∧ v ∈ visited st.
Proof.
  intros (_ & _ & Hf2 & _) [n Hn]%list_elem_of_lookup.
  destruct (Forall2_lookup_r _ _ _ _ _ Hf2 Hn)
    as (tp & _ & u' & v' & el' & t' & i & j & _ & Hk & Hi & Hj & _).
  apply index_of_Some_elem in Hi, Hj.
  apply norm_key_inj in Hk as [_ [[-> ->]|(_ & -> & ->)]]; done.
Qed.

Lemma adjacent_entry a b :
  adjacent es a b → ∃ el tag, (b, el, tag) ∈ default [] (p_adj h !! a).
Proof.
  intros (e & He & Hc). destruct Hc as [[Hu Hv]|[Hu Hv]].
  - exists (edge_label e), (if d then 1 else 0). apply padj_elem.
    exists e. split; [done|]. split; [done|]. left. done.
  - exists (edge_label e), (if d then 2 else 0). apply padj_elem.
    exists e. split; [done|]. split; [done|]. right. done.
Qed.

(** With an empty frontier the visited nodes are closed under adjacency. *)
Lemma closed_visited st a b :
  dfs_inv st → frontier h st = [] →
  a ∈ visited st → adjacent es a b → b ∈ visited st.
Proof.
  intros Hinv Hfr [i Hi]%list_elem_of_lookup (el & tag & Hent)%adjacent_entry.
  destruct (decide (norm_key d a b el tag ∈ used_edges st)) as [Hk|Hk].
  - by apply (used_endpoints st a b el tag).
  - assert ((a, b, el, tag, i,
             match index_of b (visited st) with
             | Some i => N.of_nat i
             | None => sentinel
             end) ∈ frontier h st) as Hin by by apply frontier_elem.
    rewrite Hfr in Hin. by apply elem_of_nil in Hin.
Qed.

Hypothesis Hconn : connected vl es.
Hypothesis Hne : es ≠ [].

(** In a connected pattern with an edge every node has an edge. *)
Lemma incident_all b : b < length vl → ∃ e, e ∈ es ∧ (edge_u e = b ∨ edge_v e = b).
Proof.
  intros Hb.
  assert (∃ e0, e0 ∈ es) as [e0 He0].
  { clear -Hne. destruct es; [done|]. eexists. apply list_elem_of_here. }
  destruct (es_range e0 He0) as [Hu _].
  pose proof (Hconn b (edge_u e0) Hb Hu) as Hrtc.
  destruct (rtc_inv _ _ Hrtc) as [->|(c & (e & He & Hc) & _)].
  - exists e0. split; [done|by left].
  - exists e. split; [done|]. destruct Hc as [[? _]|[_ ?]]; auto.
Qed.

(** At a [break] of the loop every key is used and every node visited. *)
Lemma exit_all st :
  dfs_inv st → visited st ≠ [] →
  superset (used_edges st) (edge_keys h) = true ∨ frontier h st = [] →
  (∀ k, k ∈ edge_keys h → k ∈ used_edges st)
  ∧ (∀ b, b < length vl → b ∈ visited st).
Proof.
  intros Hinv Hvis [Hsup|Hfr].
  - assert (Hall : ∀ k, k ∈ edge_keys h → k ∈ used_edges st).
    { intros k Hk. unfold superset in Hsup.
      rewrite forallb_forall in Hsup.
      eapply bool_decide_eq_true_1, Hsup. by apply list_elem_of_In. }
    split; [done|]. intros b (e & He & Hb)%incident_all.
    assert (ekey d e ∈ used_edges st) as Hk
      by (apply Hall, keys_elem; by exists e).
    destruct (used_endpoints st (edge_u e) (edge_v e) (edge_label e) 0 Hinv Hk).
    destruct Hb as [<-|<-]; done.
  - assert (Hclosed : ∀ a b, rtc (adjacent es) a b →
                        a ∈ visited st → b ∈ visited st).
    { intros a b Hrtc. induction Hrtc as [|x y z Hxy _ IH]; [done|].
      intros Hx. apply IH. by apply (closed_visited st x y). }
    assert (∃ a, a ∈ visited st) as [a Ha].
    { destruct (visited st); [done|]. eexists. apply list_elem_of_here. }
    assert (Hvisall : ∀ b, b < length vl → b ∈ visited st).
    { intros b Hb. apply (Hclosed a); [|done]. apply Hconn; [|done].
      by apply Hinv. }
    split; [|done].
    intros k (e & He & ->)%keys_elem.
    destruct (es_range e He) as [Hu _].
    destruct (decide (ekey d e ∈ used_edges st)) as [|Hk]; [done|]. exfalso.
    destruct (list_elem_of_lookup_1 _ _ (Hvisall _ Hu)) as [i Hi].
    assert ((edge_u e, edge_v e, edge_label e, if d then 1 else 0, i,
             match index_of (edge_v e) (visited st) with
             | Some i => N.of_nat i
             | None => sentinel
             end) ∈ frontier h st) as Hin.
    { apply frontier_elem. split; [done|]. split; [|done].
      apply padj_elem. exists e. split; [done|]. split; [done|]. by left. }
    rewrite Hfr in Hin. by apply elem_of_nil in Hin.
Qed.

(** The seed [canonical_code] forms for the edge [e]. *)
Lemma seed_entry e :
  e ∈ es →
  ∃ su sv, ekey d e = (su, sv, edge_label e, if d then 1 else 0)
    ∧ (sv, edge_label e, if d then 1 else 0) ∈ default [] (p_adj h !! su)
    ∧ norm_key d su sv (edge_label e) (if d then 1 else 0) = ekey d e.
Proof.
  intros He. unfold ekey, norm_key, norm_pair.
  assert (Hfwd : (edge_v e, edge_label e, if d then 1 else 0)
                 ∈ default [] (p_adj h !! edge_u e)).
  { apply padj_elem. exists e. split; [done|]. split; [done|]. by left. }
  assert (Hbwd : d = false → (edge_u e, edge_label e, if d then 1 else 0)
                 ∈ default [] (p_adj h !! edge_v e)).
  { intros Hd. apply padj_elem. exists e. split; [done|]. split; [done|]. right.
    by rewrite Hd. }
  assert (d = true ∨ d = false) as [Hd|Hd] by (clear; destruct d; auto).
  - rewrite Hd in *. by exists (edge_u e), (edge_v e).
  - specialize (Hbwd Hd). rewrite Hd in *.
    destruct (decide (edge_u e ≤ edge_v e)).
    + exists (edge_u e), (edge_v e). split; [done|].
      split; [done|by rewrite decide_True].
    + exists (edge_v e), (edge_u e). split; [done|].
      split; [done|by rewrite decide_True by lia].
Qed.

(** The code enumerated from the seed of an edge is the code of a state
    in which every key is used and every node visited. *)
Lemma dfs_enumerate_spec su sv el df :
  (sv, el, df) ∈ default [] (p_adj h !! su) → df ≠ 2 →
  ∃ st, dfs_inv st
    ∧ dfs_enumerate h su sv el df = code st
    ∧ (∀ k, k ∈ edge_keys h → k ∈ used_edges st)
    ∧ (∀ b, b < length vl → b ∈ visited st).
Proof.
  intros Hent Hdf. unfold dfs_enumerate.
  assert (Hinv0 : dfs_inv (mkDfs [] [] [])).
  { split; [apply NoDup_nil_2|]. split; [apply NoDup_nil_2|].
    split; [constructor|]. split; by intros w ?%elem_of_nil. }
  destruct (push_inv _ su sv el df Hinv0 Hent) as (Hinv1 & _ & Hsu);
    [by intros ?%elem_of_nil|done|].
  destruct (dfs_loop_exit (S (adj_size h))
              (push_edge h su sv el df (mkDfs [] [] [])))
    as (st & Hinv & Hcode & Hsub & Hexit); [|done|].
  { pose proof (unused_le h (used_edges (push_edge h su sv el df (mkDfs [] [] [])))).
    lia. }
  exists st. split; [done|]. split; [done|].
  apply exit_all; [done| |done].
  intros Hnil. specialize (Hsub su Hsu). rewrite Hnil in Hsub.
  by apply elem_of_nil in Hsub.
Qed.

(** What the code of such a state records. *)
Lemma final_code st :
  dfs_inv st →
  (∀ k, k ∈ edge_keys h → k ∈ used_edges st) →
  (∀ b, b < length vl → b ∈ visited st) →
  code_vlabels (code st) ≡ₚ vl
  ∧ code_types d (code st) ≡ₚ edge_types d vl es.
Proof.
  intros (Hnd & Hndu & Hf2 & Hrange & Hm) Hkeys Hnodes.
  destruct helper_fields as [_ Hvl].
  assert (Hlab : ∀ u, hlabel h u = default "" (vl !! u))
    by (intros u; unfold hlabel; by rewrite Hvl).
  assert (Hperm : visited st ≡ₚ seq 0 (length vl)).
  { apply NoDup_Permutation; [done|apply NoDup_seq|].
    intros w. rewrite elem_of_seq. split; [intros ?%Hrange; lia|].
    intros [_ ?]. by apply Hnodes. }
  assert (Hlen : length (visited st) = length vl).
  { by rewrite Hperm, length_seq. }
  (* every tuple gives to its indices the labels of the nodes they stand for *)
  assert (Htuple : ∀ t, t ∈ code st →
            ∃ u v, visited st !! t_i t = Some u ∧ visited st !! t_j t = Some v
                   ∧ t_lu t = hlabel h u ∧ t_lv t = hlabel h v).
  { intros t [n Hn]%list_elem_of_lookup.
    destruct (Forall2_lookup_l _ _ _ _ _ Hf2 Hn)
      as (k & _ & u & v & el & tag & i & j & _ & _ & Hi & Hj & -> & _).
    exists u, v. cbn. by rewrite (index_of_lookup _ _ _ Hi), (index_of_lookup _ _ _ Hj). }
  split.
  - assert (Hn : code_nodes (code st) = length vl).
    { unfold code_nodes.
      transitivity (length (seq 0 (length vl))); [|apply length_seq].
      apply Permutation_length, NoDup_Permutation;
        [apply NoDup_remove_dups|apply NoDup_seq|].
      intros i. rewrite elem_of_remove_dups, elem_of_flat_map, elem_of_seq. split.
      - intros (t & Ht & Hi). destruct (Htuple t Ht) as (u & v & Hu & Hv & _).
        apply lookup_lt_Some in Hu, Hv.
        apply elem_of_cons in Hi as [->|[->|[]%elem_of_nil]%elem_of_cons]; lia.
      - intros [_ Hi]. rewrite <- Hlen in Hi.
        destruct (lookup_lt_is_Some_2 _ _ Hi) as [w Hw].
        destruct (Hm w (list_elem_of_lookup_2 _ _ _ Hw)) as (t & i' & Ht & Hi' & Hmen).
        rewrite (index_of_NoDup _ _ _ Hnd Hw) in Hi'. injection Hi' as <-.
        exists t. split; [done|].
        destruct Hmen as [[<- _]|[<- _]];
          [apply list_elem_of_here|apply list_elem_of_further, list_elem_of_here]. }
    unfold code_vlabels. rewrite Hn, <- Hlen.
    assert (Hmap : code_label (code st) <$> seq 0 (length (visited st))
                   = hlabel h <$> visited st).
    { rewrite (fmap_lookup_seq (code_label (code st)) (hlabel h <$> visited st));
        [by rewrite length_fmap|].
      intros i Hi. rewrite length_fmap in Hi.
      destruct (lookup_lt_is_Some_2 _ _ Hi) as [w Hw].
      rewrite list_lookup_fmap, Hw. cbn. f_equal. symmetry.
      apply code_label_spec.
      - intros t (u & v & Hu & Hv & Hlu & Hlv)%Htuple. split; intros Heq.
        + rewrite Heq in Hu. congruence.
        + rewrite Heq in Hv. congruence.
      - destruct (Hm w (list_elem_of_lookup_2 _ _ _ Hw)) as (t & i' & Ht & Hi' & Hmen).
        rewrite (index_of_NoDup _ _ _ Hnd Hw) in Hi'. injection Hi' as <-.
        exists t. split; [done|]. destruct Hmen as [[? _]|[? _]]; auto. }
    rewrite Hmap, Hperm.
    rewrite (fmap_lookup_seq (λ i, default "" (vl !! i)) vl) at 2.
    + assert (hlabel h <$> seq 0 (length vl)
              = (λ i, default "" (vl !! i)) <$> seq 0 (length vl)) as ->; [|done].
      apply list_fmap_ext. intros; apply Hlab.
    + intros i Hi. destruct (lookup_lt_is_Some_2 _ _ Hi) as [x Hx]. by rewrite Hx.
  - unfold code_types, edge_types.
    rewrite (filter_fmap_lockstep (λ t, t_df t ≠ 2) (λ k, k ∈ edge_keys h)
               _ (key_type d vl) (code st) (used_edges st)).
    + apply fmap_Permutation, NoDup_Permutation;
        [by apply NoDup_filter|apply NoDup_remove_dups|].
      intros k. rewrite list_elem_of_filter, elem_of_remove_dups, list_elem_of_fmap.
      split.
      * intros [(e & He & ->)%keys_elem _]. by exists e.
      * intros (e & -> & He).
        assert (ekey d e ∈ edge_keys h) by (apply keys_elem; by exists e).
        split; [done|by apply Hkeys].
    + eapply Forall2_impl; [exact Hf2|]. intros t k
        (u & v & el & tag & i & j & Hent & -> & _ & _ & -> & Htag).
      split.
      * unfold t_df. cbn [snd]. split.
        -- intros Hne2. apply padj_elem in Hent as (e & He & Hl & Hc).
           cbn in Hl, Hc. subst el. apply keys_elem. exists e. split; [done|].
           destruct Hc as [(<- & -> & _)|(<- & -> & ->)]; [done|].
           assert (d = false) as -> by (clear -Hne2; by destruct d).
           apply norm_key_swap.
        -- intros Hk ->. by apply Htag.
      * intros _. rewrite key_type_norm_key. unfold t_lu, t_el, t_lv. cbn [fst snd].
        by rewrite !Hlab.
Qed.

(** The canonical code of a connected pattern with an edge records the
    vertex labels of the pattern and the types of its edges. *)
Lemma canonical_code_records C :
  canonical_code h = Some C →
  code_vlabels C ≡ₚ vl ∧ code_types d C ≡ₚ edge_types d vl es.
Proof.
  unfold canonical_code.
  destruct (sorted_keys (edge_keys h)) as [ks|] eqn:Hks; [|discriminate].
  cbn [mbind option_bind]. apply sorted_keys_perm in Hks.
  destruct helper_fields as [Hd _]. rewrite Hd.
  assert (Hseeds : ∀ su sv el df, (su, sv, el, df) ∈ seeds_of d ks →
            (sv, el, df) ∈ default [] (p_adj h !! su) ∧ df ≠ 2).
  { intros su sv el df Hin.
    assert (∃ e, e ∈ es ∧ (su, sv, el, df) = ekey d e) as (e & He & Heq).
    { unfold seeds_of in Hin.
      assert (d = true ∨ d = false) as [Hdd|Hdd] by (clear; destruct d; auto);
        rewrite Hdd in Hin.
      - apply elem_of_flat_map in Hin as ([[[u v] l] dd] & Hk & Hin).
        destruct (decide (dd = 1)) as [->|]; [|by apply elem_of_nil in Hin].
        apply list_elem_of_singleton in Hin as ->.
        rewrite Hks in Hk. by apply keys_elem in Hk.
      - apply list_elem_of_fmap in Hin as ([[[u v] l] dd] & -> & Hk).
        rewrite Hks in Hk. apply keys_elem in Hk as (e & He & Hk).
        exists e. split; [done|]. rewrite Hdd in Hk |- *.
        unfold ekey, norm_key in Hk |- *.
        destruct (norm_pair _ _). by injection Hk as -> -> -> ->. }
    destruct (seed_entry e He) as (su' & sv' & Hk & Hent & _).
    rewrite Hk in Heq. injection Heq as -> -> -> ->.
    split; [done|]. clear. by destruct d. }
  destruct (best_code_Some h (seeds_of d ks) None) as [C' HC'].
  { left. intros Hnil.
    assert (∃ e0, e0 ∈ es) as [e0 He0].
    { clear -Hne. destruct es; [done|]. eexists. apply list_elem_of_here. }
    assert (ekey d e0 ∈ ks) as Hk0 by (rewrite Hks; apply keys_elem; by exists e0).
    assert (ekey d e0 ∈ seeds_of d ks) as Hin;
      [|rewrite Hnil in Hin; by apply elem_of_nil in Hin].
    clear -Hk0. unfold seeds_of, ekey, norm_key in *.
    destruct d.
    + apply elem_of_flat_map. eexists. split; [exact Hk0|].
      cbn. apply list_elem_of_here.
    + apply list_elem_of_fmap. eexists. split; [|exact Hk0].
      by destruct (norm_pair _ _). }
  rewrite HC'. cbn. intros [= <-].
  apply best_code in HC' as [?|(su & sv & el & df & Hin & ->)]; [done|].
  destruct (Hseeds _ _ _ _ Hin) as [Hent Hdf].
  destruct (dfs_enumerate_spec su sv el df Hent Hdf) as (st & Hinv & -> & ? & ?).
  by apply final_code.
Qed.
End CanonicalCode.

(** The canonical key of a connected pattern with at least one edge
    determines the multiset of its vertex labels and the multiset of the
    types of its distinct edges. *)
Lemma canonical_key_records vl es d k :
  canonical_key vl es d = Some k → connected vl es → es ≠ [] →
  code_vlabels k.2 ≡ₚ vl ∧ code_types d k.2 ≡ₚ edge_types d vl es.
Proof.
  unfold canonical_key.
  destruct (helper_init d vl es) as [h|] eqn:Hh; [|discriminate].
  cbn [mbind option_bind].
  destruct (canonical_code h) as [C|] eqn:HC; [|discriminate].
  cbn [mbind option_bind]. intros [= <-] Hconn Hne. cbn [snd].
  by eapply canonical_code_records.
Qed.

(** ** Keys of patterns with different labels *)

(** C9, amended. Two patterns with the same directed flag, each connected
    (invariant P2) and with at least one edge, whose vertex-label multisets
    differ or whose multisets of edge types differ (an edge type being the
    labels of the two ends and the edge label, an absent label read as the
    empty string, the ends ordered for an undirected edge, one type for
    each distinct edge) have unequal canonical keys. *)
Theorem canonical_key_separates d vl1 es1 vl2 es2 p1 p2 :
  Pattern_init vl1 es1 d = Some p1 →
  Pattern_init vl2 es2 d = Some p2 →
  connected vl1 es1 → es1 ≠ [] →
  connected vl2 es2 → es2 ≠ [] →
  ¬ vl1 ≡ₚ vl2 ∨ ¬ edge_types d vl1 es1 ≡ₚ edge_types d vl2 es2 →
  p_key p1 ≠ p_key p2.
Proof.
  unfold Pattern_init.
  destruct (canonical_key vl1 es1 d) as [k1|] eqn:Hk1; [|discriminate].
  destruct (canonical_key vl2 es2 d) as [k2|] eqn:Hk2; [|discriminate].
  cbn [mbind option_bind]. intros [= <-] [= <-] Hc1 Hn1 Hc2 Hn2 Hdiff. cbn [p_key].
  intros ->.
  destruct (canonical_key_records _ _ _ _ Hk1 Hc1 Hn1) as [Hv1 Ht1].
  destruct (canonical_key_records _ _ _ _ Hk2 Hc2 Hn2) as [Hv2 Ht2].
  destruct Hdiff as [Hdiff|Hdiff]; apply Hdiff.
  - by rewrite <- Hv1, <- Hv2.
  - by rewrite <- Ht1, <- Ht2.
Qed.

(** A check of invariant P2 that computes: the nodes reached from node 0
    in as many rounds as there are nodes. *)
Definition adjacentb (es : list Edge) (a b : nat) : bool :=
  existsb (λ e, bool_decide ((edge_u e = a ∧ edge_v e = b)
                             ∨ (edge_u e = b ∧ edge_v e = a))) es.

Definition grow (n : nat) (es : list Edge) (reached : list nat) : list nat :=
  reached
  ++ filter (λ b, (b ∉ reached) ∧ existsb (λ a, adjacentb es a b) reached = true)
            (seq 0 n).

Definition reach (n : nat) (es : list Edge) : list nat :=
  Nat.iter n (grow n es) [0].

Definition connectedb (vl : list string) (es : list Edge) : bool :=
  forallb (λ a, bool_decide (a ∈ reach (length vl) es)) (seq 0 (length vl)).

Lemma adjacentb_spec es a b : adjacentb es a b = true → adjacent es a b.
Proof.
  unfold adjacentb. rewrite existsb_exists. intros (e & He & Hb).
  exists e. split; [by apply list_elem_of_In|]. by apply bool_decide_eq_true_1 in Hb.
Qed.

Lemma adjacent_sym es a b : adjacent es a b → adjacent es b a.
Proof. intros (e & He & H). exists e. split; [done|]. tauto. Qed.

Lemma rtc_adjacent_sym es a b : rtc (adjacent es) a b → rtc (adjacent es) b a.
Proof.
  induction 1 as [|a b c Hab _ IH]; [done|].
  eapply rtc_r; [exact IH|]. by apply adjacent_sym.
Qed.

Lemma reach_sound n es m x : x ∈ Nat.iter m (grow n es) [0] → rtc (adjacent es) 0 x.
Proof.
  revert x. induction m as [|m IH]; intros x.
  - intros ->%list_elem_of_singleton. done.
  - change (Nat.iter (S m) (grow n es) [0])
      with (grow n es (Nat.iter m (grow n es) [0])).
    unfold grow at 1. rewrite elem_of_app, list_elem_of_filter.
    intros [Hx|[[_ Hex] _]]; [by apply IH|].
    apply existsb_exists in Hex as (a & Ha%list_elem_of_In & Hab).
    eapply rtc_r; [by apply IH|]. by apply adjacentb_spec.
Qed.

Lemma connectedb_sound vl es : connectedb vl es = true → connected vl es.
Proof.
  unfold connectedb. rewrite forallb_forall. intros Hall a b Ha Hb.
  assert (∀ x, x < length vl → rtc (adjacent es) 0 x) as Hreach.
  { intros x Hx. apply (reach_sound (length vl) es (length vl)).
    eapply bool_decide_eq_true_1, (Hall x), list_elem_of_In, elem_of_seq. lia. }
  etrans; [apply rtc_adjacent_sym|]; by apply Hreach.
Qed.

Lemma canonical_key_separates_witness :
  ∃ p1 p2,
    Pattern_init ["A"; "B"] [mkEdge 0 1 None] false = Some p1
    ∧ Pattern_init ["A"; "C"] [mkEdge 0 1 None] false = Some p2
    ∧ p_key p1 ≠ p_key p2.
Proof.
  eexists _, _. split; [vm_compute; reflexivity|].
  split; [vm_compute; reflexivity|].
  apply (canonical_key_separates false ["A"; "B"] [mkEdge 0 1 None]
                                 ["A"; "C"] [mkEdge 0 1 None]).
  - vm_compute; reflexivity.
  - vm_compute; reflexivity.
  - apply connectedb_sound. vm_compute; reflexivity.
  - discriminate.
  - apply connectedb_sound. vm_compute; reflexivity.
  - discriminate.
  - left. apply (bool_decide_unpack _). vm_compute. exact I.
Defined.

(** ** What [edge_type_counts] counts *)

(** The normalized type of an undirected edge of a graph with vertex labels
    [vl], and the number of adjacency entries of the edge that pass the
    guard [if u > v: continue]: both entries of a self-loop do. *)
Definition undirected_type (vl : list string) (e : Edge) : EdgeType :=
  let '(a, b) := norm_labels (default "" (vl !! edge_u e))
                             (default "" (vl !! edge_v e)) in
  (a, b, edge_label e, 0).

Definition times_counted (e : Edge) : nat :=
  if decide (edge_u e = edge_v e) then 2 else 1.

(** Whether the entry [nb] of [adj[u]] is counted under the type [ty]. *)
Definition entry_hits (G : DataGraph) (ty : EdgeType) (u : nat) (nb : Nbr) : nat :=
  if decide (entry_type G u nb = Some ty) then 1 else 0.

(** A sum over all adjacency entries of the rows [0 .. n-1]. *)
Definition rows_total (f : nat → Nbr → nat) (n : nat) (rows : list (list Nbr))
  : nat :=
  sum_list_with (λ u, sum_list_with (f u) (default [] (rows !! u))) (seq 0 n).

Lemma count_of_incr ty k counts :
  count_of ty (incr k counts)
  = count_of ty counts + (if decide (k = ty) then 1 else 0).
Proof.
  induction counts as [|[k' c] counts IH]; cbn [incr count_of].
  - destruct (decide (k = ty)); lia.
  - destruct (decide (k' = k)) as [->|Hk]; cbn [count_of].
    + destruct (decide (k = ty)); lia.
    + destruct (decide (k' = ty)) as [->|]; [|exact IH].
      rewrite decide_False by congruence. lia.
Qed.

Lemma count_of_row G ty u nbs : ∀ counts,
  count_of ty (foldl (λ counts nb,
                        match entry_type G u nb with
                        | Some k => incr k counts
                        | None => counts
                        end) counts nbs)
  = count_of ty counts + sum_list_with (entry_hits G ty u) nbs.
Proof.
  induction nbs as [|nb nbs IH]; intros counts; cbn [foldl sum_list_with]; [lia|].
  rewrite IH. unfold entry_hits at 2.
  destruct (entry_type G u nb) as [k|].
  - rewrite count_of_incr.
    destruct (decide (k = ty)) as [->|Hk].
    + rewrite decide_True by done. lia.
    + rewrite decide_False by congruence. lia.
  - rewrite decide_False by done. lia.
Qed.

Lemma count_of_rows G ty us : ∀ counts,
  count_of ty (foldl (λ counts u,
                        foldl (λ counts nb,
                                 match entry_type G u nb with
                                 | Some k => incr k counts
                                 | None => counts
                                 end) counts (adj G u)) counts us)
  = count_of ty counts
    + sum_list_with (λ u, sum_list_with (entry_hits G ty u) (adj G u)) us.
Proof.
  induction us as [|u us IH]; intros counts; cbn [foldl sum_list_with]; [lia|].
  rewrite IH, count_of_row. lia.
Qed.

Lemma sum_list_with_at (g : nat → nat) (i c : nat) n : ∀ a,
  sum_list_with (λ u, g u + (if decide (u = i) then c else 0)) (seq a n)
  = sum_list_with g (seq a n) + (if decide (a ≤ i < a + n) then c else 0).
Proof.
  induction n as [|n IH]; intros a; cbn [seq sum_list_with].
  - rewrite decide_False by lia. lia.
  - rewrite IH.
    destruct (decide (a = i)) as [->|Hne].
    + rewrite (decide_False (P := S i ≤ i < _)) by lia.
      rewrite decide_True by lia. lia.
    + destruct (decide (S a ≤ i < S a + n)).
      * rewrite decide_True by lia. lia.
      * rewrite decide_False by lia. lia.
Qed.

Lemma sum_list_with_ext {A} (f g : A → nat) l :
  (∀ x, f x = g x) → sum_list_with f l = sum_list_with g l.
Proof. intros H. induction l as [|x l IH]; cbn; [done|]. by rewrite H, IH. Qed.

Lemma append_at_total f n i x rows rows' :
  append_at i x rows = Some rows' → length rows = n →
  rows_total f n rows' = rows_total f n rows + f i x.
Proof.
  intros (Hi & _ & Hrows)%append_at_Some Hn. unfold rows_total.
  rewrite <- (Nat.add_0_r (f i x)).
  transitivity
    (sum_list_with (λ u, sum_list_with (f u) (default [] (rows !! u))
                         + (if decide (u = i) then f i x else 0)) (seq 0 n)).
  - apply sum_list_with_ext. intros u. rewrite Hrows.
    rewrite sum_list_with_app. destruct (decide (u = i)) as [->|]; cbn; lia.
  - rewrite sum_list_with_at. rewrite decide_True by lia. lia.
Qed.

Lemma init_step_total f n adj0 rev0 e adj1 rev1 :
  length adj0 = n →
  init_step false (adj0, rev0) e = Some (adj1, rev1) →
  length adj1 = n
  ∧ rows_total f n adj1
    = rows_total f n adj0 + f (edge_u e) (edge_v e, edge_label e)
      + f (edge_v e) (edge_u e, edge_label e).
Proof.
  intros Hn. unfold init_step.
  destruct (append_at (edge_u e) (edge_v e, edge_label e) adj0) as [a1|] eqn:Ha1;
    [|discriminate].
  destruct (append_at (edge_v e) (edge_u e, edge_label e) rev0) as [r1|];
    [|discriminate].
  cbn [mbind option_bind].
  destruct (append_at (edge_v e) (edge_u e, edge_label e) a1) as [a2|] eqn:Ha2;
    [|discriminate].
  destruct (append_at (edge_u e) (edge_v e, edge_label e) r1) as [r2|];
    [|discriminate].
  cbn [mbind option_bind]. intros [= <- <-].
  destruct (append_at_Some _ _ _ _ Ha1) as (_ & Hl1 & _).
  destruct (append_at_Some _ _ _ _ Ha2) as (_ & Hl2 & _).
  unfold Nbr in *.
  assert (length a1 = n) as Hn1 by congruence.
  split; [congruence|].
  rewrite (append_at_total f n _ _ _ _ Ha2 Hn1).
  by rewrite (append_at_total f n _ _ _ _ Ha1 Hn).
Qed.

Lemma init_loop_total f n es : ∀ adj0 rev0 adj1 rev1,
  length adj0 = n →
  init_loop false (adj0, rev0) es = Some (adj1, rev1) →
  rows_total f n adj1
  = rows_total f n adj0
    + sum_list_with (λ e, f (edge_u e) (edge_v e, edge_label e)
                          + f (edge_v e) (edge_u e, edge_label e)) es.
Proof.
  induction es as [|e es IH]; intros adj0 rev0 adj1 rev1 Hn; cbn [init_loop].
  - intros [= <- <-]. cbn. lia.
  - destruct (init_step false (adj0, rev0) e) as [[a r]|] eqn:Hstep; [|discriminate].
    cbn [mbind option_bind]. intros Hloop.
    destruct (init_step_total f n _ _ _ _ _ Hn Hstep) as [Hn' Ht].
    rewrite (IH _ _ _ _ Hn' Hloop), Ht. cbn [sum_list_with]. lia.
Qed.

Lemma rows_total_empty f n : rows_total f n (replicate n []) = 0.
Proof.
  unfold rows_total. transitivity (sum_list_with (λ _ : nat, 0) (seq 0 n)).
  - apply sum_list_with_ext. intros u.
    destruct (replicate n [] !! u) as [r|] eqn:Hr; [|done].
    by apply lookup_replicate in Hr as [-> _].
  - generalize 0 at 2. induction n as [|n IH]; intros a; cbn; [done|]. apply IH.
Qed.

(** The two adjacency entries of an undirected edge are counted under its
    normalized type, once if the ends differ and twice for a self-loop. *)
Lemma entry_hits_edge G vl ty e :
  g_directed G = false → g_vlabels G = vl →
  entry_hits G ty (edge_u e) (edge_v e, edge_label e)
  + entry_hits G ty (edge_v e) (edge_u e, edge_label e)
  = if decide (undirected_type vl e = ty) then times_counted e else 0.
Proof.
  intros Hd Hvl. unfold entry_hits, entry_type, undirected_type, times_counted, vlabel.
  rewrite Hd, Hvl.
  set (lu := default "" (vl !! edge_u e)). set (lv := default "" (vl !! edge_v e)).
  rewrite (norm_labels_comm lv lu).
  destruct (norm_labels lu lv) as [a b].
  destruct (decide (edge_v e < edge_u e)), (decide (edge_u e < edge_v e)),
    (decide (edge_u e = edge_v e)); try lia;
    repeat case_decide; simplify_eq; try lia; try congruence.
Qed.

(** For an undirected graph, the count of an edge type is the number of
    input edges of that type, a self-loop counted twice. *)
Lemma edge_type_counts_spec vl es G ty :
  DataGraph_init false vl es = Some G →
  count_of ty (edge_type_counts G)
  = sum_list_with
      (λ e, if decide (undirected_type vl e = ty) then times_counted e else 0) es.
Proof.
  unfold DataGraph_init.
  destruct (init_loop _ _ _) as [[a r]|] eqn:Hloop; [|discriminate].
  cbn [mbind option_bind]. intros [= <-].
  unfold edge_type_counts. rewrite count_of_rows. cbn [count_of g_vlabels].
  set (G := mkDataGraph false vl a r).
  change (sum_list_with _ (seq 0 (length vl)))
    with (rows_total (entry_hits G ty) (length vl) a).
  rewrite (init_loop_total _ (length vl) _ _ _ _ _ (length_replicate _ _) Hloop).
  rewrite rows_total_empty. cbn [Nat.add].
  apply sum_list_with_ext. intros e. by apply entry_hits_edge.
Qed.

(** On a graph without self-loops every input edge counts once. *)
Lemma edge_type_counts_no_loops vl es G ty :
  DataGraph_init false vl es = Some G →
  Forall (λ e, edge_u e ≠ edge_v e) es →
  count_of ty (edge_type_counts G)
  = length (filter (λ e, undirected_type vl e = ty) es).
Proof.
  intros HG Hloops. rewrite (edge_type_counts_spec _ _ _ _ HG). clear HG.
  induction Hloops as [|e es He _ IH]; [done|].
  cbn [sum_list_with]. rewrite filter_cons, IH. unfold times_counted.
  rewrite (decide_False (P := edge_u e = edge_v e)) by done.
  destruct (decide (undirected_type vl e = ty)); cbn [length]; lia.
Qed.

(** * Further properties of the code *)

(** ** graph.py: what DataGraph.__init__ accepts and builds *)

Lemma append_at_is_Some {A} (i : nat) (x : A) rows :
  is_Some (append_at i x rows) ↔ i < length rows.
Proof.
  unfold append_at. destruct (decide (i < length rows)).
  - split; [done|eauto].
  - split; [by intros [? ?]|done].
Qed.

Lemma init_step_is_Some d adj0 rev0 e :
  length rev0 = length adj0 →
  is_Some (init_step d (adj0, rev0) e)
  ↔ edge_u e < length adj0 ∧ edge_v e < length adj0.
Proof.
  intros Hlen. split.
  - intros [[a r] H]. by apply init_step_Some in H as (_ & _ & ? & ? & _).
  - intros [Hu Hv]. unfold init_step, Nbr in *.
    destruct (proj2 (append_at_is_Some (edge_u e) (edge_v e, edge_label e) adj0) Hu)
      as [a1 Ha1].
    destruct (proj2 (append_at_is_Some (edge_v e) (edge_u e, edge_label e) rev0))
      as [r1 Hr1]; [lia|].
    rewrite Ha1, Hr1. cbn [mbind option_bind].
    destruct d; [eauto|].
    apply append_at_Some in Ha1 as (_ & Hl1 & _).
    apply append_at_Some in Hr1 as (_ & Hl2 & _).
    destruct (proj2 (append_at_is_Some (edge_v e) (edge_u e, edge_label e) a1))
      as [a2 Ha2]; [lia|].
    destruct (proj2 (append_at_is_Some (edge_u e) (edge_v e, edge_label e) r1))
      as [r2 Hr2]; [lia|].
    rewrite Ha2, Hr2. cbn [mbind option_bind]. eauto.
Qed.

Lemma init_loop_is_Some d es : ∀ adj0 rev0,
  length rev0 = length adj0 →
  is_Some (init_loop d (adj0, rev0) es)
  ↔ ∀ e, e ∈ es → edge_u e < length adj0 ∧ edge_v e < length adj0.
Proof.
  induction es as [|e es IH]; intros adj0 rev0 Hlen; cbn [init_loop].
  - split; [by intros _ e ?%elem_of_nil|eauto].
  - split.
    + intros [st Hst].
      destruct (init_step d (adj0, rev0) e) as [[a r]|] eqn:Hstep; [|discriminate].
      cbn [mbind option_bind] in Hst.
      pose proof (init_step_Some _ _ _ _ _ _ Hlen Hstep) as (Hla & Hlr & Hu & Hv & _).
      intros e' [->|He']%elem_of_cons; [done|].
      unfold Nbr in *. rewrite <- Hla. apply (IH a r); [lia|eauto|done].
    + intros Hall.
      destruct (proj2 (init_step_is_Some d adj0 rev0 e Hlen)) as [[a r] Hstep];
        [apply Hall, list_elem_of_here|].
      rewrite Hstep. cbn [mbind option_bind].
      pose proof (init_step_Some _ _ _ _ _ _ Hlen Hstep) as (Hla & Hlr & _).
      unfold Nbr in *. apply IH; [lia|]. intros e' He'. rewrite Hla.
      apply Hall. by apply list_elem_of_further.
Qed.

(** X1. [DataGraph(directed, vlabels, edges)] raises IndexError exactly
    when an endpoint of some edge is not an index of [vlabels]. *)
Theorem DataGraph_init_in_range (directed : bool) (vlabels : list string)
    (edges : list Edge) :
  is_Some (DataGraph_init directed vlabels edges)
  ↔ ∀ e, e ∈ edges → edge_u e < length vlabels ∧ edge_v e < length vlabels.
Proof.
  unfold DataGraph_init.
  pose proof (init_loop_is_Some directed edges (replicate (length vlabels) [])
                (replicate (length vlabels) [])) as H.
  rewrite !length_replicate in H. rewrite <- H by done. clear H.
  destruct (init_loop _ _ _) as [[a r]|]; cbn; split; intros [? ?]; eauto; done.
Qed.

(** X2. In every constructed graph the reverse adjacency mirrors the forward
    adjacency: [(v, lab)] is in [adj[u]] exactly when [(u, lab)] is in
    [rev[v]]. *)
Theorem adj_rev_mirror (directed : bool) (vlabels : list string)
    (edges : list Edge) (G : DataGraph) (u v : nat) (lab : option string) :
  DataGraph_init directed vlabels edges = Some G →
  u < length vlabels → v < length vlabels →
  (v, lab) ∈ adj G u ↔ (u, lab) ∈ rev G v.
Proof.
  intros HG _ _.
  rewrite (elem_of_adj _ _ _ _ HG), (elem_of_rev _ _ _ _ HG).
  unfold adj_entry, rev_entry. cbn [fst snd].
  split; intros (e & He & Hl & Hc); exists e; (split; [done|]); (split; [done|]);
    destruct Hc as [[? ?]|(? & ? & ?)]; [left|right|left|right]; done.
Qed.

Lemma adj_rev_mirror_witness :
  path_graph = Some path_G
  ∧ ((1, None) ∈ adj path_G 0 ↔ (0, None) ∈ rev path_G 1).
Proof.
  split; [vm_compute; reflexivity|].
  apply (adj_rev_mirror false ["A"; "B"; "C"] [mkEdge 0 1 None; mkEdge 1 2 None]).
  - vm_compute; reflexivity.
  - simpl; lia.
  - simpl; lia.
Defined.

Lemma init_loop_undirected_same es : ∀ rows adj1 rev1,
  init_loop false (rows, rows) es = Some (adj1, rev1) → adj1 = rev1.
Proof.
  induction es as [|e es IH]; intros rows adj1 rev1; cbn [init_loop].
  - by intros [= <- <-].
  - unfold init_step.
    destruct (append_at (edge_u e) (edge_v e, edge_label e) rows) as [a1|] eqn:Ha1;
      [|discriminate].
    destruct (append_at (edge_v e) (edge_u e, edge_label e) rows) as [r1|] eqn:Hr1;
      [|discriminate].
    cbn [mbind option_bind].
    destruct (append_at (edge_v e) (edge_u e, edge_label e) a1) as [a2|] eqn:Ha2;
      [|discriminate].
    destruct (append_at (edge_u e) (edge_v e, edge_label e) r1) as [r2|] eqn:Hr2;
      [|discriminate].
    cbn [mbind option_bind].
    assert (a2 = r2) as ->; [|apply IH].
    unfold append_at in *.
    repeat case_decide; simplify_eq.
    destruct (decide (edge_u e = edge_v e)) as [Huv|Huv]; [by rewrite Huv|].
    apply list_eq. intros i.
    destruct (decide (i = edge_u e)) as [Hu|Hu], (decide (i = edge_v e)) as [Hv|Hv];
      try congruence; subst.
    + rewrite list_lookup_alter_ne, !list_lookup_alter_eq by congruence.
      by rewrite list_lookup_alter_ne by congruence.
    + rewrite list_lookup_alter_eq, !list_lookup_alter_ne by congruence.
      by rewrite list_lookup_alter_eq.
    + by rewrite !list_lookup_alter_ne by congruence.
Qed.

(** X3. For an undirected graph the two adjacency structures [adj] and
    [rev] are identical, row by row and entry by entry. *)
Theorem undirected_adj_is_rev (vlabels : list string) (edges : list Edge)
    (G : DataGraph) :
  DataGraph_init false vlabels edges = Some G → g_adj G = g_rev G.
Proof.
  unfold DataGraph_init.
  destruct (init_loop _ _ _) as [[a r]|] eqn:Hloop; [|discriminate].
  cbn [mbind option_bind]. intros [= <-]. cbn.
  by eapply init_loop_undirected_same.
Qed.

Lemma undirected_adj_is_rev_witness :
  path_graph = Some path_G ∧ g_adj path_G = g_rev path_G.
Proof.
  split; [vm_compute; reflexivity|].
  apply (undirected_adj_is_rev ["A"; "B"; "C"] [mkEdge 0 1 None; mkEdge 1 2 None]).
  vm_compute; reflexivity.
Defined.

(** ** graph.py: degrees and edge-type counts *)

Lemma init_step_total_any f n d adj0 rev0 e adj1 rev1 :
  length adj0 = n →
  init_step d (adj0, rev0) e = Some (adj1, rev1) →
  length adj1 = n
  ∧ rows_total f n adj1
    = rows_total f n adj0 + f (edge_u e) (edge_v e, edge_label e)
      + (if d then 0 else f (edge_v e) (edge_u e, edge_label e)).
Proof.
  intros Hn. unfold init_step.
  destruct (append_at (edge_u e) (edge_v e, edge_label e) adj0) as [a1|] eqn:Ha1;
    [|discriminate].
  destruct (append_at (edge_v e) (edge_u e, edge_label e) rev0) as [r1|];
    [|discriminate].
  cbn [mbind option_bind].
  destruct (append_at_Some _ _ _ _ Ha1) as (_ & Hl1 & _).
  destruct d.
  - intros [= <- <-]. unfold Nbr in *. split; [congruence|].
    rewrite (append_at_total f n _ _ _ _ Ha1 Hn). lia.
  - destruct (append_at (edge_v e) (edge_u e, edge_label e) a1) as [a2|] eqn:Ha2;
      [|discriminate].
    destruct (append_at (edge_u e) (edge_v e, edge_label e) r1) as [r2|];
      [|discriminate].
    cbn [mbind option_bind]. intros [= <- <-].
    destruct (append_at_Some _ _ _ _ Ha2) as (_ & Hl2 & _).
    unfold Nbr in *.
    assert (length a1 = n) as Hn1 by congruence.
    split; [congruence|].
    rewrite (append_at_total f n _ _ _ _ Ha2 Hn1).
    by rewrite (append_at_total f n _ _ _ _ Ha1 Hn).
Qed.

Lemma init_loop_total_any f n d es : ∀ adj0 rev0 adj1 rev1,
  length adj0 = n →
  init_loop d (adj0, rev0) es = Some (adj1, rev1) →
  rows_total f n adj1
  = rows_total f n adj0
    + sum_list_with (λ e, f (edge_u e) (edge_v e, edge_label e)
                          + (if d then 0
                             else f (edge_v e) (edge_u e, edge_label e))) es.
Proof.
  induction es as [|e es IH]; intros adj0 rev0 adj1 rev1 Hn; cbn [init_loop].
  - intros [= <- <-]. cbn. lia.
  - destruct (init_step d (adj0, rev0) e) as [[a r]|] eqn:Hstep; [|discriminate].
    cbn [mbind option_bind]. intros Hloop.
    destruct (init_step_total_any f n _ _ _ _ _ _ Hn Hstep) as [Hn' Ht].
    rewrite (IH _ _ _ _ Hn' Hloop), Ht. cbn [sum_list_with]. lia.
Qed.

Lemma graph_total f d vl es G :
  DataGraph_init d vl es = Some G →
  rows_total f (length vl) (g_adj G)
  = sum_list_with (λ e, f (edge_u e) (edge_v e, edge_label e)
                        + (if d then 0
                           else f (edge_v e) (edge_u e, edge_label e))) es.
Proof.
  unfold DataGraph_init.
  destruct (init_loop _ _ _) as [[a r]|] eqn:Hloop; [|discriminate].
  cbn [mbind option_bind]. intros [= <-]. cbn [g_adj].
  rewrite (init_loop_total_any f (length vl) _ _ _ _ _ _ (length_replicate _ _) Hloop).
  by rewrite rows_total_empty.
Qed.

Lemma sum_list_with_const {A} (c : nat) (l : list A) :
  sum_list_with (λ _, c) l = c * length l.
Proof. induction l as [|x l IH]; cbn [sum_list_with length]; lia. Qed.

(** X4. The degrees [len(adj[u])] of a constructed graph add up to the
    number of edges given to the constructor when the graph is directed,
    and to twice that number when it is undirected (a self-loop adds two
    entries to the adjacency of its node). *)
Theorem degree_sum (directed : bool) (vlabels : list string)
    (edges : list Edge) (G : DataGraph) :
  DataGraph_init directed vlabels edges = Some G →
  sum_list_with (λ u, length (adj G u)) (seq 0 (length vlabels))
  = (if directed then 1 else 2) * length edges.
Proof.
  intros HG.
  pose proof (graph_total (λ _ _, 1) _ _ _ _ HG) as Ht. unfold rows_total in Ht.
  transitivity (sum_list_with (λ u, sum_list_with (λ _ : Nbr, 1)
                                      (default [] (g_adj G !! u)))
                              (seq 0 (length vlabels))).
  - apply sum_list_with_ext. intros u. unfold adj.
    rewrite sum_list_with_const. lia.
  - rewrite Ht. destruct directed.
    + rewrite (sum_list_with_const 1). lia.
    + rewrite (sum_list_with_const 2). lia.
Qed.

Lemma degree_sum_witness :
  path_graph = Some path_G
  ∧ sum_list_with (λ u, length (adj path_G u)) (seq 0 3) = 2 * 2.
Proof.
  split; [vm_compute; reflexivity|].
  apply (degree_sum false ["A"; "B"; "C"] [mkEdge 0 1 None; mkEdge 1 2 None]).
  vm_compute; reflexivity.
Defined.




Definition counts_ok (directed : bool) (counts : list (EdgeType * nat)) : Prop :=
  NoDup counts.*1
  ∧ ∀ k c, (k, c) ∈ counts →
      1 ≤ c ∧ k.2 = (if directed then 1 else 0)
      ∧ (directed = false → String.leb k.1.1.1 k.1.1.2 = true).

Lemma incr_keys k counts x :
  x ∈ (incr k counts).*1 ↔ x = k ∨ x ∈ counts.*1.
Proof.
  induction counts as [|[k' c] counts IH]; cbn [incr fmap list_fmap].
  - rewrite list_elem_of_singleton, elem_of_nil. tauto.
  - destruct (decide (k' = k)) as [->|Hk]; cbn [fmap list_fmap fst];
      rewrite !elem_of_cons; [tauto|].
    change (list_fmap _ _ fst ?l) with (l.*1). rewrite IH. tauto.
Qed.

Lemma incr_elem k counts k0 c0 :
  (k0, c0) ∈ incr k counts →
  (k0 = k ∧ 1 ≤ c0) ∨ (k0, c0) ∈ counts.
Proof.
  induction counts as [|[k' c] counts IH]; cbn [incr].
  - intros [= -> ->]%list_elem_of_singleton. left. split; [done|lia].
  - destruct (decide (k' = k)) as [->|Hk].
    + intros [[= -> ->]|Hin]%elem_of_cons; [left; split; [done|lia]|].
      right. by apply list_elem_of_further.
    + intros [[= -> ->]|Hin]%elem_of_cons; [right; apply list_elem_of_here|].
      destruct (IH Hin) as [?|?]; [by left|right; by apply list_elem_of_further].
Qed.

Lemma incr_NoDup k counts : NoDup counts.*1 → NoDup (incr k counts).*1.
Proof.
  induction counts as [|[k' c] counts IH]; cbn [incr fmap list_fmap].
  - intros _. apply NoDup_singleton.
  - destruct (decide (k' = k)) as [->|Hk]; cbn [fmap list_fmap fst]; [done|].
    change (list_fmap _ _ fst ?l) with (l.*1).
    rewrite !NoDup_cons, incr_keys. intros [Hnot Hnd].
    split; [|by apply IH]. intros [?|?]; [congruence|done].
Qed.

Lemma counts_ok_incr (d : bool) (k : EdgeType) counts :
  k.2 = (if d then 1 else 0) →
  (d = false → String.leb k.1.1.1 k.1.1.2 = true) →
  counts_ok d counts → counts_ok d (incr k counts).
Proof.
  intros Hflag Hnorm [Hnd Hall]. split; [by apply incr_NoDup|].
  intros k0 c0 [[-> Hc]|Hin]%incr_elem; [done|by apply Hall].
Qed.

Lemma norm_labels_le lu lv a b :
  norm_labels lu lv = (a, b) → String.leb a b = true.
Proof.
  unfold norm_labels. destruct (String.leb lu lv) eqn:Hle; intros [= <- <-]; [done|].
  destruct (String.leb_total lu lv); congruence.
Qed.

Lemma counts_ok_entry G u nb counts :
  counts_ok (g_directed G) counts →
  counts_ok (g_directed G)
    (match entry_type G u nb with
     | Some k => incr k counts
     | None => counts
     end).
Proof.
  intros Hok. unfold entry_type. destruct nb as [v el].
  destruct (g_directed G) eqn:Hd.
  - apply counts_ok_incr; done.
  - destruct (decide (v < u)); [done|].
    destruct (norm_labels _ _) as [a b] eqn:Hn.
    apply counts_ok_incr; [done| |done]. intros _. by eapply norm_labels_le.
Qed.

Lemma count_of_elem counts k c :
  NoDup counts.*1 → (k, c) ∈ counts → count_of k counts = c.
Proof.
  induction counts as [|[k' c'] counts IH]; [by intros _ ?%elem_of_nil|].
  cbn [fmap list_fmap fst]. change (list_fmap _ _ fst ?l) with (l.*1).
  rewrite NoDup_cons. intros [Hnot Hnd] [[= -> ->]|Hin]%elem_of_cons; cbn [count_of].
  - by rewrite decide_True.
  - rewrite decide_False; [by apply IH|]. intros ->. apply Hnot.
    apply list_elem_of_fmap. by exists (k, c).
Qed.

Lemma edge_type_counts_ok G : counts_ok (g_directed G) (edge_type_counts G).
Proof.
  unfold edge_type_counts.
  assert (counts_ok (g_directed G) []) as H0.
  { split; [apply NoDup_nil_2|by intros ? ? ?%elem_of_nil]. }
  revert H0. generalize ([] : list (EdgeType * nat)).
  induction (seq 0 (length (g_vlabels G))) as [|u us IH]; intros counts Hok;
    cbn [foldl]; [done|].
  apply IH. revert counts Hok.
  induction (adj G u) as [|nb nbs IHn]; intros counts Hok; cbn [foldl]; [done|].
  by apply IHn, counts_ok_entry.
Qed.

(** X6. Every entry of the mapping [edge_type_counts] returns has a count of
    at least 1, which is what the mapping gives for its key; its flag is 1
    for a directed graph and 0 for an undirected one, where the two vertex
    labels are in order ([lu <= lv]). *)
Theorem edge_type_counts_entries (directed : bool) (vlabels : list string)
    (edges : list Edge) (G : DataGraph) (k : EdgeType) (c : nat) :
  DataGraph_init directed vlabels edges = Some G →
  (k, c) ∈ edge_type_counts G →
  1 ≤ c ∧ count_of k (edge_type_counts G) = c
  ∧ k.2 = (if directed then 1 else 0)
  ∧ (directed = false → String.leb k.1.1.1 k.1.1.2 = true).
Proof.
  intros HG Hin. destruct (init_fields _ _ _ _ HG) as [<- _].
  destruct (edge_type_counts_ok G) as [Hnd Hall].
  destruct (Hall k c Hin) as (? & ? & ?).
  split; [done|]. split; [by apply count_of_elem|done].
Qed.

Lemma edge_type_counts_entries_witness :
  path_graph = Some path_G
  ∧ (("A", "B", None, 0), 1) ∈ edge_type_counts path_G
  ∧ 1 ≤ 1
  ∧ count_of ("A", "B", None, 0) (edge_type_counts path_G) = 1
  ∧ 0 = 0
  ∧ (false = false → String.leb "A" "B" = true).
Proof.
  split; [vm_compute; reflexivity|].
  split; [apply (bool_decide_unpack _); vm_compute; exact I|].
  apply (edge_type_counts_entries false ["A"; "B"; "C"]
           [mkEdge 0 1 None; mkEdge 1 2 None] path_G ("A", "B", None, 0) 1).
  - vm_compute; reflexivity.
  - apply (bool_decide_unpack _). vm_compute. exact I.
Defined.

(** ** graph.py: has_edge *)

(** X7. On a constructed graph, [has_edge(u, v, label)] holds exactly when
    some edge given to the constructor joins [u] to [v] (in either
    orientation when the graph is undirected) and [label] is [None] or is
    the label of that edge; an edge without label is found only by the
    query [None]. *)
Theorem has_edge_iff_edge (directed : bool) (vlabels : list string)
    (edges : list Edge) (G : DataGraph) (u v : nat) (label : option string) :
  DataGraph_init directed vlabels edges = Some G →
  u < length vlabels →
  has_edge G u v label = true
  ↔ ∃ e, e ∈ edges
         ∧ (label = None ∨ edge_label e = label)
         ∧ ((edge_u e = u ∧ edge_v e = v)
            ∨ (directed = false ∧ edge_v e = u ∧ edge_u e = v)).
Proof.
  intros HG _. rewrite (has_edge_spec _ _ _ _ HG).
  split; intros (e & He & Hm & Hc); exists e; (split; [done|]); (split; [|done]).
  - destruct label as [l|]; [right|by left].
    by apply bool_decide_eq_true in Hm.
  - destruct Hm as [->| <-]; [done|].
    destruct (edge_label e); [by apply bool_decide_eq_true|done].
Qed.

Lemma has_edge_iff_edge_witness :
  path_graph = Some path_G
  ∧ (has_edge path_G 1 0 None = true
     ↔ ∃ e, e ∈ [mkEdge 0 1 None; mkEdge 1 2 None]
            ∧ ((None : option string) = None ∨ edge_label e = None)
            ∧ ((edge_u e = 1 ∧ edge_v e = 0)
               ∨ (false = false ∧ edge_v e = 1 ∧ edge_u e = 0))).
Proof.
  split; [vm_compute; reflexivity|].
  apply (has_edge_iff_edge false ["A"; "B"; "C"]).
  - vm_compute; reflexivity.
  - simpl; lia.
Defined.

(** X8. An undirected graph is symmetric: [has_edge(u, v, label)] and
    [has_edge(v, u, label)] agree for all nodes [u], [v] of the graph and
    every label. *)
Theorem has_edge_undirected_sym (vlabels : list string) (edges : list Edge)
    (G : DataGraph) (u v : nat) (label : option string) :
  DataGraph_init false vlabels edges = Some G →
  u < length vlabels → v < length vlabels →
  has_edge G u v label = has_edge G v u label.
Proof. intros HG _ _. by apply (has_edge_sym _ _ _ _ HG). Qed.

Lemma has_edge_undirected_sym_witness :
  path_graph = Some path_G ∧ has_edge path_G 0 1 None = has_edge path_G 1 0 None.
Proof.
  split; [vm_compute; reflexivity|].
  apply (has_edge_undirected_sym ["A"; "B"; "C"]
           [mkEdge 0 1 None; mkEdge 1 2 None]).
  - vm_compute; reflexivity.
  - simpl; lia.
  - simpl; lia.
Defined.

(** ** embed.py: the list full_mni_embeddings returns *)

(** What every call of [backtrack] guarantees, whatever the pattern and the
    graph: a solution extends the assignment the call started from to the
    remaining nodes, maps each of them into its domain, and uses no graph
    node twice if the assignment did not. *)
Lemma backtrack_extends G p rest : ∀ a emb,
  NoDup rest → (∀ i, i ∈ rest → a !! i = None) →
  emb ∈ backtrack G p rest a →
  a ⊆ emb
  ∧ (∀ i, is_Some (emb !! i) ↔ is_Some (a !! i) ∨ i ∈ rest)
  ∧ (∀ i x, emb !! i = Some x → a !! i = Some x ∨ (i ∈ rest ∧ x ∈ domain G p i))
  ∧ ((∀ i j x, a !! i = Some x → a !! j = Some x → i = j) →
     ∀ i j x, emb !! i = Some x → emb !! j = Some x → i = j).
Proof.
  induction rest as [|u_p rest IH]; intros a emb Hnd Hfree; cbn [backtrack].
  - intros ->%list_elem_of_singleton. split; [done|]. split; [|split; [|done]].
    + intros i. rewrite elem_of_nil. tauto.
    + intros i x ?. by left.
  - apply NoDup_cons in Hnd as [Hnot Hnd].
    intros (u_g & Hdom & Hin)%elem_of_flat_map.
    destruct (in_values u_g a) eqn:Hval; [by apply elem_of_nil in Hin|].
    destruct (consistent G p a u_p u_g); [|by apply elem_of_nil in Hin].
    assert (Hup : a !! u_p = None) by apply Hfree, list_elem_of_here.
    apply IH in Hin as (Hsub & Hdm & Hlab & Hinj); [|done|].
    2:{ intros i Hi. rewrite lookup_insert_ne by (intros ->; done).
        apply Hfree. by apply list_elem_of_further. }
    split; [|split; [|split]].
    + etrans; [|exact Hsub]. by apply insert_subseteq.
    + intros i. rewrite Hdm, elem_of_cons.
      destruct (decide (i = u_p)) as [->|Hne].
      * rewrite lookup_insert_eq. split; [auto|eauto].
      * rewrite lookup_insert_ne by done. tauto.
    + intros i x Hi. destruct (Hlab i x Hi) as [Ha|[? ?]].
      * destruct (decide (i = u_p)) as [->|Hne].
        -- rewrite lookup_insert_eq in Ha. injection Ha as <-.
           right. split; [apply list_elem_of_here|done].
        -- rewrite lookup_insert_ne in Ha by done. by left.
      * right. split; [by apply list_elem_of_further|done].
    + intros Hainj. apply Hinj. intros i j x.
      destruct (decide (i = u_p)) as [->|Hi], (decide (j = u_p)) as [->|Hj];
        rewrite ?lookup_insert_eq, ?lookup_insert_ne by done; try done.
      * intros [= <-] Hj'. exfalso.
        assert (in_values u_g a = true) by (apply in_values_spec; eauto).
        congruence.
      * intros Hi' [= <-]. exfalso.
        assert (in_values u_g a = true) by (apply in_values_spec; eauto).
        congruence.
      * apply Hainj.
Qed.

Lemma NoDup_flat_map {A B} (f : A → list B) (l : list A) :
  NoDup l → (∀ x, x ∈ l → NoDup (f x)) →
  (∀ x y z, x ∈ l → y ∈ l → z ∈ f x → z ∈ f y → x = y) →
  NoDup (flat_map f l).
Proof.
  induction l as [|x l IH]; intros Hnd Hf Hdisj; cbn [flat_map]; [apply NoDup_nil_2|].
  apply NoDup_cons in Hnd as [Hnot Hnd].
  apply NoDup_app. split; [apply Hf, list_elem_of_here|]. split.
  - intros z Hz (y & Hy & Hzy)%elem_of_flat_map. apply Hnot.
    rewrite (Hdisj x y z); [done|apply list_elem_of_here|
                            by apply list_elem_of_further|done..].
  - apply IH; [done| |].
    + intros y Hy. apply Hf. by apply list_elem_of_further.
    + intros y1 y2 z ? ?. apply Hdisj; by apply list_elem_of_further.
Qed.

Lemma domain_NoDup G p i : NoDup (domain G p i).
Proof. unfold domain, lab2nodes. apply NoDup_filter, NoDup_seq. Qed.

Lemma backtrack_NoDup G p rest : ∀ a,
  NoDup rest → (∀ i, i ∈ rest → a !! i = None) →
  NoDup (backtrack G p rest a).
Proof.
  induction rest as [|u_p rest IH]; intros a Hnd Hfree; cbn [backtrack].
  - apply NoDup_singleton.
  - apply NoDup_cons in Hnd as [Hnot Hnd].
    assert (Hfree' : ∀ u_g i, i ∈ rest → <[u_p := u_g]> a !! i = None).
    { intros u_g i Hi. rewrite lookup_insert_ne by (intros ->; done).
      apply Hfree. by apply list_elem_of_further. }
    apply NoDup_flat_map; [apply domain_NoDup| |].
    + intros u_g _. destruct (in_values u_g a); [apply NoDup_nil_2|].
      destruct (consistent G p a u_p u_g); [|apply NoDup_nil_2].
      apply IH; [done|apply Hfree'].
    + intros x y emb _ _ Hx Hy.
      assert (∀ u_g, emb ∈ (if in_values u_g a then []
                            else if consistent G p a u_p u_g
                                 then backtrack G p rest (<[u_p := u_g]> a)
                                 else []) → emb !! u_p = Some u_g) as Hat.
      { intros u_g Hin. destruct (in_values u_g a); [by apply elem_of_nil in Hin|].
        destruct (consistent G p a u_p u_g); [|by apply elem_of_nil in Hin].
        apply backtrack_extends in Hin as (Hsub & _); [|done|apply Hfree'].
        eapply lookup_weaken; [|exact Hsub]. apply lookup_insert_eq. }
      apply Hat in Hx. apply Hat in Hy. congruence.
Qed.

Lemma assignment_order_NoDup G p : NoDup (assignment_order G p).
Proof. rewrite assignment_order_perm. apply NoDup_seq. Qed.

Lemma elem_of_assignment_order G p i :
  i ∈ assignment_order G p ↔ i < num_nodes p.
Proof. rewrite assignment_order_perm, elem_of_seq. lia. Qed.

Lemma full_mni_embeddings_facts
    (gd : bool) (gvl : list string) (ges : list Edge) (G : DataGraph)
    (pvl : list string) (pes : list Edge) (pd : bool) (p : Pattern)
    (emb : gmap nat nat) :
  DataGraph_init gd gvl ges = Some G →
  Pattern_init pvl pes pd = Some p →
  emb ∈ full_mni_embeddings G p →
  (∀ i, is_Some (emb !! i) ↔ i < length pvl)
  ∧ (∀ i x, emb !! i = Some x → x < length gvl ∧ gvl !! x = pvl !! i)
  ∧ (∀ i j x, emb !! i = Some x → emb !! j = Some x → i = j).
Proof.
  intros HG Hp Hin.
  destruct (init_fields _ _ _ _ HG) as [_ Hgvl].
  apply Pattern_init_Some in Hp as (Hvl & _).
  apply backtrack_extends in Hin as (_ & Hdm & Hlab & Hinj);
    [|apply assignment_order_NoDup|intros; apply lookup_empty].
  assert (Hdom : ∀ i, is_Some (emb !! i) ↔ i < length pvl).
  { intros i. rewrite Hdm, elem_of_assignment_order, lookup_empty.
    unfold num_nodes. rewrite Hvl. split; [intros [[? ?]|?]; done|by right]. }
  split; [done|]. split.
  - intros i x Hi. destruct (Hlab i x Hi) as [Ha|[_ Hx]];
      [by rewrite lookup_empty in Ha|].
    apply elem_of_domain in Hx as [Hlt Hx]. rewrite Hgvl in Hlt.
    split; [done|].
    assert (i < length pvl) as Hi' by (apply Hdom; eauto).
    destruct (lookup_lt_is_Some_2 gvl x Hlt) as [lx Hlx].
    destruct (lookup_lt_is_Some_2 pvl i Hi') as [li Hli].
    unfold vlabel in Hx. rewrite Hgvl, Hvl, Hlx, Hli in Hx. cbn in Hx.
    by rewrite Hlx, Hli, Hx.
  - apply Hinj. intros i j x. by rewrite lookup_empty.
Qed.

Lemma full_mni_embeddings_found
    (gd : bool) (gvl : list string) (ges : list Edge) (G : DataGraph)
    (pvl : list string) (pes : list Edge) (pd : bool) (p : Pattern)
    (emb : gmap nat nat) :
  DataGraph_init gd gvl ges = Some G →
  Pattern_init pvl pes pd = Some p →
  pd = true ∨ gd = false →
  (∀ i, is_Some (emb !! i) ↔ i < length pvl) →
  (∀ i x, emb !! i = Some x → x < length gvl ∧ gvl !! x = pvl !! i) →
  (∀ i j x, emb !! i = Some x → emb !! j = Some x → i = j) →
  (∀ e x y, e ∈ pes → emb !! edge_u e = Some x → emb !! edge_v e = Some y →
            has_edge G x y (edge_label e) = true) →
  emb ∈ full_mni_embeddings G p.
Proof.
  intros HG Hp Hdir Hdom Hlab Hinj Hedges.
  destruct (init_fields _ _ _ _ HG) as [_ Hgvl].
  apply Pattern_init_Some in Hp as (Hvl & Hes & Hpd & _).
  assert (Hsym : sym_ok G p).
  { destruct Hdir as [->| ->]; [by left|right].
    intros u v l. by eapply has_edge_sym. }
  apply full_mni_embeddings_spec; [done|]. split; [split; [|split]|].
  - intros i x Hi. apply elem_of_domain. destruct (Hlab i x Hi) as [Hlt Hx].
    rewrite Hgvl, Hvl. split; [done|]. unfold vlabel. by rewrite Hgvl, Hx.
  - exact Hinj.
  - intros e He x y Hx Hy _. rewrite Hes in He. by eapply Hedges.
  - intros i. unfold num_nodes. by rewrite Hvl.
Qed.

(** X9. Whatever the pattern and the graph, every mapping returned by
    [full_mni_embeddings(p)] is defined exactly on the nodes of [p], sends
    each of them to a node of the graph with the same label, and sends no
    two of them to the same node. *)
Theorem full_mni_embeddings_total_labels
    (gd : bool) (gvl : list string) (ges : list Edge) (G : DataGraph)
    (pvl : list string) (pes : list Edge) (pd : bool) (p : Pattern)
    (emb : gmap nat nat) :
  DataGraph_init gd gvl ges = Some G →
  Pattern_init pvl pes pd = Some p →
  emb ∈ full_mni_embeddings G p →
  (∀ i, is_Some (emb !! i) ↔ i < length pvl)
  ∧ (∀ i x, emb !! i = Some x → x < length gvl ∧ gvl !! x = pvl !! i)
  ∧ (∀ i j x, emb !! i = Some x → emb !! j = Some x → i = j).
Proof. apply full_mni_embeddings_facts. Qed.

Lemma full_mni_embeddings_total_labels_witness :
  path_graph = Some path_G
  ∧ Pattern_init ["A"; "B"] [mkEdge 0 1 None] false = Some ab_pattern
  ∧ ({[0 := 0; 1 := 1]} : gmap nat nat) ∈ full_mni_embeddings path_G ab_pattern
  ∧ (∀ i, is_Some (({[0 := 0; 1 := 1]} : gmap nat nat) !! i) ↔ i < 2)
  ∧ (∀ i x, ({[0 := 0; 1 := 1]} : gmap nat nat) !! i = Some x →
            x < 3 ∧ ["A"; "B"; "C"] !! x = ["A"; "B"] !! i)
  ∧ (∀ i j x, ({[0 := 0; 1 := 1]} : gmap nat nat) !! i = Some x →
              ({[0 := 0; 1 := 1]} : gmap nat nat) !! j = Some x → i = j).
Proof.
  split; [vm_compute; reflexivity|]. split; [vm_compute; reflexivity|].
  split; [apply (bool_decide_unpack _); vm_compute; exact I|].
  apply (full_mni_embeddings_total_labels false ["A"; "B"; "C"]
           [mkEdge 0 1 None; mkEdge 1 2 None] path_G
           ["A"; "B"] [mkEdge 0 1 None] false ab_pattern).
  - vm_compute; reflexivity.
  - vm_compute; reflexivity.
  - apply (bool_decide_unpack _); vm_compute; exact I.
Defined.

(** X10. [full_mni_embeddings(p)] misses no embedding: for a pattern that
    is directed or is matched against an undirected graph, every mapping
    that is defined exactly on the nodes of [p], preserves the vertex
    labels, is injective and sends every pattern edge to an edge of the
    graph ([has_edge] from the image of the source to the image of the
    target, with the label of the pattern edge) is in the returned list. *)
Theorem full_mni_embeddings_complete
    (gd : bool) (gvl : list string) (ges : list Edge) (G : DataGraph)
    (pvl : list string) (pes : list Edge) (pd : bool) (p : Pattern)
    (emb : gmap nat nat) :
  DataGraph_init gd gvl ges = Some G →
  Pattern_init pvl pes pd = Some p →
  pd = true ∨ gd = false →
  (∀ i, is_Some (emb !! i) ↔ i < length pvl) →
  (∀ i x, emb !! i = Some x → x < length gvl ∧ gvl !! x = pvl !! i) →
  (∀ i j x, emb !! i = Some x → emb !! j = Some x → i = j) →
  (∀ e x y, e ∈ pes → emb !! edge_u e = Some x → emb !! edge_v e = Some y →
            has_edge G x y (edge_label e) = true) →
  emb ∈ full_mni_embeddings G p.
Proof. apply full_mni_embeddings_found. Qed.

Lemma lookup_01 (i x : nat) :
  ({[0 := 0; 1 := 1]} : gmap nat nat) !! i = Some x
  ↔ (i = 0 ∧ x = 0) ∨ (i = 1 ∧ x = 1).
Proof.
  destruct (decide (i = 0)) as [->|H0].
  - rewrite lookup_insert_eq. split; [intros [= <-]; auto|].
    intros [[_ ->]|[? _]]; [done|lia].
  - rewrite lookup_insert_ne by done.
    destruct (decide (i = 1)) as [->|H1].
    + rewrite lookup_singleton_eq. split; [intros [= <-]; auto|].
      intros [[? _]|[_ ->]]; [lia|done].
    + rewrite lookup_singleton_ne by done. split; [done|]. intros [[? _]|[? _]]; lia.
Qed.

Lemma full_mni_embeddings_complete_witness :
  path_graph = Some path_G
  ∧ Pattern_init ["A"; "B"] [mkEdge 0 1 None] false = Some ab_pattern
  ∧ ({[0 := 0; 1 := 1]} : gmap nat nat) ∈ full_mni_embeddings path_G ab_pattern.
Proof.
  split; [vm_compute; reflexivity|]. split; [vm_compute; reflexivity|].
  apply (full_mni_embeddings_complete false ["A"; "B"; "C"]
           [mkEdge 0 1 None; mkEdge 1 2 None] path_G
           ["A"; "B"] [mkEdge 0 1 None] false ab_pattern).
  - vm_compute; reflexivity.
  - vm_compute; reflexivity.
  - by right.
  - intros i. split.
    + intros [x [[-> _]|[-> _]]%lookup_01]; simpl; lia.
    + intros Hi. destruct i as [|[|i]]; [by exists 0|by exists 1|simpl in Hi; lia].
  - intros i x [[-> ->]|[-> ->]]%lookup_01; (split; [simpl; lia|reflexivity]).
  - intros i j x [[-> ->]|[-> ->]]%lookup_01 [[-> ?]|[-> ?]]%lookup_01;
      first [reflexivity|lia].
  - intros e x y ->%list_elem_of_singleton [[_ ->]|[? _]]%lookup_01
      [[? _]|[_ ->]]%lookup_01; try discriminate.
    vm_compute; reflexivity.
Defined.

(** X11. [full_mni_embeddings(p)] lists no embedding twice. *)
Theorem full_mni_embeddings_NoDup
    (gd : bool) (gvl : list string) (ges : list Edge) (G : DataGraph)
    (pvl : list string) (pes : list Edge) (pd : bool) (p : Pattern) :
  DataGraph_init gd gvl ges = Some G →
  Pattern_init pvl pes pd = Some p →
  NoDup (full_mni_embeddings G p).
Proof.
  intros _ _. apply backtrack_NoDup; [apply assignment_order_NoDup|].
  intros; apply lookup_empty.
Qed.

Lemma full_mni_embeddings_NoDup_witness :
  path_graph = Some path_G
  ∧ Pattern_init ["A"; "B"] [mkEdge 0 1 None] false = Some ab_pattern
  ∧ NoDup (full_mni_embeddings path_G ab_pattern).
Proof.
  split; [vm_compute; reflexivity|]. split; [vm_compute; reflexivity|].
  apply (full_mni_embeddings_NoDup false ["A"; "B"; "C"]
           [mkEdge 0 1 None; mkEdge 1 2 None] path_G
           ["A"; "B"] [mkEdge 0 1 None] false ab_pattern);
    vm_compute; reflexivity.
Defined.

(** ** embed.py: full_support_count with a cap *)

Section CountWithCap.
Variable set_order : list nat → list nat.
Hypothesis set_order_perm : ∀ l, set_order l ≡ₚ l.
Variables (G : DataGraph) (p : Pattern) (c : nat).

Lemma backtrack_count_cap rest : ∀ assignment count,
  backtrack_count set_order G p (Some c) rest assignment count
  = if decide (c ≤ count) then count
    else (count + length (backtrack G p rest assignment)) `min` c.
Proof.
  induction rest as [|u_p rest IH]; intros a n;
    cbn [backtrack_count backtrack cap_reached].
  - destruct (decide (c ≤ n)) as [Hc|Hc].
    + by rewrite bool_decide_eq_true_2.
    + rewrite bool_decide_eq_false_2 by done. cbn [length]. lia.
  - destruct (decide (c ≤ n)) as [Hc|Hc]; [by rewrite bool_decide_eq_true_2|].
    rewrite bool_decide_eq_false_2 by done.
    rewrite length_flat_map_sum.
    match goal with |- _ = (_ + sum_list_with ?g _) `min` _ =>
      assert (Hs : sum_list_with g (domain G p u_p)
                   = sum_list_with g (set_order (domain G p u_p)))
        by (by rewrite set_order_perm)
    end.
    rewrite Hs. clear Hs.
    transitivity
      (if decide (c ≤ n) then n
       else (n + sum_list_with
                   (λ x, length (if in_values x a then []
                                 else if consistent G p a u_p x
                                      then backtrack G p rest (<[u_p:=x]> a)
                                      else []))
                   (set_order (domain G p u_p))) `min` c);
      [|by rewrite decide_False].
    clear Hc. generalize (set_order (domain G p u_p)). intros l. revert n.
    induction l as [|u_g l IHl]; intros n; cbn [foldl sum_list_with].
    + destruct (decide (c ≤ n)); lia.
    + rewrite IHl, consistent_count_eq.
      destruct (in_values u_g a); [cbn [length]; by rewrite Nat.add_0_l|].
      destruct (consistent G p a u_p u_g); [|cbn [length]; by rewrite Nat.add_0_l].
      rewrite IH.
      destruct (decide (c ≤ n)) as [Hn|Hn].
      * rewrite decide_True by done. done.
      * destruct (decide (c ≤ _)); lia.
Qed.
End CountWithCap.

(** X12. With a cap [c], [full_support_count(p, c)] returns the number of
    embeddings [full_mni_embeddings(p)] lists when that number is at most
    [c], and [c] otherwise, whatever the order in which the domains (Python
    sets) are iterated. *)
Theorem full_support_count_capped (set_order : list nat → list nat)
    (Hperm : ∀ l, set_order l ≡ₚ l) (G : DataGraph) (p : Pattern) (c : nat) :
  full_support_count set_order G p (Some c)
  = length (full_mni_embeddings G p) `min` c.
Proof.
  unfold full_support_count, full_mni_embeddings.
  rewrite backtrack_count_cap by done.
  destruct (decide (c ≤ 0)); lia.
Qed.

Lemma full_support_count_capped_witness :
  (∀ l : list nat, (λ l, l) l ≡ₚ l)
  ∧ full_support_count (λ l, l) triangle_G xy_pattern (Some 1)
    = length (full_mni_embeddings triangle_G xy_pattern) `min` 1.
Proof.
  split; [reflexivity|].
  apply (full_support_count_capped (λ l, l)). reflexivity.
Defined.

(** ** embed.py: mni_support *)

Lemma imgs_add_eq imgs k g :
  imgs_add imgs (k, g)
  = if decide (k < length imgs) then Some (alter (λ s, {[g]} ∪ s) k imgs)
    else None.
Proof. reflexivity. Qed.

Lemma foldM_imgs_add_None (l : list (nat * nat)) : ∀ imgs,
  foldM imgs_add imgs l = None ↔ ∃ kx, kx ∈ l ∧ length imgs ≤ kx.1.
Proof.
  induction l as [|[k g] l IH]; intros imgs; cbn [foldM].
  - split; [done|]. by intros (kx & ?%elem_of_nil & _).
  - rewrite imgs_add_eq. destruct (decide (k < length imgs)) as [Hk|Hk].
    + cbn [mbind option_bind]. rewrite IH, length_alter. split.
      * intros (kx & Hin & Hle). exists kx. split; [by apply list_elem_of_further|done].
      * intros (kx & [->|Hin]%elem_of_cons & Hle); [cbn in Hle; lia|].
        by exists kx.
    + cbn [mbind option_bind]. split; [|done]. intros _.
      exists (k, g). split; [apply list_elem_of_here|cbn; lia].
Qed.

Lemma foldM_imgs_add_length (l : list (nat * nat)) : ∀ imgs imgs',
  foldM imgs_add imgs l = Some imgs' → length imgs' = length imgs.
Proof.
  induction l as [|[k g] l IH]; intros imgs imgs'; cbn [foldM].
  - by intros [= <-].
  - rewrite imgs_add_eq. destruct (decide (k < length imgs)); [|discriminate].
    cbn [mbind option_bind]. intros ->%IH. apply length_alter.
Qed.

Lemma foldM_embeddings_None (embs : list (gmap nat nat)) : ∀ imgs,
  foldM (λ imgs emb, foldM imgs_add imgs (map_to_list emb)) imgs embs = None
  ↔ ∃ emb i x, emb ∈ embs ∧ emb !! i = Some x ∧ length imgs ≤ i.
Proof.
  induction embs as [|emb embs IH]; intros imgs; cbn [foldM].
  - split; [done|]. by intros (emb & i & x & ?%elem_of_nil & _).
  - destruct (foldM imgs_add imgs (map_to_list emb)) as [imgs1|] eqn:H1;
      cbn [mbind option_bind].
    + rewrite IH, (foldM_imgs_add_length _ _ _ H1). split.
      * intros (emb' & i & x & Hin & Hx & Hle). exists emb', i, x.
        split; [by apply list_elem_of_further|done].
      * intros (emb' & i & x & [->|Hin]%elem_of_cons & Hx & Hle); [|by eauto 6].
        exfalso. assert (foldM imgs_add imgs (map_to_list emb) = None);
          [|congruence].
        apply foldM_imgs_add_None. exists (i, x).
        split; [by apply elem_of_map_to_list|done].
    + split; [|done]. intros _.
      apply foldM_imgs_add_None in H1 as ([i x] & Hin%elem_of_map_to_list & Hle).
      exists emb, i, x. split; [apply list_elem_of_here|done].
Qed.

Lemma foldM_embeddings_length (embs : list (gmap nat nat)) : ∀ imgs imgs',
  foldM (λ imgs emb, foldM imgs_add imgs (map_to_list emb)) imgs embs = Some imgs'
  → length imgs' = length imgs.
Proof.
  induction embs as [|emb embs IH]; intros imgs imgs'; cbn [foldM].
  - by intros [= <-].
  - destruct (foldM imgs_add imgs (map_to_list emb)) as [imgs1|] eqn:H1;
      [|discriminate].
    cbn [mbind option_bind]. intros ->%IH. by eapply foldM_imgs_add_length.
Qed.

(** X13. [mni_support(embeddings, k)] raises IndexError exactly when [k] is
    not 0 and some embedding has a pattern node that is not below [k]; for
    [k = 0] it returns 0 without reading the embeddings. *)
Theorem mni_support_raises (embeddings : list (gmap nat nat)) (k : nat) :
  mni_support embeddings k = None
  ↔ k ≠ 0 ∧ ∃ emb i x, emb ∈ embeddings ∧ emb !! i = Some x ∧ k ≤ i.
Proof.
  unfold mni_support. destruct (decide (k = 0)) as [->|Hk].
  - split; [done|]. by intros [? _].
  - destruct (foldM _ _ embeddings) as [imgs|] eqn:Hf; cbn [mbind option_bind].
    + destruct (size <$> imgs) eqn:Hs.
      * apply foldM_embeddings_length in Hf as Hlen.
        rewrite length_replicate in Hlen.
        apply fmap_nil_inv in Hs as ->. cbn in Hlen. lia.
      * split; [done|]. intros [_ (emb & i & x & Hin & Hx & Hle)].
        assert (foldM (λ imgs emb, foldM imgs_add imgs (map_to_list emb))
                      (replicate k ∅) embeddings = None); [|congruence].
        apply foldM_embeddings_None. exists emb, i, x.
        rewrite length_replicate. done.
    + split; [|done]. intros _. split; [done|].
      apply foldM_embeddings_None in Hf as (emb & i & x & ? & ? & Hle).
      rewrite length_replicate in Hle. eauto 6.
Qed.

Lemma size_list_to_set_le (l : list nat) :
  size (list_to_set l : gset nat) ≤ length l.
Proof.
  induction l as [|a l IH]; cbn [list_to_set length].
  - by rewrite size_empty.
  - rewrite size_union_alt, size_singleton.
    assert (size (list_to_set l ∖ {[a]} : gset nat) ≤ size (list_to_set l : gset nat))
      by (apply subseteq_size; set_solver).
    lia.
Qed.

Lemma length_omap_le {A B} (f : A → option B) (l : list A) :
  length (omap f l) ≤ length l.
Proof.
  induction l as [|a l IH]; [done|]. cbn.
  destruct (f a); cbn [length]; lia.
Qed.

Lemma mni_support_range (embeddings : list (gmap nat nat)) (k : nat) :
  k ≠ 0 →
  (∀ emb i, emb ∈ embeddings → is_Some (emb !! i) ↔ i < k) →
  ∃ m, mni_support embeddings k = Some m
       ∧ m ≤ length embeddings
       ∧ (m = 0 ↔ embeddings = []).
Proof.
  intros Hk Hdom.
  destruct (mni_support_spec embeddings k Hk)
    as (imgs & m & Hm & Hlen & Hmem & Hin & Hmin).
  { intros emb i x He Hx. apply (Hdom emb i He). eauto. }
  exists m. split; [done|].
  apply list_elem_of_fmap in Hin as (s & -> & Hs).
  apply list_elem_of_lookup in Hs as [i Hi].
  pose proof (Hmem i s Hi) as Hs.
  assert (i < k) as Hik by (rewrite <- Hlen; by eapply lookup_lt_Some).
  split; [|split].
  - transitivity (size (list_to_set (omap (λ emb : gmap nat nat, emb !! i)
                                          embeddings) : gset nat)).
    + apply subseteq_size. intros x (emb & He & Hx)%Hs.
      apply elem_of_list_to_set, list_elem_of_omap. eauto.
    + etrans; [apply size_list_to_set_le|apply length_omap_le].
  - intros Hz. destruct embeddings as [|emb embs]; [done|]. exfalso.
    destruct (proj2 (Hdom emb i (list_elem_of_here _ _)) Hik) as [x Hx].
    assert (x ∈ s) as Hxs by (apply Hs; exists emb; split;
                              [apply list_elem_of_here|done]).
    apply size_empty_inv in Hz. set_solver.
  - intros ->. apply size_empty_iff. intros x. rewrite Hs.
    split; [by intros (? & ?%elem_of_nil & _)|set_solver].
Qed.

(** X14. On embeddings that are each defined exactly on the pattern nodes
    [0 .. k-1], [k >= 1], [mni_support] does not raise; the support is at
    most the number of embeddings, and it is 0 exactly when there is no
    embedding. *)
Theorem mni_support_bounds (embeddings : list (gmap nat nat)) (k : nat) :
  k ≠ 0 →
  (∀ emb i, emb ∈ embeddings → is_Some (emb !! i) ↔ i < k) →
  ∃ m, mni_support embeddings k = Some m
       ∧ m ≤ length embeddings
       ∧ (m = 0 ↔ embeddings = []).
Proof. apply mni_support_range. Qed.

Lemma mni_support_bounds_witness :
  ∃ m, mni_support [{[0 := 0; 1 := 1]}] 2 = Some m
       ∧ m ≤ length [({[0 := 0; 1 := 1]} : gmap nat nat)]
       ∧ (m = 0 ↔ [({[0 := 0; 1 := 1]} : gmap nat nat)] = []).
Proof.
  apply (mni_support_bounds [{[0 := 0; 1 := 1]}] 2).
  - lia.
  - intros emb i ->%list_elem_of_singleton. split.
    + intros [x [[-> _]|[-> _]]%lookup_01]; lia.
    + intros Hi. destruct i as [|[|i]]; [by exists 0|by exists 1|lia].
Defined.

(** ** embed.py: the assignment order *)

(** The order of the sort keys [(len(domains[u]), -deg[u], u)], spelled
    out: a smaller domain first, then a larger pattern degree, then the
    smaller node id. *)
Definition assigned_before (G : DataGraph) (p : Pattern) (u v : nat) : Prop :=
  length (domain G p u) < length (domain G p v)
  ∨ (length (domain G p u) = length (domain G p v)
     ∧ (pattern_degree p v < pattern_degree p u
        ∨ (pattern_degree p v = pattern_degree p u ∧ u ≤ v))).

Lemma order_le_iff G p u v : order_le G p u v ↔ assigned_before G p u v.
Proof.
  unfold order_le, order_cmp, assigned_before, lex.
  destruct (Nat.compare_spec (length (domain G p u)) (length (domain G p v)));
    destruct (Nat.compare_spec (pattern_degree p v) (pattern_degree p u));
    destruct (Nat.compare_spec u v);
    split; intros H'; try done; try lia; try (exfalso; lia).
Qed.

#[local] Instance order_le_trans G p : Transitive (order_le G p).
Proof.
  intros u v w. rewrite !order_le_iff. unfold assigned_before. lia.
Qed.

#[local] Instance order_le_total G p : Total (order_le G p).
Proof.
  intros u v. rewrite !order_le_iff. unfold assigned_before. lia.
Qed.

(** X15. [_assignment_order] returns every pattern node once, and each node
    is followed only by nodes with a larger domain, or the same domain size
    and a smaller pattern degree, or the same of both and a larger id. *)
Theorem assignment_order_sorted (G : DataGraph) (p : Pattern) :
  assignment_order G p ≡ₚ seq 0 (num_nodes p)
  ∧ StronglySorted (assigned_before G p) (assignment_order G p).
Proof.
  split; [apply merge_sort_Permutation|].
  pose proof (StronglySorted_merge_sort (order_le G p) (seq 0 (num_nodes p))) as H.
  fold (assignment_order G p) in H.
  induction H as [|u l _ IH Hall]; constructor; [done|].
  eapply Forall_impl; [exact Hall|]. intros v. by rewrite order_le_iff.
Qed.

(** ** pattern.py and canonical.py: what the Pattern constructor accepts *)

Lemma append_at_Some_iff {A} (i : nat) (x : A) rows :
  is_Some (append_at i x rows) ↔ i < length rows.
Proof.
  unfold append_at. destruct (decide (i < length rows)).
  - split; [done|eauto].
  - split; [by intros [? ?]|done].
Qed.

Lemma helper_step_is_Some d padj0 keys0 e :
  is_Some (helper_step d (padj0, keys0) e)
  ↔ edge_u e < length padj0 ∧ edge_v e < length padj0.
Proof.
  split.
  - intros [[pa ks] H].
    assert (helper_loop d (padj0, keys0) [e] = Some (pa, ks)) as Hl
      by (cbn [helper_loop]; by rewrite H).
    apply helper_loop_in_range in Hl as [_ Hr]. apply Hr, list_elem_of_here.
  - intros [Hu Hv]. unfold helper_step, PNbr in *.
    destruct d.
    + destruct (proj2 (append_at_Some_iff (edge_u e) (edge_v e, edge_label e, 1)
                         padj0) Hu) as [p1 H1].
      rewrite H1. cbn [mbind option_bind].
      apply append_at_Some in H1 as (_ & Hl1 & _).
      destruct (proj2 (append_at_Some_iff (edge_v e) (edge_u e, edge_label e, 2) p1))
        as [p2 H2]; [lia|].
      rewrite H2. cbn [mbind option_bind]. eauto.
    + destruct (proj2 (append_at_Some_iff (edge_u e) (edge_v e, edge_label e, 0)
                         padj0) Hu) as [p1 H1].
      rewrite H1. cbn [mbind option_bind].
      apply append_at_Some in H1 as (_ & Hl1 & _).
      destruct (proj2 (append_at_Some_iff (edge_v e) (edge_u e, edge_label e, 0) p1))
        as [p2 H2]; [lia|].
      rewrite H2. cbn [mbind option_bind]. destruct (norm_pair _ _). eauto.
Qed.

Lemma helper_loop_is_Some d es : ∀ padj0 keys0,
  is_Some (helper_loop d (padj0, keys0) es)
  ↔ ∀ e, e ∈ es → edge_u e < length padj0 ∧ edge_v e < length padj0.
Proof.
  induction es as [|e es IH]; intros padj0 keys0; cbn [helper_loop].
  - split; [by intros _ e ?%elem_of_nil|eauto].
  - split.
    + intros [[pa ks] H]. apply (helper_loop_in_range d (e :: es) padj0 keys0 pa ks).
      done.
    + intros Hall.
      destruct (proj2 (helper_step_is_Some d padj0 keys0 e)) as [[pa ks] Hstep];
        [apply Hall, list_elem_of_here|].
      rewrite Hstep. cbn [mbind option_bind].
      apply helper_step_Some in Hstep as (Hl & _).
      apply IH. intros e' He'. rewrite Hl. apply Hall. by apply list_elem_of_further.
Qed.

Lemma helper_init_is_Some d vl es :
  is_Some (helper_init d vl es)
  ↔ ∀ e, e ∈ es → edge_u e < length vl ∧ edge_v e < length vl.
Proof.
  unfold helper_init.
  pose proof (helper_loop_is_Some d es (replicate (length vl) []) []) as H.
  rewrite length_replicate in H. rewrite <- H.
  destruct (helper_loop _ _ _) as [[pa ks]|]; cbn; split; intros [? ?]; eauto; done.
Qed.

(** Two pattern edges between the same nodes: in the same direction, or in
    either direction when the pattern is undirected. *)
Definition same_ends (directed : bool) (e1 e2 : Edge) : Prop :=
  (edge_u e1 = edge_u e2 ∧ edge_v e1 = edge_v e2)
  ∨ (directed = false ∧ edge_u e1 = edge_v e2 ∧ edge_v e1 = edge_u e2).

Lemma key_cmp_is_Some u1 v1 l1 d1 u2 v2 l2 d2 :
  is_Some (key_cmp (u1, v1, l1, d1) (u2, v2, l2, d2))
  ↔ (u1 = u2 → v1 = v2 → (l1 = None ↔ l2 = None)).
Proof.
  unfold key_cmp, label_cmp.
  destruct (Nat.compare_spec u1 u2); [|split; [intros _ ?; lia|eauto]..].
  destruct (Nat.compare_spec v1 v2); [|split; [intros _ _ ?; lia|eauto]..].
  destruct l1 as [x|], l2 as [y|].
  - split; [done|]. intros _. destruct (x ?= y)%string; eauto.
  - split; [by intros [? ?]|]. intros H'. by pose proof (proj2 (H' H H0) eq_refl).
  - split; [by intros [? ?]|]. intros H'. by pose proof (proj1 (H' H H0) eq_refl).
  - split; [done|eauto].
Qed.

Lemma ekey_same_ends d e1 e2 :
  (ekey d e1).1.1 = (ekey d e2).1.1 ↔ same_ends d e1 e2.
Proof.
  unfold ekey, norm_key, norm_pair, same_ends. destruct d; cbn.
  - split; [intros [= ? ?]; by left|]. intros [[-> ->]|(? & _)]; done.
  - repeat case_decide; cbn; split.
    all: try (intros [= ? ?]; first [left; split; lia|right; repeat split; lia]).
    all: intros [[? ?]|(_ & ? & ?)]; f_equal; lia.
Qed.

Lemma sorted_keys_is_Some ks :
  is_Some (sorted_keys ks) ↔ ∀ k1 k2, k1 ∈ ks → k2 ∈ ks → is_Some (key_cmp k1 k2).
Proof.
  unfold sorted_keys.
  destruct (forallb _ ks) eqn:Hall.
  - split; [|eauto]. intros _ k1 k2 H1 H2.
    rewrite forallb_forall in Hall.
    specialize (Hall k1 (proj1 (list_elem_of_In _ _) H1)).
    rewrite forallb_forall in Hall.
    specialize (Hall k2 (proj1 (list_elem_of_In _ _) H2)).
    by apply bool_decide_eq_true_1 in Hall.
  - split; [by intros [? ?]|]. intros Hcmp. exfalso.
    assert (forallb (λ k1, forallb (λ k2, bool_decide (is_Some (key_cmp k1 k2))) ks)
                    ks = true); [|congruence].
    apply forallb_forall. intros k1 H1%list_elem_of_In.
    apply forallb_forall. intros k2 H2%list_elem_of_In.
    by apply bool_decide_eq_true_2, Hcmp.
Qed.

Lemma Pattern_init_is_Some (vlabels : list string) (edges : list Edge)
    (directed : bool) :
  is_Some (Pattern_init vlabels edges directed)
  ↔ (∀ e, e ∈ edges → edge_u e < length vlabels ∧ edge_v e < length vlabels)
    ∧ (∀ e1 e2, e1 ∈ edges → e2 ∈ edges → same_ends directed e1 e2 →
         (edge_label e1 = None ↔ edge_label e2 = None)).
Proof.
  unfold Pattern_init, canonical_key.
  rewrite <- (helper_init_is_Some directed).
  destruct (helper_init directed vlabels edges) as [h|] eqn:Hh;
    cbn [mbind option_bind].
  2:{ split; [by intros [? ?]|]. intros [Hs _]. by apply is_Some_None in Hs. }
  assert (is_Some (canonical_code h)
          ↔ ∀ e1 e2, e1 ∈ edges → e2 ∈ edges → same_ends directed e1 e2 →
              (edge_label e1 = None ↔ edge_label e2 = None)) as Hcode.
  { unfold canonical_code.
    transitivity (is_Some (sorted_keys (edge_keys h))).
    { destruct (sorted_keys (edge_keys h)); cbn; split; intros [? ?]; eauto; done. }
    rewrite sorted_keys_is_Some. split.
    - intros Hcmp e1 e2 H1 H2 Hsame.
      assert (is_Some (key_cmp (ekey directed e1) (ekey directed e2))) as Hc.
      { apply Hcmp; apply (keys_elem _ _ _ _ Hh); eauto. }
      apply ekey_same_ends in Hsame.
      unfold ekey, norm_key in *. destruct directed.
      + apply key_cmp_is_Some in Hc; [done|by injection Hsame..].
      + destruct (norm_pair (edge_u e1) _), (norm_pair (edge_u e2) _).
        cbn in Hsame. apply key_cmp_is_Some in Hc; [done|by injection Hsame..].
    - intros Hlab k1 k2 (e1 & H1 & ->)%(keys_elem _ _ _ _ Hh)
        (e2 & H2 & ->)%(keys_elem _ _ _ _ Hh).
      specialize (Hlab e1 e2 H1 H2). rewrite <- ekey_same_ends in Hlab.
      unfold ekey, norm_key in *. destruct directed.
      + apply key_cmp_is_Some. intros Hu Hv. apply Hlab. cbn. congruence.
      + destruct (norm_pair (edge_u e1) _), (norm_pair (edge_u e2) _).
        apply key_cmp_is_Some. intros Hu Hv. apply Hlab. cbn. congruence. }
  rewrite <- Hcode.
  destruct (canonical_code h); cbn; split.
  - intros _. split; eauto.
  - eauto.
  - by intros [? ?].
  - by intros [_ [? ?]].
Qed.

(** X16. [Pattern(vlabels, edges, directed)] raises exactly in two cases:
    an endpoint of an edge is not an index of [vlabels] (IndexError), or
    two edges between the same nodes (in either direction when the pattern
    is undirected) carry a label [None] and a [str] label (TypeError of
    [sorted(self.edge_keys)]). *)
Theorem Pattern_init_accepts (vlabels : list string) (edges : list Edge)
    (directed : bool) :
  is_Some (Pattern_init vlabels edges directed)
  ↔ (∀ e, e ∈ edges → edge_u e < length vlabels ∧ edge_v e < length vlabels)
    ∧ (∀ e1 e2, e1 ∈ edges → e2 ∈ edges → same_ends directed e1 e2 →
         (edge_label e1 = None ↔ edge_label e2 = None)).
Proof. apply Pattern_init_is_Some. Qed.

(** ** canonical.py: the shape of the canonical code *)

(** X17. A pattern of two nodes and one edge between them, as the seeds
    are, is always accepted; its key has the one tuple
    [(0, 1, lu, el or "", lv, flag)], with flag 1 for a directed and 0 for
    an undirected pattern. *)
Theorem Pattern_init_one_edge (lu lv : string) (elab : option string)
    (directed : bool) :
  Pattern_init [lu; lv] [mkEdge 0 1 elab] directed
  = Some (mkPattern directed [lu; lv] [mkEdge 0 1 elab]
            (directed, [(0, 1, lu, default "" elab, lv,
                         if directed then 1 else 0)])).
Proof. unfold Pattern_init. by rewrite seed_key. Qed.

Section CodeShape.
Variables (d : bool) (vl : list string) (es : list Edge) (h : CanonDFSHelper).
Hypothesis Hh : helper_init d vl es = Some h.
Hypothesis Hconn : connected vl es.
Hypothesis Hne : es ≠ [].

(** The canonical code is the code of a final state of [_dfs_enumerate] in
    which every key is used and every node visited. *)
Lemma canonical_code_state C :
  canonical_code h = Some C →
  ∃ st, dfs_inv d vl h st ∧ C = code st
    ∧ (∀ k, k ∈ edge_keys h → k ∈ used_edges st)
    ∧ (∀ b, b < length vl → b ∈ visited st).
Proof.
  unfold canonical_code.
  destruct (sorted_keys (edge_keys h)) as [ks|] eqn:Hks; [|discriminate].
  cbn [mbind option_bind]. apply sorted_keys_perm in Hks.
  destruct (helper_fields _ _ _ _ Hh) as [Hd _]. rewrite Hd.
  destruct (foldl (best_step h) None (seeds_of d ks)) as [C'|] eqn:HC'.
  - cbn. intros [= <-].
    apply best_code in HC' as [?|(su & sv & el & df & Hin & ->)]; [done|].
    assert ((sv, el, df) ∈ default [] (p_adj h !! su) ∧ df ≠ 2) as [Hent Hdf].
    { assert (∃ e, e ∈ es ∧ (su, sv, el, df) = ekey d e) as (e & He & Heq).
      { unfold seeds_of in Hin.
        assert (d = true ∨ d = false) as [Hdd|Hdd] by (clear; destruct d; auto);
          rewrite Hdd in Hin.
        - apply elem_of_flat_map in Hin as ([[[u v] l] dd] & Hk & Hin).
          destruct (decide (dd = 1)) as [->|]; [|by apply elem_of_nil in Hin].
          apply list_elem_of_singleton in Hin as ->.
          rewrite Hks in Hk. by apply (keys_elem _ _ _ _ Hh) in Hk.
        - apply list_elem_of_fmap in Hin as ([[[u v] l] dd] & -> & Hk).
          rewrite Hks in Hk. apply (keys_elem _ _ _ _ Hh) in Hk as (e & He & Hk).
          exists e. split; [done|]. rewrite Hdd in Hk |- *.
          unfold ekey, norm_key in Hk |- *.
          destruct (norm_pair _ _). by injection Hk as -> -> -> ->. }
      destruct (seed_entry _ _ _ _ Hh e He) as (su' & sv' & Hk & Hent & _).
      rewrite Hk in Heq. injection Heq as -> -> -> ->.
      split; [done|]. clear. by destruct d. }
    destruct (dfs_enumerate_spec _ _ _ _ Hh Hconn Hne su sv el df Hent Hdf)
      as (st & Hinv & -> & ? & ?).
    by exists st.
  - exfalso.
    destruct (best_code_Some h (seeds_of d ks) None) as [C' HC'']; [|congruence].
    left. intros Hnil.
    assert (∃ e0, e0 ∈ es) as [e0 He0].
    { clear -Hne. destruct es; [done|]. eexists. apply list_elem_of_here. }
    assert (ekey d e0 ∈ ks) as Hk0
      by (rewrite Hks; apply (keys_elem _ _ _ _ Hh); by exists e0).
    assert (ekey d e0 ∈ seeds_of d ks) as Hin;
      [|rewrite Hnil in Hin; by apply elem_of_nil in Hin].
    clear -Hk0. unfold seeds_of, ekey, norm_key in *.
    destruct d.
    + apply elem_of_flat_map. eexists. split; [exact Hk0|].
      cbn. apply list_elem_of_here.
    + apply list_elem_of_fmap. eexists. split; [|exact Hk0].
      by destruct (norm_pair _ _).
Qed.
End CodeShape.

Lemma canonical_key_indices (vlabels : list string) (edges : list Edge)
    (directed : bool) (p : Pattern) :
  Pattern_init vlabels edges directed = Some p →
  connected vlabels edges → edges ≠ [] →
  (∀ t, t ∈ (p_key p).2 → t_i t < length vlabels ∧ t_j t < length vlabels)
  ∧ (∀ i, i < length vlabels → ∃ t, t ∈ (p_key p).2 ∧ (t_i t = i ∨ t_j t = i))
  ∧ length (filter (λ t, t_df t ≠ 2) (p_key p).2)
    = length (remove_dups (ekey directed <$> edges))
  ∧ (∀ t, t ∈ (p_key p).2 →
       if directed then t_df t = 1 ∨ t_df t = 2 else t_df t = 0).
Proof.
  unfold Pattern_init, canonical_key.
  destruct (helper_init directed vlabels edges) as [h|] eqn:Hh; [|discriminate].
  cbn [mbind option_bind].
  destruct (canonical_code h) as [C|] eqn:HC; [|discriminate].
  cbn [mbind option_bind]. intros [= <-] Hconn Hne. cbn [p_key snd].
  destruct (canonical_code_records _ _ _ _ Hh Hconn Hne C HC) as [_ Htypes].
  destruct (canonical_code_state _ _ _ _ Hh Hconn Hne C HC)
    as (st & (Hndv & Hndu & Hemit & Hvis & Hment) & -> & Hused & Hall).
  assert (Hperm : visited st ≡ₚ seq 0 (length vlabels)).
  { apply NoDup_Permutation; [done|apply NoDup_seq|].
    intros w. rewrite elem_of_seq. split.
    - intros Hw. apply Hvis in Hw. lia.
    - intros [_ ?]. by apply Hall. }
  assert (Hlen : length (visited st) = length vlabels)
    by (by rewrite Hperm, length_seq).
  assert (Hem : ∀ t, t ∈ code st → ∃ k, emitted directed h (visited st) t k).
  { intros t [n Hn]%list_elem_of_lookup.
    destruct (Forall2_lookup_l _ _ _ _ _ Hemit Hn) as (k & _ & Hk). eauto. }
  split; [|split; [|split]].
  - intros t (k & u & v & el & tag & i & j & _ & _ & Hi & Hj & -> & _)%Hem.
    apply index_of_lt in Hi, Hj. unfold t_i, t_j. cbn. lia.
  - intros i Hi. rewrite <- Hlen in Hi.
    destruct (lookup_lt_is_Some_2 _ _ Hi) as [w Hw].
    destruct (Hment w) as (t & i' & Ht & Hi' & Hm); [by eapply list_elem_of_lookup_2|].
    apply index_of_lookup in Hi'.
    assert (i' = i) as -> by (eapply NoDup_lookup; [exact Hndv|exact Hi'|exact Hw]).
    exists t. split; [done|]. unfold t_i, t_j. destruct Hm as [[? _]|[? _]]; auto.
  - apply Permutation_length in Htypes.
    unfold code_types, edge_types in Htypes. by rewrite !length_fmap in Htypes.
  - intros t (k & u & v & el & tag & i & j & Hent & _ & _ & _ & -> & _)%Hem.
    apply (padj_elem _ _ _ _ Hh) in Hent as (e & _ & _ & Hc). unfold t_df. cbn in *.
    destruct directed, Hc as [(_ & _ & ->)|(_ & _ & ->)]; auto.
Qed.

(** X18. The key of a connected pattern (invariant P2) with at least one
    edge numbers the [n] pattern nodes by the DFS indices [0 .. n-1]: the
    indices of every tuple are below [n] and every index below [n] occurs
    in a tuple.  It has one tuple that is not flagged 2 for each distinct
    edge; the tuples of an undirected pattern are all flagged 0, those of a
    directed pattern 1 or 2. *)
Theorem canonical_key_shape (vlabels : list string) (edges : list Edge)
    (directed : bool) (p : Pattern) :
  Pattern_init vlabels edges directed = Some p →
  connected vlabels edges → edges ≠ [] →
  (∀ t, t ∈ (p_key p).2 → t_i t < length vlabels ∧ t_j t < length vlabels)
  ∧ (∀ i, i < length vlabels → ∃ t, t ∈ (p_key p).2 ∧ (t_i t = i ∨ t_j t = i))
  ∧ length (filter (λ t, t_df t ≠ 2) (p_key p).2)
    = length (remove_dups (ekey directed <$> edges))
  ∧ (∀ t, t ∈ (p_key p).2 →
       if directed then t_df t = 1 ∨ t_df t = 2 else t_df t = 0).
Proof. apply canonical_key_indices. Qed.

Lemma canonical_key_shape_witness :
  (∀ t, t ∈ (p_key ab_pattern).2 → t_i t < 2 ∧ t_j t < 2)
  ∧ (∀ i, i < 2 → ∃ t, t ∈ (p_key ab_pattern).2 ∧ (t_i t = i ∨ t_j t = i))
  ∧ length (filter (λ t, t_df t ≠ 2) (p_key ab_pattern).2)
    = length (remove_dups (ekey false <$> [mkEdge 0 1 None]))
  ∧ (∀ t, t ∈ (p_key ab_pattern).2 → t_df t = 0).
Proof.
  apply (canonical_key_shape ["A"; "B"] [mkEdge 0 1 None] false ab_pattern).
  - vm_compute; reflexivity.
  - apply connectedb_sound. vm_compute; reflexivity.
  - discriminate.
Defined.

(** ** candidate.py: the right-most path *)

Lemma foldl_max_spec (l : list nat) : ∀ a,
  foldl Nat.max a l ∈ a :: l ∧ ∀ y, y ∈ a :: l → y ≤ foldl Nat.max a l.
Proof.
  induction l as [|z l IH]; intros a; cbn [foldl].
  - split; [apply list_elem_of_here|]. intros y ->%list_elem_of_singleton. lia.
  - destruct (IH (a `max` z)) as [Hin Hle]. split.
    + apply elem_of_cons in Hin as [Hin|Hin].
      * rewrite Hin. destruct (Nat.max_spec a z) as [[_ ->]|[_ ->]].
        -- apply list_elem_of_further, list_elem_of_here.
        -- apply list_elem_of_here.
      * by do 2 apply list_elem_of_further.
    + intros y Hy.
      assert (a `max` z ≤ foldl Nat.max (a `max` z) l)
        by (apply Hle, list_elem_of_here).
      apply elem_of_cons in Hy as [->|[->|Hy]%elem_of_cons]; [lia..|].
      by apply Hle, list_elem_of_further.
Qed.

Lemma last_climb fuel parent : ∀ x path,
  last (climb fuel parent x path) = last (x :: path).
Proof.
  induction fuel as [|fuel IH]; intros x path; cbn [climb]; [done|].
  destruct (parent !! x) as [up|]; [|done].
  rewrite IH. reflexivity.
Qed.

Lemma Pattern_init_key vl es d p :
  Pattern_init vl es d = Some p →
  canonical_key (p_vlabels p) (p_edges p) (p_directed p) = Some (p_key p).
Proof.
  unfold Pattern_init.
  destruct (canonical_key vl es d) as [k|] eqn:Hk; [|discriminate].
  cbn [mbind option_bind]. by intros [= <-].
Qed.

(** X19. For a connected pattern with at least one edge, [_rmpath] does
    not raise and returns a non-empty path whose last element, the node
    [extensions] grows from first, is [n - 1], the largest DFS index of the
    canonical code. *)
Theorem rmpath_last (vlabels : list string) (edges : list Edge)
    (directed : bool) (p : Pattern) :
  Pattern_init vlabels edges directed = Some p →
  connected vlabels edges → edges ≠ [] →
  ∃ path, rmpath p = Some path ∧ last path = Some (length vlabels - 1).
Proof.
  intros Hp Hconn Hne.
  destruct (canonical_key_indices _ _ _ _ Hp Hconn Hne) as (Hlt & Hall & Hlen & _).
  unfold rmpath. rewrite (Pattern_init_key _ _ _ _ Hp).
  destruct (p_key p) as [dd C]. cbn [mbind option_bind snd] in *.
  destruct C as [|t C].
  { exfalso. cbn in Hlen. symmetry in Hlen. apply nil_length_inv in Hlen.
    destruct edges as [|e edges]; [done|].
    assert (ekey directed e ∈ remove_dups (ekey directed <$> e :: edges)) as Hin
      by (apply elem_of_remove_dups; cbn; apply list_elem_of_here).
    rewrite Hlen in Hin. by apply elem_of_nil in Hin. }
  destruct (foldl rm_step _ _) as [seen parent].
  eexists. split; [reflexivity|]. rewrite last_climb. cbn [last]. f_equal.
  set (l := _ ++ _).
  destruct (foldl_max_spec l 0) as [Hin Hle].
  assert (∀ x, x ∈ l → x < length vlabels) as Hl.
  { intros x. unfold l. rewrite elem_of_app, !list_elem_of_fmap.
    intros [(t' & -> & Ht')|(t' & -> & Ht')]; by destruct (Hlt t' Ht'). }
  assert (0 < length vlabels) as Hpos
    by (destruct (Hlt t (list_elem_of_here _ _)); lia).
  destruct (Hall (length vlabels - 1)) as (t' & Ht' & Hor); [lia|].
  assert (length vlabels - 1 ∈ l) as Hmax.
  { unfold l. rewrite elem_of_app, !list_elem_of_fmap.
    destruct Hor as [<-|<-]; [left|right]; by exists t'. }
  assert (foldl Nat.max 0 l < length vlabels).
  { apply elem_of_cons in Hin as [->|Hin]; [done|by apply Hl]. }
  assert (length vlabels - 1 ≤ foldl Nat.max 0 l)
    by (by apply Hle, list_elem_of_further).
  lia.
Qed.

Lemma rmpath_last_witness :
  ∃ path, rmpath ab_pattern = Some path ∧ last path = Some (2 - 1).
Proof.
  apply (rmpath_last ["A"; "B"] [mkEdge 0 1 None] false ab_pattern).
  - vm_compute; reflexivity.
  - apply connectedb_sound. vm_compute; reflexivity.
  - discriminate.
Defined.

(** ** canonical.py: the orientation of undirected edges *)

(** The edge [e] written from its other end. *)
Definition flip_edge (e : Edge) : Edge :=
  mkEdge (edge_v e) (edge_u e) (edge_label e).

Lemma norm_pair_comm u v : norm_pair u v = norm_pair v u.
Proof.
  unfold norm_pair. repeat case_decide; try done; try lia.
  assert (u = v) by lia. by subst.
Qed.

Lemma append_at_comm {A} (i j : nat) (x y : A) rows :
  i ≠ j →
  append_at i x rows ≫= append_at j y = append_at j y rows ≫= append_at i x.
Proof.
  intros Hij. unfold append_at.
  destruct (decide (i < length rows)), (decide (j < length rows));
    cbn [mbind option_bind]; rewrite ?length_alter;
    repeat case_decide; try done.
  f_equal. apply list_eq. intros k.
  destruct (decide (k = i)) as [Hi|Hi], (decide (k = j)) as [Hj|Hj];
    try congruence; subst.
  - rewrite list_lookup_alter_ne, !list_lookup_alter_eq by congruence.
    by rewrite list_lookup_alter_ne by congruence.
  - rewrite list_lookup_alter_eq, !list_lookup_alter_ne by congruence.
    by rewrite list_lookup_alter_eq.
  - by rewrite !list_lookup_alter_ne by congruence.
Qed.

Lemma helper_step_flip st e :
  helper_step false st (flip_edge e) = helper_step false st e.
Proof.
  destruct st as [padj keys]. unfold helper_step, flip_edge.
  cbn [edge_u edge_v edge_label]. rewrite (norm_pair_comm (edge_v e)).
  destruct (decide (edge_u e = edge_v e)) as [Huv|Huv]; [by rewrite Huv|].
  pose proof (append_at_comm (edge_v e) (edge_u e)
                ((edge_u e, edge_label e, 0) : PNbr)
                ((edge_v e, edge_label e, 0) : PNbr) padj) as Hc.
  unfold PNbr in *.
  destruct (append_at (edge_v e) (edge_u e, edge_label e, 0) padj) as [p1|];
    destruct (append_at (edge_u e) (edge_v e, edge_label e, 0) padj) as [p1'|];
    cbn [mbind option_bind] in *.
  - rewrite Hc by congruence. done.
  - rewrite Hc by congruence. done.
  - rewrite <- Hc by congruence. done.
  - done.
Qed.

Lemma helper_loop_flip es es' :
  Forall2 (λ e e', e' = e ∨ e' = flip_edge e) es es' →
  ∀ st, helper_loop false st es' = helper_loop false st es.
Proof.
  induction 1 as [|e e' es es' He _ IH]; intros [padj keys]; cbn [helper_loop];
    [done|].
  assert (helper_step false (padj, keys) e' = helper_step false (padj, keys) e)
    as -> by (destruct He as [->| ->]; [done|apply helper_step_flip]).
  destruct (helper_step false (padj, keys) e) as [[pa ks]|];
    cbn [mbind option_bind]; [apply IH|done].
Qed.

(** X20. The key of an undirected pattern does not depend on the end from
    which its edges are written: replacing edges [Edge(u, v, l)] of the
    edge list by [Edge(v, u, l)] gives the same key, or raises as
    before. *)
Theorem canonical_key_flip (vlabels : list string) (edges edges' : list Edge) :
  Forall2 (λ e e', e' = e ∨ e' = flip_edge e) edges edges' →
  p_key <$> Pattern_init vlabels edges' false
  = p_key <$> Pattern_init vlabels edges false.
Proof.
  intros Hflip. unfold Pattern_init, canonical_key, helper_init.
  rewrite (helper_loop_flip _ _ Hflip).
  destruct (helper_loop _ _ _) as [[pa ks]|]; cbn [mbind option_bind]; [|done].
  destruct (canonical_code _); done.
Qed.

Lemma canonical_key_flip_witness :
  p_key <$> Pattern_init ["X"; "Y"] [mkEdge 1 0 None] false
  = p_key <$> Pattern_init ["X"; "Y"] [mkEdge 0 1 None] false.
Proof.
  apply (canonical_key_flip ["X"; "Y"] [mkEdge 0 1 None] [mkEdge 1 0 None]).
  constructor; [by right|constructor].
Defined.

(** ** candidate.py: what extensions yields *)

(** A label found in the adjacency of the graph. *)
Definition graph_label (G : DataGraph) (l : option string) : Prop :=
  ∃ a nb, (nb ∈ adj G a ∨ nb ∈ rev G a) ∧ nb.2 = l.

Lemma labels_between_label G a b l :
  l ∈ labels_between G a b → graph_label G l.
Proof.
  unfold labels_between. intros (nb & -> & [_ Hnb]%list_elem_of_filter)%list_elem_of_fmap.
  exists a, nb. split; [by left|done].
Qed.

(** The candidates of the back-edge part join the two given pattern nodes
    by an edge the pattern does not have, labelled as an edge of the
    graph. *)
Lemma back_cands_edge G p allowed u_p u_g w_p w_g raw :
  raw ∈ back_cands G p allowed u_p u_g w_p w_g →
  ∃ e, raw.1.1 = p_vlabels p ∧ raw.1.2 = p_edges p ++ [e]
       ∧ e ∉ p_edges p
       ∧ ((edge_u e = u_p ∧ edge_v e = w_p) ∨ (edge_u e = w_p ∧ edge_v e = u_p))
       ∧ graph_label G (edge_label e).
Proof.
  unfold back_cands, edge_set. destruct (p_directed p); cbn [negb].
  - rewrite elem_of_app. intros [Hin|Hin].
    + destruct (has_edge G u_g w_g None); [|by apply elem_of_nil in Hin].
      apply elem_of_flat_map in Hin as (elab & Hlab%labels_between_label & Hin).
      destruct (decide _) as [|Hnot]; [by apply elem_of_nil in Hin|].
      destruct (disallowed _ _); [by apply elem_of_nil in Hin|].
      apply list_elem_of_singleton in Hin as ->. eexists. cbn.
      split; [done|]. split; [done|]. split; [|split; [by left|done]].
      intros He. apply Hnot, list_elem_of_fmap. by exists (mkEdge u_p w_p elab).
    + destruct (has_edge G w_g u_g None); [|by apply elem_of_nil in Hin].
      apply elem_of_flat_map in Hin as (elab & Hlab%labels_between_label & Hin).
      destruct (decide _) as [|Hnot]; [by apply elem_of_nil in Hin|].
      destruct (disallowed _ _); [by apply elem_of_nil in Hin|].
      apply list_elem_of_singleton in Hin as ->. eexists. cbn.
      split; [done|]. split; [done|]. split; [|split; [by right|done]].
      intros He. apply Hnot, list_elem_of_fmap. by exists (mkEdge w_p u_p elab).
  - destruct (_ || _); [|by intros ?%elem_of_nil].
    intros (elab & Hlab & Hin)%elem_of_flat_map.
    assert (graph_label G elab) as Hgl.
    { destruct (labels_between G u_g w_g) eqn:Hl;
        [|rewrite <- Hl in Hlab]; by eapply labels_between_label. }
    destruct (decide _) as [|Hnot]; [by apply elem_of_nil in Hin|].
    destruct (norm_labels _ _). destruct (disallowed _ _); [by apply elem_of_nil in Hin|].
    apply list_elem_of_singleton in Hin as ->. eexists. cbn.
    split; [done|]. split; [done|]. split; [|split; [by left|done]].
    intros He. apply Hnot, list_elem_of_fmap. by exists (mkEdge u_p w_p elab).
Qed.

(** The candidates that grow a vertex join the given pattern node to the
    new node [num_nodes p]. *)
Lemma forward_cands_edge G p emb heur allowed u_p u_g raw :
  raw ∈ forward_cands G p emb heur allowed u_p u_g →
  ∃ lv e, raw.1.1 = p_vlabels p ++ [lv] ∧ raw.1.2 = p_edges p ++ [e]
          ∧ ((edge_u e = u_p ∧ edge_v e = num_nodes p)
             ∨ (edge_u e = num_nodes p ∧ edge_v e = u_p)).
Proof.
  unfold forward_cands. rewrite elem_of_app. intros [Hin|Hin].
  - apply elem_of_flat_map in Hin as ([v_g elab] & _ & Hin).
    destruct (in_values _ _); [by apply elem_of_nil in Hin|].
    destruct (pruned _ _ _ _ _); [by apply elem_of_nil in Hin|].
    destruct (if p_directed p then _ else _); [by apply elem_of_nil in Hin|].
    apply list_elem_of_singleton in Hin as ->. eexists _, _. cbn.
    split; [done|]. split; [done|]. by left.
  - destruct (g_directed G); [|by apply elem_of_nil in Hin].
    apply elem_of_flat_map in Hin as ([v_g elab] & _ & Hin).
    destruct (in_values _ _); [by apply elem_of_nil in Hin|].
    destruct (pruned _ _ _ _ _); [by apply elem_of_nil in Hin|].
    destruct (disallowed _ _); [by apply elem_of_nil in Hin|].
    apply list_elem_of_singleton in Hin as ->. eexists _, _. cbn.
    split; [done|]. split; [done|]. by right.
Qed.

(** With the heuristics of the graph itself, or none, the edge of such a
    candidate is labelled as an edge of the graph. *)
Lemma forward_cands_label G p emb heur allowed u_p u_g raw :
  heur = None ∨ heur = Some (mkHeur G) →
  raw ∈ forward_cands G p emb heur allowed u_p u_g →
  ∃ e, raw.1.2 = p_edges p ++ [e] ∧ graph_label G (edge_label e).
Proof.
  intros Hheur. unfold forward_cands. rewrite elem_of_app. intros [Hin|Hin].
  - apply elem_of_flat_map in Hin as ([v_g elab] & Hnb & Hin).
    assert (graph_label G elab) as Hgl.
    { exists u_g, (v_g, elab). split; [left|done].
      destruct Hheur as [-> | ->]; [done|].
      revert Hnb. unfold neighbor_order. by rewrite stable_sort_perm. }
    destruct (in_values _ _); [by apply elem_of_nil in Hin|].
    destruct (pruned _ _ _ _ _); [by apply elem_of_nil in Hin|].
    destruct (if p_directed p then _ else _); [by apply elem_of_nil in Hin|].
    apply list_elem_of_singleton in Hin as ->. eexists. cbn. split; [done|done].
  - destruct (g_directed G); [|by apply elem_of_nil in Hin].
    apply elem_of_flat_map in Hin as ([v_g elab] & Hnb & Hin).
    assert (graph_label G elab) as Hgl.
    { exists u_g, (v_g, elab). split; [right|done].
      destruct Hheur as [-> | ->]; [done|].
      revert Hnb. by rewrite stable_sort_perm. }
    destruct (in_values _ _); [by apply elem_of_nil in Hin|].
    destruct (pruned _ _ _ _ _); [by apply elem_of_nil in Hin|].
    destruct (disallowed _ _); [by apply elem_of_nil in Hin|].
    apply list_elem_of_singleton in Hin as ->. eexists. cbn. split; [done|done].
Qed.

(** How a yielded pattern [q] extends [p]: by an edge between two nodes of
    [p] that [p] does not have, or by a new node, numbered [num_nodes p],
    and an edge that joins it to a node of [p]. *)
Definition extends_by_edge (p q : Pattern) : Prop :=
  ∃ e, p_edges q = p_edges p ++ [e]
    ∧ ((p_vlabels q = p_vlabels p
        ∧ edge_u e < num_nodes p ∧ edge_v e < num_nodes p ∧ e ∉ p_edges p)
       ∨ (∃ lv, p_vlabels q = p_vlabels p ++ [lv]
          ∧ ((edge_u e < num_nodes p ∧ edge_v e = num_nodes p)
             ∨ (edge_u e = num_nodes p ∧ edge_v e < num_nodes p)))).

Lemma extensions_extend G p embeddings heur allowed q :
  (∀ emb i, emb ∈ embeddings → is_Some (emb !! i) → i < num_nodes p) →
  q ∈ yielded (extensions G p embeddings heur allowed) →
  extends_by_edge p q.
Proof.
  intros Hdom. unfold extensions.
  destruct (rmpath p) as [path0|]; [|by intros ?%elem_of_nil].
  destruct (last _) as [rm|]; [|by intros ?%elem_of_nil].
  intros (raw & Hraw & Hq & _)%emit_yielded.
  apply elem_of_flat_map in Hraw as (emb & Hemb & Hraw).
  apply Pattern_init_Some in Hq as (Hqv & Hqe & _ & Hrange).
  unfold emb_cands in Hraw. apply elem_of_app in Hraw as [Hraw|Hraw].
  - destruct (emb !! rm) as [u_g|]; [|by apply elem_of_nil in Hraw].
    apply elem_of_flat_map in Hraw as (w_p & _ & Hraw).
    destruct (emb !! w_p) as [w_g|]; [|by apply elem_of_nil in Hraw].
    apply back_cands_edge in Hraw as (e & Hv & He & Hnot & _ & _).
    exists e. split; [congruence|]. left. split; [congruence|].
    destruct (Hrange e) as [? ?]; [rewrite He, elem_of_app, list_elem_of_singleton; auto|].
    unfold num_nodes. rewrite <- Hv. done.
  - apply elem_of_flat_map in Hraw as (u_p & _ & Hraw).
    destruct (emb !! u_p) as [u_g|] eqn:Hu; [|by apply elem_of_nil in Hraw].
    assert (u_p < num_nodes p) by (eapply Hdom; eauto).
    apply forward_cands_edge in Hraw as (lv & e & Hv & He & Hc).
    exists e. split; [congruence|]. right. exists lv. split; [congruence|].
    destruct Hc as [[-> ->]|[-> ->]]; auto.
Qed.

Lemma emit_NoDup (raws : list Raw) : ∀ produced,
  NoDup (p_key <$> yielded (emit raws produced))
  ∧ ∀ k, k ∈ p_key <$> yielded (emit raws produced) → k ∉ produced.
Proof.
  induction raws as [|[[vl es] d] raws IH]; intros produced; cbn [emit].
  - split; [apply NoDup_nil_2|by intros k ?%elem_of_nil].
  - destruct (Pattern_init vl es d) as [q0|];
      [|split; [apply NoDup_nil_2|by intros k ?%elem_of_nil]].
    destruct (decide (p_key q0 ∈ produced)) as [Hk|Hk]; [apply IH|].
    cbn [gen_cons yielded fmap list_fmap].
    destruct (IH (produced ++ [p_key q0])) as [Hnd Hnot]. split.
    + apply NoDup_cons. split; [|done]. intros Hin%Hnot. apply Hin.
      apply elem_of_app. right. apply list_elem_of_here.
    + intros k [->|Hin]%elem_of_cons; [done|].
      intros ?. apply (Hnot k Hin), elem_of_app. by left.
Qed.

(** X21. The patterns [extensions] yields have pairwise different keys. *)
Theorem extensions_keys_distinct (G : DataGraph) (p : Pattern)
    (embeddings : list (gmap nat nat)) (heur : option SoGraMiHeuristics)
    (allowed : option (list EdgeType)) :
  NoDup (p_key <$> yielded (extensions G p embeddings heur allowed)).
Proof.
  unfold extensions. destruct (rmpath p) as [path0|]; [|apply NoDup_nil_2].
  destruct (last _) as [rm|]; [|apply NoDup_nil_2]. apply emit_NoDup.
Qed.



(** ** candidate.py: when extensions raises *)

Lemma emit_no_raise (raws : list Raw) : ∀ produced,
  (∀ raw, raw ∈ raws → is_Some (Pattern_init raw.1.1 raw.1.2 raw.2)) →
  raised (emit raws produced) = false.
Proof.
  induction raws as [|[[vl es] d] raws IH]; intros produced Hall; cbn [emit]; [done|].
  destruct (Hall (vl, es, d) (list_elem_of_here _ _)) as [q Hq].
  cbn [fst snd] in Hq. rewrite Hq.
  assert (∀ raw, raw ∈ raws → is_Some (Pattern_init raw.1.1 raw.1.2 raw.2))
    by (intros raw ?; by apply Hall, list_elem_of_further).
  destruct (decide _); [by apply IH|]. cbn [gen_cons raised]. by apply IH.
Qed.

(** A constructed pattern with a node has a right-most node. *)
Lemma rmpath_rm vl es d p :
  Pattern_init vl es d = Some p → vl ≠ [] →
  ∃ path0 rm,
    rmpath p = Some path0
    ∧ last (match path0 with [] => seq 0 (num_nodes p) | _ => path0 end) = Some rm.
Proof.
  intros Hp Hvl. unfold rmpath. rewrite (Pattern_init_key _ _ _ _ Hp).
  apply Pattern_init_Some in Hp as (Hpv & _).
  destruct (p_key p) as [dd C]. cbn [mbind option_bind].
  destruct C as [|t C].
  - unfold num_nodes. rewrite Hpv. destruct vl as [|l vl]; [done|].
    eexists _, _. split; [done|]. cbn [length seq].
    change (0 :: seq 1 (length vl)) with (seq 0 (S (length vl))).
    rewrite seq_S. cbn. by rewrite last_snoc.
  - destruct (foldl rm_step _ _) as [seen parent].
    set (r := foldl Nat.max 0 _).
    exists (climb (2 * length (t :: C)) parent r []), r. split; [done|].
    pose proof (last_climb (2 * length (t :: C)) parent r []) as Hl.
    destruct (climb _ _ _ _); [done|]. exact Hl.
Qed.

Lemma graph_label_edge gd gvl ges G l :
  DataGraph_init gd gvl ges = Some G → graph_label G l →
  ∃ e, e ∈ ges ∧ edge_label e = l.
Proof.
  intros HG (a & nb & [Hnb|Hnb] & <-).
  - apply (elem_of_adj _ _ _ _ HG) in Hnb as (e & He & Hl & _). by exists e.
  - apply (elem_of_rev _ _ _ _ HG) in Hnb as (e & He & Hl & _). by exists e.
Qed.

(** X23. [extensions] does not raise when the pattern has a node, the
    embeddings map nodes of the pattern to nodes of the graph, the
    heuristics, if any, are those of the graph, and the edges of the graph
    and of the pattern are either all without label or all labelled (a
    candidate with a [None] and a [str] label between the same two nodes
    makes the Pattern constructor raise TypeError). *)
Theorem extensions_no_raise
    (gd : bool) (gvl : list string) (ges : list Edge) (G : DataGraph)
    (pvl : list string) (pes : list Edge) (pd : bool) (p : Pattern)
    (embeddings : list (gmap nat nat)) (heur : option SoGraMiHeuristics)
    (allowed : option (list EdgeType)) :
  DataGraph_init gd gvl ges = Some G →
  Pattern_init pvl pes pd = Some p →
  pvl ≠ [] →
  heur = None ∨ heur = Some (mkHeur G) →
  (∀ emb i x, emb ∈ embeddings → emb !! i = Some x →
              i < length pvl ∧ x < length gvl) →
  (∀ e1 e2, e1 ∈ ges ++ pes → e2 ∈ ges ++ pes →
            (edge_label e1 = None ↔ edge_label e2 = None)) →
  raised (extensions G p embeddings heur allowed) = false.
Proof.
  intros HG Hp Hvl Hheur Hemb Hlab.
  destruct (rmpath_rm _ _ _ _ Hp Hvl) as (path0 & rm & Hpath & Hrm).
  unfold extensions. rewrite Hpath, Hrm.
  apply Pattern_init_Some in Hp as (Hpv & Hpe & Hpd & Hrange).
  assert (Hn : num_nodes p = length pvl) by (unfold num_nodes; by rewrite Hpv).
  apply emit_no_raise. intros raw (emb & He & Hraw)%elem_of_flat_map.
  apply Pattern_init_is_Some.
  assert (∃ e, raw.1.2 = pes ++ [e]
               ∧ edge_u e < length raw.1.1 ∧ edge_v e < length raw.1.1
               ∧ length pvl ≤ length raw.1.1
               ∧ graph_label G (edge_label e)) as (e & Hes & Hu & Hv & Hle & Hgl).
  { unfold emb_cands in Hraw. apply elem_of_app in Hraw as [Hraw|Hraw].
    - destruct (emb !! rm) as [u_g|] eqn:Hu; [|by apply elem_of_nil in Hraw].
      apply elem_of_flat_map in Hraw as (w_p & _ & Hraw).
      destruct (emb !! w_p) as [w_g|] eqn:Hw; [|by apply elem_of_nil in Hraw].
      destruct (Hemb emb rm u_g He Hu) as [? _].
      destruct (Hemb emb w_p w_g He Hw) as [? _].
      apply back_cands_edge in Hraw as (e & -> & -> & _ & Hc & Hgl).
      exists e. rewrite Hpv, Hpe. split; [done|].
      destruct Hc as [[-> ->]|[-> ->]]; repeat split; (done || lia).
    - apply elem_of_flat_map in Hraw as (u_p & _ & Hraw).
      destruct (emb !! u_p) as [u_g|] eqn:Hu; [|by apply elem_of_nil in Hraw].
      destruct (Hemb emb u_p u_g He Hu) as [? _].
      pose proof Hraw as Hraw'.
      apply forward_cands_edge in Hraw as (lv & e & Hv & Hes & Hc).
      apply (forward_cands_label _ _ _ _ _ _ _ _ Hheur) in Hraw'
        as (e' & Hes' & Hgl).
      assert (e' = e) as -> by (rewrite Hes in Hes'; by simplify_list_eq).
      exists e. rewrite Hv, Hes, Hpv, Hpe, length_app. cbn [length].
      split; [done|]. rewrite Hn in Hc.
      destruct Hc as [[-> ->]|[-> ->]]; repeat split; (done || lia). }
  destruct (graph_label_edge _ _ _ _ _ HG Hgl) as (ge & Hge & Hgel).
  rewrite Hes. split.
  - intros e' [He'|He']%elem_of_app.
    + destruct (Hrange e' He'). lia.
    + apply list_elem_of_singleton in He' as ->. done.
  - intros e1 e2 H1 H2 _.
    assert (∀ e', e' ∈ pes ++ [e] → ∃ e'', e'' ∈ ges ++ pes
                                          ∧ edge_label e'' = edge_label e') as Hsrc.
    { intros e' [He'|He']%elem_of_app.
      - exists e'. split; [apply elem_of_app; by right|done].
      - apply list_elem_of_singleton in He' as ->.
        exists ge. split; [apply elem_of_app; by left|done]. }
    destruct (Hsrc e1 H1) as (e1' & H1' & <-).
    destruct (Hsrc e2 H2) as (e2' & H2' & <-).
    by apply Hlab.
Qed.

Lemma extensions_no_raise_witness :
  raised (extensions triangle_G xy_pattern
            (full_mni_embeddings triangle_G xy_pattern) None None) = false.
Proof.
  apply (extensions_no_raise false ["X"; "Y"; "Z"]
           [mkEdge 0 1 None; mkEdge 1 2 None; mkEdge 2 0 None] triangle_G
           ["X"; "Y"] [mkEdge 0 1 None] false xy_pattern).
  - vm_compute; reflexivity.
  - vm_compute; reflexivity.
  - discriminate.
  - by left.
  - intros emb i x Hin Hx.
    destruct (full_mni_embeddings_facts false ["X"; "Y"; "Z"]
                [mkEdge 0 1 None; mkEdge 1 2 None; mkEdge 2 0 None] triangle_G
                ["X"; "Y"] [mkEdge 0 1 None] false xy_pattern emb)
      as (Hdom & Hl & _); [vm_compute; reflexivity..|done|].
    split; [apply Hdom; eauto|by destruct (Hl i x Hx)].
  - assert (Forall (λ e, edge_label e = None)
              ([mkEdge 0 1 None; mkEdge 1 2 None; mkEdge 2 0 None]
               ++ [mkEdge 0 1 None])) as Hall
      by (apply (bool_decide_unpack _); vm_compute; exact I).
    rewrite Forall_forall in Hall. intros e1 e2 H1 H2.
    by rewrite (Hall e1 H1), (Hall e2 H2).
Defined.

(** ** miner.py: what the miners return *)

Lemma dict_set_keys k r results x :
  x ∈ (dict_set k r results).*1 ↔ x = k ∨ x ∈ results.*1.
Proof.
  induction results as [|[k' r'] results IH]; cbn [dict_set fmap list_fmap].
  - rewrite list_elem_of_singleton, elem_of_nil. cbn. tauto.
  - destruct (decide (k' = k)) as [->|Hk]; cbn [fmap list_fmap fst];
      rewrite !elem_of_cons; [tauto|].
    change (list_fmap _ _ fst ?l) with (l.*1). rewrite IH. tauto.
Qed.

Lemma dict_set_elem k r results k0 r0 :
  (k0, r0) ∈ dict_set k r results → (k0 = k ∧ r0 = r) ∨ (k0, r0) ∈ results.
Proof.
  induction results as [|[k' r'] results IH]; cbn [dict_set].
  - intros [= -> ->]%list_elem_of_singleton. by left.
  - destruct (decide (k' = k)) as [->|Hk].
    + intros [[= -> ->]|Hin]%elem_of_cons; [by left|].
      right. by apply list_elem_of_further.
    + intros [[= -> ->]|Hin]%elem_of_cons; [right; apply list_elem_of_here|].
      destruct (IH Hin) as [?|?]; [by left|right; by apply list_elem_of_further].
Qed.

Lemma dict_set_NoDup k r results :
  NoDup results.*1 → NoDup (dict_set k r results).*1.
Proof.
  induction results as [|[k' r'] results IH]; cbn [dict_set fmap list_fmap].
  - intros _. apply NoDup_singleton.
  - destruct (decide (k' = k)) as [->|Hk]; cbn [fmap list_fmap fst]; [done|].
    change (list_fmap _ _ fst ?l) with (l.*1).
    rewrite !NoDup_cons, dict_set_keys. intros [Hnot Hnd].
    split; [|by apply IH]. intros [?|?]; [congruence|done].
Qed.

Lemma elem_of_dedup qs : ∀ seen q, q ∈ dedup qs seen → q ∈ qs.
Proof.
  induction qs as [|q0 qs IH]; intros seen q; cbn [dedup]; [done|].
  destruct (decide _).
  - intros ?%IH. by apply list_elem_of_further.
  - intros [->|?%IH]%elem_of_cons; [apply list_elem_of_here|].
    by apply list_elem_of_further.
Qed.

Lemma foldM_inv {A B} (f : B → A → option B) (Inv : B → Prop) (l : list A) :
  (∀ b a b', a ∈ l → Inv b → f b a = Some b' → Inv b') →
  ∀ b b', Inv b → foldM f b l = Some b' → Inv b'.
Proof.
  induction l as [|a l IH]; intros Hstep b b' Hb; cbn [foldM].
  - by intros [= <-].
  - destruct (f b a) as [b1|] eqn:Hf; [|discriminate]. cbn [mbind option_bind].
    apply IH.
    + intros b2 a2 b2' Ha2. apply Hstep. by apply list_elem_of_further.
    + eapply Hstep; [apply list_elem_of_here|done..].
Qed.

Section MineInvariant.
Variable set_order : list nat → list nat.
Variable G : DataGraph.
Variable min_support : nat.
Variable max_size : option nat.
Variable heur : option SoGraMiHeuristics.
Variable allowed : option (list EdgeType).

(** A property [Q] of patterns that passes from a pattern the miner grows
    to the patterns [extensions] yields for it. *)
Variable Q : Pattern → Prop.
Hypothesis Q_ext : ∀ p q,
  Q p → may_grow max_size p = true →
  q ∈ yielded (extensions G p (full_mni_embeddings G p) heur allowed) → Q q.

(** What the miner stores under a key. *)
Definition record_ok (k : CanonicalKey) (r : MineRec) : Prop :=
  k = p_key (r_pattern r)
  ∧ r_embeddings r = full_mni_embeddings G (r_pattern r)
  ∧ mni_support (r_embeddings r) (num_nodes (r_pattern r)) = Some (r_support r)
  ∧ min_support ≤ r_support r
  ∧ r_full_support r = full_support_count set_order G (r_pattern r) None
  ∧ Q (r_pattern r).

Definition results_ok (results : Results) : Prop :=
  NoDup results.*1 ∧ ∀ k r, (k, r) ∈ results → record_ok k r.

Lemma eval_step_ok results nf p results' nf' :
  results_ok results → Forall Q nf → Q p →
  eval_step set_order G min_support max_size heur allowed (results, nf) p
  = Some (results', nf') →
  results_ok results' ∧ Forall Q nf'.
Proof.
  intros [Hnd Hrec] Hnf Hp. unfold eval_step.
  destruct (mni_support _ _) as [supp|] eqn:Hsupp; [|discriminate].
  cbn [mbind option_bind].
  destruct (decide (min_support ≤ supp)) as [Hle|]; [|by intros [= <- <-]].
  assert (results_ok (dict_set (p_key p)
            (mkRec p supp (full_support_count set_order G p None)
                   (full_mni_embeddings G p)) results)) as Hok.
  { split; [by apply dict_set_NoDup|].
    intros k r [[-> ->]|Hin]%dict_set_elem; [|by apply Hrec].
    repeat split; done. }
  destruct (may_grow max_size p) eqn:Hgrow; [|by intros [= <- <-]].
  destruct (raised _); [discriminate|]. intros [= <- <-]. split; [done|].
  apply Forall_app. split; [done|]. apply Forall_forall.
  intros q [_ Hq]%list_elem_of_filter. by eapply Q_ext.
Qed.

Lemma mine_loop_ok : ∀ fuel results frontier res,
  results_ok results → Forall Q frontier →
  mine_loop set_order G min_support max_size heur allowed fuel results frontier
  = Ret res →
  results_ok res.
Proof.
  induction fuel as [|fuel IH]; intros results frontier res Hok Hfr;
    destruct frontier as [|p0 frontier]; cbn [mine_loop];
    try (by intros [= <-]); try discriminate.
  destruct (foldM _ _ _) as [[results' nf]|] eqn:Hfold; [|discriminate].
  assert (results_ok results' ∧ Forall Q nf) as [Hok' Hnf].
  { revert Hfold.
    apply (foldM_inv _ (λ st, results_ok st.1 ∧ Forall Q st.2));
      [|by split].
    intros [r1 n1] p [r2 n2] Hp [? ?] Hstep. cbn [fst snd] in *.
    eapply eval_step_ok; [done..| |exact Hstep].
    by apply (proj1 (Forall_forall _ _) Hfr). }
  apply IH; [done|]. apply Forall_forall. intros q Hq%elem_of_dedup.
  by apply (proj1 (Forall_forall _ _) Hnf).
Qed.
End MineInvariant.

(** *** The patterns the miners handle *)

Lemma adjacent_app es e a b : adjacent es a b → adjacent (es ++ [e]) a b.
Proof.
  intros (e' & He' & Hc). exists e'. split; [|done]. apply elem_of_app. by left.
Qed.

Lemma rtc_adjacent_app es e a b :
  rtc (adjacent es) a b → rtc (adjacent (es ++ [e])) a b.
Proof. apply rtc_subrel. intros x y. apply adjacent_app. Qed.

(** Appending an edge as [extensions] does keeps a pattern connected. *)
Lemma connected_extends p q :
  connected (p_vlabels p) (p_edges p) → extends_by_edge p q →
  connected (p_vlabels q) (p_edges q).
Proof.
  intros Hconn (e & -> & [(-> & _)|(lv & -> & Hc)]).
  - intros a b Ha Hb. by apply rtc_adjacent_app, Hconn.
  - set (n := num_nodes p) in *. set (es' := p_edges p ++ [e]).
    assert (∃ u, u < n ∧ adjacent es' n u) as (u & Hu & Hadj).
    { destruct Hc as [[? ?]|[? ?]].
      - exists (edge_u e). split; [done|]. exists e.
        split; [apply elem_of_app; right; apply list_elem_of_here|]. right. done.
      - exists (edge_v e). split; [done|]. exists e.
        split; [apply elem_of_app; right; apply list_elem_of_here|]. left. done. }
    assert (∀ a, a < length (p_vlabels p ++ [lv]) → rtc (adjacent es') a u) as Hto.
    { intros a Ha. rewrite length_app in Ha. cbn in Ha.
      destruct (decide (a = n)) as [->|Hne]; [by apply rtc_once|].
      apply rtc_adjacent_app, Hconn; unfold n, num_nodes in *; lia. }
    intros a b Ha Hb. etrans; [by apply Hto|].
    apply rtc_adjacent_sym. by apply Hto.
Qed.

Lemma connected_seed lu lv elab : connected [lu; lv] [mkEdge 0 1 elab].
Proof. apply connectedb_sound. reflexivity. Qed.

Lemma extensions_constructed G p embeddings heur allowed q :
  q ∈ yielded (extensions G p embeddings heur allowed) →
  Pattern_init (p_vlabels q) (p_edges q) (p_directed q) = Some q.
Proof.
  unfold extensions. destruct (rmpath p) as [path0|]; [|by intros ?%elem_of_nil].
  destruct (last _) as [rm|]; [|by intros ?%elem_of_nil].
  intros (raw & _ & Hq & _)%emit_yielded.
  pose proof (Pattern_init_Some _ _ _ _ Hq) as (-> & -> & -> & _). done.
Qed.

Lemma full_mni_embeddings_dom G p emb i :
  emb ∈ full_mni_embeddings G p → is_Some (emb !! i) → i < num_nodes p.
Proof.
  intros Hin Hi.
  apply (backtrack_extends G p) in Hin as (_ & Hdm & _);
    [|apply assignment_order_NoDup|intros; apply lookup_empty].
  apply Hdm in Hi as [[? Hi]|Hi]; [by rewrite lookup_empty in Hi|].
  by apply elem_of_assignment_order in Hi.
Qed.

(** The shape of the patterns the miners evaluate: constructed, connected
    (invariant P2), with an edge, with the directed flag of the graph, and
    of a size the bound [max_size] allows, the two nodes of a seed being
    allowed in any case. *)
Definition mined_shape (G : DataGraph) (max_size : option nat) (p : Pattern)
  : Prop :=
  Pattern_init (p_vlabels p) (p_edges p) (p_directed p) = Some p
  ∧ connected (p_vlabels p) (p_edges p)
  ∧ p_edges p ≠ []
  ∧ p_directed p = g_directed G
  ∧ 2 ≤ num_nodes p
  ∧ match max_size with Some m => num_nodes p ≤ 2 `max` m | None => True end.

Lemma mined_shape_ext G max_size heur allowed p q :
  mined_shape G max_size p → may_grow max_size p = true →
  q ∈ yielded (extensions G p (full_mni_embeddings G p) heur allowed) →
  mined_shape G max_size q.
Proof.
  intros (Hp & Hconn & Hne & Hd & Hn & Hsz) Hgrow Hq.
  assert (Hext : extends_by_edge p q).
  { eapply extensions_extend; [|exact Hq].
    intros emb i. apply full_mni_embeddings_dom. }
  split; [by eapply extensions_constructed|].
  split; [by apply (connected_extends p)|].
  apply extensions_shape in Hq as [_ Hflag].
  destruct Hext as (e & Hes & Hv). unfold num_nodes in *.
  split; [rewrite Hes; by destruct (p_edges p)|].
  split; [destruct Hflag as [->|[-> ->]]; done|].
  assert (length (p_vlabels p) ≤ length (p_vlabels q)
          ∧ length (p_vlabels q) ≤ S (length (p_vlabels p))) as [? ?].
  { destruct Hv as [(-> & _)|(lv & -> & _)]; [lia|].
    rewrite length_app. cbn. lia. }
  split; [lia|]. destruct max_size as [m|]; [|done].
  cbn in Hgrow. apply bool_decide_eq_true_1 in Hgrow. unfold num_nodes in Hgrow. lia.
Qed.

(** Every seed is a constructed two-node pattern with the edge
    [Edge(0, 1, elab)] and the directed flag of the graph. *)
Definition seed_shape (G : DataGraph) (q : Pattern) : Prop :=
  ∃ lu lv elab,
    Pattern_init [lu; lv] [mkEdge 0 1 elab] (g_directed G) = Some q.

Lemma seed_patterns_shape G seeds :
  seed_patterns G = Some seeds → Forall (seed_shape G) seeds.
Proof.
  unfold seed_patterns.
  destruct (foldM _ _ _) as [[seen out]|] eqn:Hfold; [|discriminate].
  cbn. intros [= <-]. revert Hfold.
  apply (foldM_inv _ (λ st, Forall (seed_shape G) st.2)); [|done].
  intros st u st' _. apply (foldM_inv _ (λ st, Forall (seed_shape G) st.2)). clear.
  intros [seen out] [v elab] [seen' out'] _ Hout. unfold seed_step.
  destruct (seed_tuple _ _ _); [|by intros [= <- <-]].
  destruct (decide _); [by intros [= <- <-]|].
  destruct (Pattern_init _ _ _) as [q|] eqn:Hq; [|discriminate].
  cbn [mbind option_bind]. intros [= <- <-]. cbn [snd] in *.
  apply Forall_app. split; [done|]. apply Forall_singleton. by eexists _, _, _.
Qed.

Lemma seed_mined_shape G max_size q : seed_shape G q → mined_shape G max_size q.
Proof.
  intros (lu & lv & elab & Hq).
  pose proof (Pattern_init_Some _ _ _ _ Hq) as (Hv & He & Hd & _).
  unfold mined_shape, num_nodes. rewrite Hv, He, Hd.
  split; [done|]. split; [apply connected_seed|]. split; [done|].
  split; [done|]. split; [cbn; lia|]. destruct max_size; [cbn; lia|done].
Qed.

Lemma SuGraMi_mine_ok set_order fuel G min_support max_size results :
  SuGraMi_mine set_order fuel G min_support max_size = Ret results →
  results_ok set_order G min_support (mined_shape G max_size) results.
Proof.
  unfold SuGraMi_mine.
  destruct (seed_patterns G) as [seeds|] eqn:Hseeds; [|discriminate].
  apply mine_loop_ok.
  - intros p q. apply mined_shape_ext.
  - split; [apply NoDup_nil_2|by intros k r ?%elem_of_nil].
  - eapply Forall_impl; [by apply seed_patterns_shape|].
    intros q. apply seed_mined_shape.
Qed.

(** X24. Every entry of the mapping [SuGraMiMiner.mine] returns is stored
    under the key of its pattern; its embeddings are those
    [full_mni_embeddings] lists for the pattern, its support is their MNI
    support and is at least [min_support], and its full support is the
    number of these embeddings. *)
Theorem SuGraMi_mine_records (set_order : list nat → list nat)
    (Hperm : ∀ l, set_order l ≡ₚ l) (fuel : nat)
    (gd : bool) (gvl : list string) (ges : list Edge) (G : DataGraph)
    (min_support : nat) (max_size : option nat) (results : Results) :
  DataGraph_init gd gvl ges = Some G →
  SuGraMi_mine set_order fuel G min_support max_size = Ret results →
  NoDup results.*1
  ∧ ∀ k r, (k, r) ∈ results →
      k = p_key (r_pattern r)
      ∧ r_embeddings r = full_mni_embeddings G (r_pattern r)
      ∧ mni_support (r_embeddings r) (num_nodes (r_pattern r))
        = Some (r_support r)
      ∧ min_support ≤ r_support r
      ∧ r_full_support r = length (r_embeddings r).
Proof.
  intros _ [Hnd Hrec]%SuGraMi_mine_ok. split; [done|].
  intros k r (? & Hemb & ? & ? & Hfull & _)%Hrec. repeat (split; [done|]).
  rewrite Hfull, Hemb. unfold full_support_count, full_mni_embeddings.
  by rewrite backtrack_count_length.
Qed.

Lemma SuGraMi_mine_records_witness :
  ∃ results,
    SuGraMi_mine (λ l, l) 10 triangle_G 1 (Some 3) = Ret results
    ∧ NoDup results.*1
    ∧ ∀ k r, (k, r) ∈ results →
        k = p_key (r_pattern r)
        ∧ r_embeddings r = full_mni_embeddings triangle_G (r_pattern r)
        ∧ mni_support (r_embeddings r) (num_nodes (r_pattern r))
          = Some (r_support r)
        ∧ 1 ≤ r_support r
        ∧ r_full_support r = length (r_embeddings r).
Proof.
  eexists. split; [vm_compute; reflexivity|].
  apply (SuGraMi_mine_records (λ l, l) (λ l, reflexivity l) 10 false
           ["X"; "Y"; "Z"] [mkEdge 0 1 None; mkEdge 1 2 None; mkEdge 2 0 None]
           triangle_G 1 (Some 3)).
  - vm_compute; reflexivity.
  - vm_compute; reflexivity.
Defined.

(** X25. Every pattern in the mapping [SuGraMiMiner.mine] returns is a
    constructed pattern that is connected, has an edge, has the directed
    flag of the graph and at least two nodes; with [max_size = m] it has at
    most [max(2, m)] nodes (the seeds are evaluated whatever [m] is). *)
Theorem SuGraMi_mine_patterns (set_order : list nat → list nat) (fuel : nat)
    (gd : bool) (gvl : list string) (ges : list Edge) (G : DataGraph)
    (min_support : nat) (max_size : option nat) (results : Results)
    (k : CanonicalKey) (r : MineRec) :
  DataGraph_init gd gvl ges = Some G →
  SuGraMi_mine set_order fuel G min_support max_size = Ret results →
  (k, r) ∈ results →
  mined_shape G max_size (r_pattern r).
Proof.
  intros _ [_ Hrec]%SuGraMi_mine_ok Hin. by destruct (Hrec k r Hin) as (_ & _ & _ & _ & _ & ?).
Qed.

(** The result of the demo of [test.py], and its first entry. *)
Definition triangle_mined : Results :=
  match SuGraMi_mine (λ l, l) 10 triangle_G 1 (Some 3) with
  | Ret results => results
  | _ => []
  end.

Definition triangle_first : CanonicalKey * MineRec :=
  default ((false, []), mkRec no_pattern 0 0 []) (triangle_mined !! 0).

Lemma SuGraMi_mine_patterns_witness :
  mined_shape triangle_G (Some 3) (r_pattern triangle_first.2).
Proof.
  apply (SuGraMi_mine_patterns (λ l, l) 10 false
           ["X"; "Y"; "Z"] [mkEdge 0 1 None; mkEdge 1 2 None; mkEdge 2 0 None]
           triangle_G 1 (Some 3) triangle_mined triangle_first.1).
  - vm_compute; reflexivity.
  - vm_compute; reflexivity.
  - apply (list_elem_of_lookup_2 _ 0). vm_compute; reflexivity.
Defined.

Lemma sopa_seed_shape G kc pc :
  kc ∈ edge_type_counts G → sopa_seed kc = Some pc → seed_shape G pc.1.
Proof.
  destruct kc as [[[[lu lv] el] dflag] c]. intros Hin. unfold sopa_seed.
  destruct (Pattern_init _ _ _) as [p|] eqn:Hp; [|discriminate].
  cbn [mbind option_bind]. intros [= <-]. cbn [fst].
  destruct (edge_type_counts_ok G) as [_ Hall].
  destruct (Hall _ _ Hin) as (_ & Hflag & _). cbn [snd] in Hflag.
  exists lu, lv, el. rewrite <- Hp. f_equal. rewrite Hflag.
  by destruct (g_directed G).
Qed.

Lemma SoPaGraMi_mine_ok set_order fuel G min_support use_sorting max_size results :
  SoPaGraMi_mine set_order fuel G min_support use_sorting max_size = Ret results →
  results_ok set_order G min_support (mined_shape G max_size) results.
Proof.
  unfold SoPaGraMi_mine.
  destruct (mapM sopa_seed _) as [seeds|] eqn:Hseeds; [|discriminate].
  apply mine_loop_ok.
  - intros p q. apply mined_shape_ext.
  - split; [apply NoDup_nil_2|by intros k r ?%elem_of_nil].
  - apply Forall_forall. intros p (pc & -> & Hpc)%list_elem_of_fmap.
    apply seed_mined_shape. rewrite stable_sort_perm in Hpc.
    apply mapM_Some in Hseeds.
    apply list_elem_of_lookup in Hpc as [i Hi].
    destruct (Forall2_lookup_r _ _ _ _ _ Hseeds Hi) as (kc & Hkc & Hs).
    apply (sopa_seed_shape G kc); [|done].
    apply list_elem_of_lookup_2 in Hkc. by apply list_elem_of_filter in Hkc as [_ ?].
Qed.

(** X26. Every entry of the mapping [SoPaGraMiMiner.mine] returns, with or
    without heuristics, is stored under the key of its pattern, with the
    embeddings [full_mni_embeddings] lists for it, their MNI support, which
    is at least [min_support], and their number as full support; the
    pattern is connected, has an edge and the directed flag of the graph,
    and at most [max(2, max_size)] nodes. *)
Theorem SoPaGraMi_mine_records (set_order : list nat → list nat)
    (Hperm : ∀ l, set_order l ≡ₚ l) (fuel : nat)
    (gd : bool) (gvl : list string) (ges : list Edge) (G : DataGraph)
    (min_support : nat) (use_sorting : bool) (max_size : option nat)
    (results : Results) :
  DataGraph_init gd gvl ges = Some G →
  SoPaGraMi_mine set_order fuel G min_support use_sorting max_size = Ret results →
  NoDup results.*1
  ∧ ∀ k r, (k, r) ∈ results →
      k = p_key (r_pattern r)
      ∧ r_embeddings r = full_mni_embeddings G (r_pattern r)
      ∧ mni_support (r_embeddings r) (num_nodes (r_pattern r))
        = Some (r_support r)
      ∧ min_support ≤ r_support r
      ∧ r_full_support r = length (r_embeddings r)
      ∧ mined_shape G max_size (r_pattern r).
Proof.
  intros _ [Hnd Hrec]%SoPaGraMi_mine_ok. split; [done|].
  intros k r (? & Hemb & ? & ? & Hfull & ?)%Hrec. repeat (split; [done|]).
  split; [|done].
  rewrite Hfull, Hemb. unfold full_support_count, full_mni_embeddings.
  by rewrite backtrack_count_length.
Qed.

Lemma SoPaGraMi_mine_records_witness :
  ∃ results,
    SoPaGraMi_mine (λ l, l) 10 path_G 1 true None = Ret results
    ∧ NoDup results.*1
    ∧ ∀ k r, (k, r) ∈ results →
        k = p_key (r_pattern r)
        ∧ r_embeddings r = full_mni_embeddings path_G (r_pattern r)
        ∧ mni_support (r_embeddings r) (num_nodes (r_pattern r))
          = Some (r_support r)
        ∧ 1 ≤ r_support r
        ∧ r_full_support r = length (r_embeddings r)
        ∧ mined_shape path_G None (r_pattern r).
Proof.
  eexists. split; [vm_compute; reflexivity|].
  apply (SoPaGraMi_mine_records (λ l, l) (λ l, reflexivity l) 10 false
           ["A"; "B"; "C"] [mkEdge 0 1 None; mkEdge 1 2 None] path_G 1 true None).
  - vm_compute; reflexivity.
  - vm_compute; reflexivity.
Defined.

(** ** miner.py: materialized subgraphs *)

Lemma elem_of_emb_nodes emb x :
  x ∈ emb_nodes emb ↔ ∃ i, emb !! i = Some x.
Proof.
  unfold emb_nodes. rewrite merge_sort_Permutation, elem_of_remove_dups.
  rewrite list_elem_of_fmap. split.
  - intros ([i y] & -> & Hin%elem_of_map_to_list). by exists i.
  - intros (i & Hi). exists (i, x). split; [done|]. by apply elem_of_map_to_list.
Qed.

Lemma StronglySorted_lt (l : list nat) :
  StronglySorted (≤) l → NoDup l → StronglySorted lt l.
Proof.
  induction 1 as [|x l _ IH Hall]; intros Hnd; constructor.
  - apply IH. by apply NoDup_cons in Hnd as [_ ?].
  - apply NoDup_cons in Hnd as [Hnot _].
    apply Forall_forall. intros y Hy.
    assert (x ≤ y) by (by apply (proj1 (Forall_forall _ _) Hall)).
    assert (x ≠ y) by (intros ->; done). lia.
Qed.

Lemma emb_nodes_sorted emb : StronglySorted lt (emb_nodes emb).
Proof.
  apply StronglySorted_lt.
  - apply (StronglySorted_merge_sort (≤)).
  - unfold emb_nodes. rewrite merge_sort_Permutation. apply NoDup_remove_dups.
Qed.

Lemma emb_nodes_length emb n :
  (∀ i, is_Some (emb !! i) ↔ i < n) →
  (∀ i j x, emb !! i = Some x → emb !! j = Some x → i = j) →
  length (emb_nodes emb) = n.
Proof.
  intros Hdom Hinj. unfold emb_nodes. rewrite merge_sort_Permutation.
  assert (NoDup (map_to_list emb).*2) as Hnd.
  { apply NoDup_fmap_2_strong; [|apply NoDup_map_to_list].
    intros [i x] [j y] Hi%elem_of_map_to_list Hj%elem_of_map_to_list Heq.
    cbn in Heq. subst y. f_equal. by eapply Hinj. }
  rewrite (NoDup_Permutation (remove_dups (map_to_list emb).*2) (map_to_list emb).*2);
    [|apply NoDup_remove_dups|done|intros x; apply elem_of_remove_dups].
  rewrite length_fmap, <- (length_fmap fst).
  rewrite (NoDup_Permutation (map_to_list emb).*1 (seq 0 n));
    [apply length_seq|apply NoDup_fst_map_to_list|apply NoDup_seq|].
  intros i. rewrite elem_of_seq, list_elem_of_fmap. split.
  - intros ([j x] & -> & Hin%elem_of_map_to_list). cbn.
    split; [lia|]. apply Hdom. eauto.
  - intros [_ Hi]. destruct (proj2 (Hdom i) Hi) as [x Hx].
    exists (i, x). split; [done|]. by apply elem_of_map_to_list.
Qed.

(** The subgraph that follows the pattern edges, for one embedding. *)
Lemma subgraph_follows_pattern G p emb :
  is_embedding G p emb →
  (∀ e, e ∈ p_edges p → edge_u e < num_nodes p ∧ edge_v e < num_nodes p
                        ∧ edge_u e ≠ edge_v e) →
  ∃ edges,
    subgraph_from_embedding G p emb false = Some (emb_nodes emb, edges)
    ∧ length (emb_nodes emb) = num_nodes p
    ∧ length edges = length (p_edges p)
    ∧ ∀ e, e ∈ edges →
        edge_u e ∈ emb_nodes emb ∧ edge_v e ∈ emb_nodes emb
        ∧ has_edge G (edge_u e) (edge_v e) (edge_label e) = true.
Proof.
  intros [(Hlab & Hinj & Hedges) Hdom] Hrange.
  unfold subgraph_from_embedding.
  set (f := λ e, u ← emb !! edge_u e; v ← emb !! edge_v e;
                 Some (mkEdge u v (edge_label e))).
  destruct (mapM f (p_edges p)) as [edges|] eqn:Hm.
  - cbn [mbind option_bind]. exists edges. split; [done|].
    split; [by apply emb_nodes_length|].
    split; [symmetry; by eapply length_mapM|].
    apply mapM_Some in Hm. intros e' [i Hi]%list_elem_of_lookup.
    destruct (Forall2_lookup_r _ _ _ _ _ Hm Hi) as (e & He & Hf).
    apply list_elem_of_lookup_2 in He. unfold f in Hf.
    destruct (emb !! edge_u e) as [x|] eqn:Hx; [|discriminate].
    destruct (emb !! edge_v e) as [y|] eqn:Hy; [|discriminate].
    injection Hf as <-. cbn.
    split; [apply elem_of_emb_nodes; eauto|].
    split; [apply elem_of_emb_nodes; eauto|].
    apply (Hedges e He x y Hx Hy). by destruct (Hrange e He) as (_ & _ & ?).
  - exfalso. apply mapM_None, Exists_exists in Hm as (e & He & Hf).
    destruct (Hrange e He) as (Hu & Hv & _).
    destruct (proj2 (Hdom (edge_u e)) Hu) as [x Hx].
    destruct (proj2 (Hdom (edge_v e)) Hv) as [y Hy].
    unfold f in Hf. by rewrite Hx, Hy in Hf.
Qed.

(** X27. For a pattern without self-loops that is directed or is matched
    against an undirected graph, [materialize_all_embeddings] on the
    embeddings [full_mni_embeddings] lists does not raise (not induced); it
    returns one subgraph for every embedding, with as many nodes as the
    pattern, in strictly ascending order, and as many edges as the
    pattern, each between two of these nodes and an edge of the graph. *)
Theorem materialize_embeddings
    (gd : bool) (gvl : list string) (ges : list Edge) (G : DataGraph)
    (pvl : list string) (pes : list Edge) (pd : bool) (p : Pattern) :
  DataGraph_init gd gvl ges = Some G →
  Pattern_init pvl pes pd = Some p →
  pd = true ∨ gd = false →
  Forall (λ e, edge_u e ≠ edge_v e) pes →
  ∃ subs,
    materialize_all_embeddings G p (full_mni_embeddings G p) false = Some subs
    ∧ length subs = length (full_mni_embeddings G p)
    ∧ ∀ nodes edges, (nodes, edges) ∈ subs →
        length nodes = length pvl
        ∧ StronglySorted lt nodes
        ∧ length edges = length pes
        ∧ ∀ e, e ∈ edges →
            edge_u e ∈ nodes ∧ edge_v e ∈ nodes
            ∧ has_edge G (edge_u e) (edge_v e) (edge_label e) = true.
Proof.
  intros HG Hp Hdir Hloops.
  apply Pattern_init_Some in Hp as (Hvl & Hes & Hpd & Hrange).
  assert (Hsym : sym_ok G p).
  { destruct Hdir as [->| ->]; [by left|right].
    intros u v l. by eapply has_edge_sym. }
  assert (Hin : ∀ e, e ∈ p_edges p →
            edge_u e < num_nodes p ∧ edge_v e < num_nodes p ∧ edge_u e ≠ edge_v e).
  { intros e He. rewrite Hes in He. unfold num_nodes. rewrite Hvl.
    destruct (Hrange e He). split; [done|]. split; [done|].
    by apply (proj1 (Forall_forall _ _) Hloops). }
  unfold materialize_all_embeddings.
  destruct (mapM _ (full_mni_embeddings G p)) as [subs|] eqn:Hm.
  - exists subs. split; [done|]. split; [symmetry; by eapply length_mapM|].
    apply mapM_Some in Hm. intros nodes edges [i Hi]%list_elem_of_lookup.
    destruct (Forall2_lookup_r _ _ _ _ _ Hm Hi) as (emb & Hemb & Hsub).
    apply list_elem_of_lookup_2, full_mni_embeddings_spec in Hemb; [|done].
    destruct (subgraph_follows_pattern G p emb Hemb Hin)
      as (edges' & Hsub' & Hn & Hl & Hall).
    rewrite Hsub in Hsub'. injection Hsub' as -> ->.
    unfold num_nodes in Hn. rewrite Hvl in Hn. rewrite Hes in Hl.
    split; [done|]. split; [apply emb_nodes_sorted|]. split; done.
  - exfalso. apply mapM_None, Exists_exists in Hm as (emb & Hemb & Hf).
    apply full_mni_embeddings_spec in Hemb; [|done].
    destruct (subgraph_follows_pattern G p emb Hemb Hin) as (edges' & Hsub' & _).
    congruence.
Qed.

Lemma materialize_embeddings_witness :
  ∃ subs,
    materialize_all_embeddings path_G ab_pattern
      (full_mni_embeddings path_G ab_pattern) false = Some subs
    ∧ length subs = length (full_mni_embeddings path_G ab_pattern)
    ∧ ∀ nodes edges, (nodes, edges) ∈ subs →
        length nodes = length ["A"; "B"]
        ∧ StronglySorted lt nodes
        ∧ length edges = length [mkEdge 0 1 None]
        ∧ ∀ e, e ∈ edges →
            edge_u e ∈ nodes ∧ edge_v e ∈ nodes
            ∧ has_edge path_G (edge_u e) (edge_v e) (edge_label e) = true.
Proof.
  apply (materialize_embeddings false ["A"; "B"; "C"]
           [mkEdge 0 1 None; mkEdge 1 2 None] path_G
           ["A"; "B"] [mkEdge 0 1 None] false ab_pattern).
  - vm_compute; reflexivity.
  - vm_compute; reflexivity.
  - by right.
  - constructor; [simpl; lia|constructor].
Defined.

(** The edge the induced case records for the entry [(v, lab)] of
    [adj[u]]. *)
Definition induced_edge (directed : bool) (u v : nat) (lab : option string)
  : Edge :=
  if directed then mkEdge u v lab else mkEdge (u `min` v) (u `max` v) lab.

Definition to_edge (k : nat * nat * option string) : Edge :=
  mkEdge k.1.1 k.1.2 k.2.

Lemma induced_step_eq G nodes u seen edges v lab :
  induced_step G nodes u (seen, edges) (v, lab)
  = if decide (v ∈ nodes) then
      if g_directed G then (seen, edges ++ [mkEdge u v lab])
      else if decide ((u `min` v, u `max` v, lab) ∈ seen) then (seen, edges)
           else (set_add (u `min` v, u `max` v, lab) seen,
                 edges ++ [mkEdge (u `min` v) (u `max` v) lab])
    else (seen, edges).
Proof.
  unfold induced_step. destruct (decide (v ∈ nodes)); [|done].
  destruct (g_directed G); [done|].
  destruct (decide (u < v)).
  - by rewrite Nat.min_l, Nat.max_r by lia.
  - by rewrite Nat.min_r, Nat.max_l by lia.
Qed.

(** The loops of the induced case over a list of adjacency entries, each
    with its node. *)
Lemma induced_loop G nodes (ents : list (nat * Nbr)) : ∀ seen edges,
  (g_directed G = false → edges = to_edge <$> seen ∧ NoDup seen) →
  let st := foldl (λ st un, induced_step G nodes un.1 st un.2) (seen, edges) ents in
  (g_directed G = false → st.2 = to_edge <$> st.1 ∧ NoDup st.1)
  ∧ ∀ e, e ∈ st.2
         ↔ e ∈ edges
           ∨ ∃ u v lab, (u, (v, lab)) ∈ ents ∧ v ∈ nodes
                        ∧ e = induced_edge (g_directed G) u v lab.
Proof.
  induction ents as [|[u [v lab]] ents IH]; intros seen edges Hinv; cbn [foldl].
  - split; [done|]. intros e. cbn. split; [by left|].
    intros [?|(u & v & lab & ?%elem_of_nil & _)]; done.
  - cbn [fst snd]. rewrite induced_step_eq.
    assert (Hnext : ∀ seen' edges',
      (g_directed G = false → edges' = to_edge <$> seen' ∧ NoDup seen') →
      (∀ e, e ∈ edges' ↔ e ∈ edges
            ∨ (v ∈ nodes ∧ e = induced_edge (g_directed G) u v lab)) →
      let st := foldl (λ st un, induced_step G nodes un.1 st un.2)
                      (seen', edges') ents in
      (g_directed G = false → st.2 = to_edge <$> st.1 ∧ NoDup st.1)
      ∧ ∀ e, e ∈ st.2
             ↔ e ∈ edges
               ∨ ∃ u0 v0 lab0, (u0, (v0, lab0)) ∈ (u, (v, lab)) :: ents
                               ∧ v0 ∈ nodes
                               ∧ e = induced_edge (g_directed G) u0 v0 lab0).
    { intros seen' edges' Hinv' Hmem.
      destruct (IH seen' edges' Hinv') as [Hi He]. split; [done|].
      intros e. rewrite He, Hmem. split.
      - intros [[?|[? ->]]|(u0 & v0 & lab0 & ? & ? & ->)]; [by left|right..].
        + exists u, v, lab. split; [apply list_elem_of_here|done].
        + exists u0, v0, lab0. split; [by apply list_elem_of_further|done].
      - intros [?|(u0 & v0 & lab0 & [[= -> -> ->]|?]%elem_of_cons & ? & ->)];
          [by left; left|by left; right|right].
        by exists u0, v0, lab0. }
    destruct (decide (v ∈ nodes)) as [Hv|Hv].
    + destruct (g_directed G) eqn:Hd.
      * apply Hnext; [done|]. intros e. unfold induced_edge.
        rewrite elem_of_app, list_elem_of_singleton. tauto.
      * destruct (Hinv eq_refl) as [-> Hnd].
        destruct (decide (_ ∈ seen)) as [Hin|Hnin].
        -- apply Hnext; [done|]. intros e. unfold induced_edge.
           split; [by left|]. intros [?|[_ ->]]; [done|].
           apply list_elem_of_fmap. by exists (u `min` v, u `max` v, lab).
        -- apply Hnext.
           ++ intros _. unfold set_add. rewrite decide_False by done.
              rewrite fmap_app. split; [done|].
              apply NoDup_app. split; [done|]. split; [|apply NoDup_singleton].
              intros x Hx ->%list_elem_of_singleton. done.
           ++ intros e. unfold induced_edge.
              rewrite elem_of_app, list_elem_of_singleton. tauto.
    + apply Hnext; [done|]. intros e. tauto.
Qed.

Lemma to_edge_inj : Inj (=) (=) to_edge.
Proof. intros [[a b] l] [[a' b'] l'] [= -> -> ->]. done. Qed.

Lemma induced_rows G nodes (us : list nat) : ∀ st,
  (∀ u, u ∈ us → u < length (g_adj G)) →
  foldM (λ st u, row ← g_adj G !! u;
                 Some (foldl (induced_step G nodes u) st row)) st us
  = Some (foldl (λ st un, induced_step G nodes un.1 st un.2) st
                (flat_map (λ u, pair u <$> adj G u) us)).
Proof.
  induction us as [|u us IH]; intros st Hus; cbn [foldM flat_map foldl]; [done|].
  destruct (lookup_lt_is_Some_2 (g_adj G) u) as [row Hrow];
    [apply Hus, list_elem_of_here|].
  rewrite Hrow. cbn [mbind option_bind]. rewrite foldl_app.
  rewrite IH by (intros; by apply Hus, list_elem_of_further).
  do 2 f_equal. unfold adj. rewrite Hrow. cbn [default].
  clear. revert st. induction row as [|nb row IH]; intros st; cbn; [done|].
  by rewrite IH.
Qed.

(** X28. For an embedding into nodes of the graph, the induced case of
    [subgraph_from_embedding] does not raise and returns, with the images
    in ascending order, exactly the edges [Edge(u, v, lab)] for the entries
    [(v, lab)] of [G.adj[u]] between two images [u] and [v]; for an
    undirected graph each is recorded once, as
    [Edge(min(u, v), max(u, v), lab)]. *)
Theorem subgraph_induced
    (gd : bool) (gvl : list string) (ges : list Edge) (G : DataGraph)
    (p : Pattern) (emb : gmap nat nat) :
  DataGraph_init gd gvl ges = Some G →
  (∀ i x, emb !! i = Some x → x < length gvl) →
  ∃ edges,
    subgraph_from_embedding G p emb true = Some (emb_nodes emb, edges)
    ∧ (∀ e, e ∈ edges
            ↔ ∃ u v lab, u ∈ emb_nodes emb ∧ v ∈ emb_nodes emb
                         ∧ (v, lab) ∈ adj G u
                         ∧ e = induced_edge gd u v lab)
    ∧ (gd = false → NoDup edges).
Proof.
  intros HG Himg. destruct (init_fields _ _ _ _ HG) as [Hd Hvl].
  assert (Hlen : length (g_adj G) = length gvl).
  { revert HG. unfold DataGraph_init.
    destruct (init_loop _ _ _) as [[a r]|] eqn:Hloop; [|discriminate].
    intros [= <-]. cbn.
    apply init_loop_Some in Hloop as (-> & _); by rewrite !length_replicate. }
  unfold subgraph_from_embedding. rewrite induced_rows.
  2:{ intros u (i & Hi)%elem_of_emb_nodes. rewrite Hlen. by eapply Himg. }
  cbn [mbind option_bind]. eexists. split; [done|].
  destruct (induced_loop G (emb_nodes emb)
              (flat_map (λ u, pair u <$> adj G u) (emb_nodes emb)) [] [])
    as [Hinv Hmem].
  { intros _. split; [done|apply NoDup_nil_2]. }
  cbn zeta in Hinv, Hmem. rewrite Hd in Hinv, Hmem. split.
  - intros e. rewrite Hmem, elem_of_nil. split.
    + intros [[]|(u & v & lab & Hin & Hv & ->)].
      apply elem_of_flat_map in Hin as (u' & Hu & Hin).
      apply list_elem_of_fmap in Hin as (nb & [= <- <-] & Hnb).
      by exists u, v, lab.
    + intros (u & v & lab & Hu & Hv & Hnb & ->). right. exists u, v, lab.
      split; [|done]. apply elem_of_flat_map. exists u. split; [done|].
      by apply list_elem_of_fmap_2.
  - intros Hgd. destruct (Hinv Hgd) as [-> Hnd].
    apply NoDup_fmap_2; [apply to_edge_inj|done].
Qed.

Lemma subgraph_induced_witness :
  ∃ edges,
    subgraph_from_embedding path_G ab_pattern {[0 := 0; 1 := 1]} true
    = Some (emb_nodes {[0 := 0; 1 := 1]}, edges)
    ∧ (∀ e, e ∈ edges
            ↔ ∃ u v lab, u ∈ emb_nodes {[0 := 0; 1 := 1]}
                         ∧ v ∈ emb_nodes {[0 := 0; 1 := 1]}
                         ∧ (v, lab) ∈ adj path_G u
                         ∧ e = induced_edge false u v lab)
    ∧ (false = false → NoDup edges).
Proof.
  apply (subgraph_induced false ["A"; "B"; "C"]
           [mkEdge 0 1 None; mkEdge 1 2 None] path_G ab_pattern).
  - vm_compute; reflexivity.
  - intros i x [[_ ->]|[_ ->]]%lookup_01; simpl; lia.
Defined.

(** ** miner.py: evaluation in worker processes *)

(** The worker rebuilds the graph of the payload and evaluates the pattern
    it is sent as the miner does. *)
Lemma worker_embeddings_eq G p :
  Pattern_init (p_vlabels p) (p_edges p) (g_directed G) = Some p →
  worker_embeddings (payload_of G) (p_vlabels p) (p_edges p)
  = Some (full_mni_embeddings G p).
Proof.
  intros Hp. unfold worker_embeddings, payload_of, DataGraph_init.
  cbn [init_loop mbind option_bind g_directed g_vlabels]. rewrite Hp.
  cbn [mbind option_bind]. by destruct G.
Qed.

(** X29. For patterns that have the directed flag of the graph,
    [_evaluate_patterns] with a process pool returns the pairs the
    sequential evaluation returns, in the order in which the workers
    finish: a worker, given the payload of the graph and the labels and
    edges of a pattern, computes [full_mni_embeddings] of that pattern on
    that graph. *)
Theorem evaluate_patterns_parallel (completion_order : list Pattern → list Pattern)
    (Hperm : ∀ l, completion_order l ≡ₚ l)
    (gd : bool) (gvl : list string) (ges : list Edge) (G : DataGraph)
    (max_workers : nat) (patterns : list Pattern) :
  DataGraph_init gd gvl ges = Some G →
  (∀ p, p ∈ patterns → Pattern_init (p_vlabels p) (p_edges p) gd = Some p) →
  ∃ out,
    evaluate_patterns completion_order G max_workers patterns true = Some out
    ∧ out ≡ₚ (λ p, (p, full_mni_embeddings G p)) <$> patterns
    ∧ evaluate_patterns completion_order G max_workers patterns false
      = Some ((λ p, (p, full_mni_embeddings G p)) <$> patterns).
Proof.
  intros HG Hpat. destruct (init_fields _ _ _ _ HG) as [Hd _].
  unfold evaluate_patterns. cbn [negb orb].
  destruct (bool_decide (max_workers ≤ 1) || bool_decide (length patterns = 1)).
  - eexists. split; [done|]. split; done.
  - exists ((λ p, (p, full_mni_embeddings G p)) <$> completion_order patterns).
    split; [|split; [by rewrite Hperm|done]].
    apply mapM_Some, Forall2_fmap_r, Forall_Forall2_diag, Forall_forall.
    intros p Hp. rewrite Hperm in Hp.
    rewrite worker_embeddings_eq; [done|]. rewrite Hd. by apply Hpat.
Qed.

Lemma evaluate_patterns_parallel_witness :
  ∃ out,
    evaluate_patterns (λ l, l) path_G 2 [ab_pattern; ab_pattern] true = Some out
    ∧ out ≡ₚ (λ p, (p, full_mni_embeddings path_G p)) <$> [ab_pattern; ab_pattern]
    ∧ evaluate_patterns (λ l, l) path_G 2 [ab_pattern; ab_pattern] false
      = Some ((λ p, (p, full_mni_embeddings path_G p))
                <$> [ab_pattern; ab_pattern]).
Proof.
  apply (evaluate_patterns_parallel (λ l, l) (λ l, reflexivity l) false
           ["A"; "B"; "C"] [mkEdge 0 1 None; mkEdge 1 2 None] path_G 2).
  - vm_compute; reflexivity.
  - intros p Hp.
    assert (p = ab_pattern) as ->
      by (repeat (apply elem_of_cons in Hp as [->|Hp]; [done|]);
          by apply elem_of_nil in Hp).
    vm_compute; reflexivity.
Defined.

(** ** candidate.py and embed.py: the seeds occur in the graph *)

(** A seed is constructed for an adjacency entry [(v, elab)] of a node
    [u], with [u < v] when the graph is undirected. *)
Definition seed_origin (G : DataGraph) (q : Pattern) : Prop :=
  ∃ u v elab,
    u < length (g_vlabels G) ∧ (v, elab) ∈ adj G u
    ∧ (g_directed G = false → u < v)
    ∧ Pattern_init [vlabel G u; vlabel G v] [mkEdge 0 1 elab] (g_directed G)
      = Some q.

Lemma seed_patterns_origin G seeds :
  seed_patterns G = Some seeds → Forall (seed_origin G) seeds.
Proof.
  unfold seed_patterns.
  destruct (foldM _ _ _) as [[seen out]|] eqn:Hfold; [|discriminate].
  cbn. intros [= <-]. revert Hfold.
  apply (foldM_inv _ (λ st, Forall (seed_origin G) st.2)); [|done].
  clear seen out. intros st u st' Hu%elem_of_seq.
  apply (foldM_inv _ (λ st, Forall (seed_origin G) st.2)). clear st st'.
  intros [seen out] [v elab] [seen' out'] Hnb Hout. unfold seed_step.
  destruct (seed_tuple _ _ _) as [tpl|] eqn:Htpl; [|by intros [= <- <-]].
  destruct (decide _); [by intros [= <- <-]|].
  destruct (Pattern_init _ _ _) as [q|] eqn:Hq; [|discriminate].
  cbn [mbind option_bind]. intros [= <- <-]. cbn [fst snd] in *.
  apply Forall_app. split; [done|]. apply Forall_singleton.
  exists u, v, elab. split; [lia|]. split; [done|]. split; [|done].
  intros Hd. unfold seed_tuple in Htpl. rewrite Hd in Htpl.
  destruct (decide (v ≤ u)); [discriminate|lia].
Qed.

Lemma lookup_uv (u v i x : nat) :
  u ≠ v → 
  ({[0 := u; 1 := v]} : gmap nat nat) !! i = Some x
  ↔ (i = 0 ∧ x = u) ∨ (i = 1 ∧ x = v).
Proof.
  intros _. destruct (decide (i = 0)) as [->|H0].
  - rewrite lookup_insert_eq. split; [intros [= <-]; auto|].
    intros [[_ ->]|[? _]]; [done|lia].
  - rewrite lookup_insert_ne by done.
    destruct (decide (i = 1)) as [->|H1].
    + rewrite lookup_singleton_eq. split; [intros [= <-]; auto|].
      intros [[? _]|[_ ->]]; [lia|done].
    + rewrite lookup_singleton_ne by done. split; [done|]. intros [[? _]|[? _]]; lia.
Qed.

(** X30. On a graph that is undirected, or directed without self-loops,
    every seed [seed_patterns] yields has an embedding: its MNI support is
    computed without raising and is at least 1. *)
Theorem seeds_are_supported
    (gd : bool) (gvl : list string) (ges : list Edge) (G : DataGraph)
    (seeds : list Pattern) (q : Pattern) :
  DataGraph_init gd gvl ges = Some G →
  (gd = true → Forall (λ e, edge_u e ≠ edge_v e) ges) →
  seed_patterns G = Some seeds →
  q ∈ seeds →
  ∃ m, mni_support (full_mni_embeddings G q) (num_nodes q) = Some m ∧ 1 ≤ m.
Proof.
  intros HG Hloops Hseeds Hq.
  destruct (init_fields _ _ _ _ HG) as [Hd Hvl].
  apply seed_patterns_origin in Hseeds.
  destruct (proj1 (Forall_forall _ _) Hseeds q Hq)
    as (u & v & elab & Hu & Hnb & Hlt & Hinit).
  rewrite Hd in Hinit, Hlt. rewrite Hvl in Hu.
  pose proof Hnb as Hnb'.
  apply (elem_of_adj _ _ _ _ HG) in Hnb' as (e & He & _ & Hc). cbn [fst snd] in Hc.
  destruct (edges_in_range _ _ _ _ HG e He) as [Heu Hev].
  assert (v < length gvl) as Hv by (destruct Hc as [[_ <-]|(_ & _ & <-)]; done).
  assert (u ≠ v) as Huv.
  { destruct gd; [|specialize (Hlt eq_refl); lia].
    pose proof (proj1 (Forall_forall _ _) (Hloops eq_refl) e He).
    destruct Hc as [[<- <-]|(? & _)]; done. }
  assert (Hemb : ({[0 := u; 1 := v]} : gmap nat nat) ∈ full_mni_embeddings G q).
  { apply (full_mni_embeddings_found gd gvl ges G [vlabel G u; vlabel G v]
             [mkEdge 0 1 elab] gd q); [done|done|by destruct gd; auto| | | |].
    - intros i. split.
      + intros [x [[-> _]|[-> _]]%lookup_uv]; simpl; (done || lia).
      + intros Hi. destruct i as [|[|i]]; [by exists u|by exists v|simpl in Hi; lia].
    - unfold vlabel. rewrite Hvl.
      intros i x [[-> ->]|[-> ->]]%lookup_uv; [| |done..].
      + split; [done|]. destruct (lookup_lt_is_Some_2 gvl u Hu) as [l ->]. done.
      + split; [done|]. destruct (lookup_lt_is_Some_2 gvl v Hv) as [l ->]. done.
    - intros i j x [[-> ->]|[-> ->]]%lookup_uv [[-> ?]|[-> ?]]%lookup_uv;
        done || lia.
    - intros e' x y ->%list_elem_of_singleton. cbn.
      rewrite !lookup_insert_eq, lookup_insert_ne, lookup_singleton_eq by done.
      intros [= <-] [= <-]. unfold has_edge. apply existsb_exists.
      exists (v, elab). split; [by apply list_elem_of_In|].
      rewrite bool_decide_eq_true_2 by done. cbn.
      destruct elab; [by apply bool_decide_eq_true_2|done]. }
  destruct (mni_support_range (full_mni_embeddings G q) (num_nodes q))
    as (m & Hm & _ & Hzero).
  { apply Pattern_init_Some in Hinit as (Hqv & _). unfold num_nodes.
    by rewrite Hqv. }
  { intros emb i Hin.
    destruct (full_mni_embeddings_facts gd gvl ges G _ _ _ q emb HG Hinit Hin)
      as (Hdom & _).
    apply Pattern_init_Some in Hinit as (Hqv & _). unfold num_nodes.
    rewrite Hqv. apply Hdom. }
  exists m. split; [done|].
  destruct (decide (m = 0)) as [Hz|]; [|lia].
  apply Hzero in Hz. rewrite Hz in Hemb. by apply elem_of_nil in Hemb.
Qed.

Lemma seeds_are_supported_witness :
  ∃ m, mni_support (full_mni_embeddings path_G ab_pattern) (num_nodes ab_pattern)
       = Some m ∧ 1 ≤ m.
Proof.
  apply (seeds_are_supported false ["A"; "B"; "C"]
           [mkEdge 0 1 None; mkEdge 1 2 None] path_G
           (default [] (seed_patterns path_G)) ab_pattern).
  - vm_compute; reflexivity.
  - discriminate.
  - vm_compute; reflexivity.
  - apply (list_elem_of_lookup_2 _ 0). vm_compute; reflexivity.
Defined.
